(** * picoevents: a shallow embedding of [picoevents.h]

    The header implements a synchronous multicast channel ([Event<T...>])
    on top of [std::list<std::function<void(T...)>>], with list iterators
    used as subscription handles, plus a few RAII helpers built on it.

    The embedding keeps the objects of the C++ program in an explicit
    store ([World]) and writes every member function as a computation in
    a small state-and-error monad:
    - a [std::list] node has an identity ([node]); an iterator is either
      the past-the-end iterator of one particular list or a pointer to a
      node ([CallbackID]);
    - operations that the C++ standard leaves undefined (dereferencing or
      erasing through an iterator that is not in the list, using a dead
      object) produce the outcome [Undefined];
    - the only loop, the dispatch loop of [notify], is driven by fuel and
      produces [OutOfFuel] when the fuel is exhausted;
    - a callback ([std::function]) is a name and a body written in a small
      statement language covering what the header and its example code let
      subscribers do to channels and to their argument, and throwing;
    - an exception that leaves a computation produces the outcome
      [Thrown] with the store as it was when the exception was thrown; the
      header catches nothing, so the rest of every enclosing member
      function is skipped, and an exception that leaves a destructor
      produces [Terminated]. *)

From stdpp Require Import base gmap list.

Set Default Proof Using "Type".

(** ** Identities *)

(** Identity of an [Event] object (its address). *)
Definition chan := nat.
(** Identity of a node of a [std::list]. *)
Definition node := nat.
(** Address of an lvalue: a [CallbackID] variable or a [T] variable. *)
Definition loc := nat.

(** [Event::CallbackID] is [std::list<Callback>::iterator]: the
    past-the-end iterator of the list owned by channel [l], or an
    iterator to node [n]. *)
Inductive CallbackID :=
| End (l : chan)
| At (n : node).

#[global] Instance CallbackID_eq_dec : EqDecision CallbackID.
Proof. solve_decision. Defined.

Section Model.
Context {T : Type}.

(** ** Callbacks *)

(** An actual argument of [notify(T... t)]: a value when [T] is a value
    type ([Event<int>]), a reference to the caller's lvalue when [T] is a
    reference type ([Event<int&>]). *)
Inductive Arg :=
| Val (v : T)
| Ref (x : loc).

(** What a subscriber does when called.  [SRemove e h] is
    [e.remove(h)] on the handle variable at [h], [SAdd e h c first] is
    [h = e.add(c, first)], [SSetEnabled e b] is [e.setEnabled(b)], and
    [SModify f] updates the callback's own parameter ([k++] in the
    header's [Event<int&>] example).  [SAddSelf e h first] is
    [h = e.add(f, first)] where [f] is the [std::function] the running
    callback was registered from: the callback subscribes a copy of
    itself.  [SThrow] throws an exception.  Statements name channels and
    handle variables by address, the way a function names objects of
    static storage: a callback carries no captured state whose lifetime
    would end with the list node that stores it. *)
Inductive Stmt :=
| SRemove (e : chan) (h : loc)
| SAdd (e : chan) (h : loc) (c : Callback) (first : bool)
| SSetEnabled (e : chan) (b : bool)
| SModify (f : T -> T)
| SAddSelf (e : chan) (h : loc) (first : bool)
| SThrow
with Callback :=
| Cb (name : nat) (body : list Stmt).

Definition cb_name (c : Callback) : nat := match c with Cb n _ => n end.
Definition cb_body (c : Callback) : list Stmt := match c with Cb _ b => b end.

(** ** The store *)

(** The data members of [Event<T...>]. *)
Record Event := mkEvent {
  _callbacks : list (node * Callback);
  _enabled : bool;
  _nextCallback : CallbackID
}.

(** Ghost history: which node's callback was called with which value, and
    which nodes were erased, in program order. *)
Inductive Obs :=
| Invoked (n : node) (name : nat) (v : T)
| Erased (n : node).

Record World := mkWorld {
  chans : gmap chan Event;        (* live Event objects *)
  cells : gmap loc CallbackID;    (* live CallbackID lvalues *)
  vals : gmap loc T;              (* live T lvalues *)
  fresh : nat;                    (* next unused identity / address *)
  history : list Obs
}.

Definition with_chans (f : gmap chan Event → gmap chan Event) (w : World) : World :=
  mkWorld (f (chans w)) (cells w) (vals w) (fresh w) (history w).
Definition with_cells (f : gmap loc CallbackID → gmap loc CallbackID) (w : World) : World :=
  mkWorld (chans w) (f (cells w)) (vals w) (fresh w) (history w).
Definition with_vals (f : gmap loc T → gmap loc T) (w : World) : World :=
  mkWorld (chans w) (cells w) (f (vals w)) (fresh w) (history w).
Definition with_fresh (k : nat) (w : World) : World :=
  mkWorld (chans w) (cells w) (vals w) k (history w).
Definition with_history (f : list Obs → list Obs) (w : World) : World :=
  mkWorld (chans w) (cells w) (vals w) (fresh w) (f (history w)).

(** ** The monad *)

(** [Ok a w]: the computation returned [a] and left the store [w].
    [Thrown w]: it was left by an exception, the store being [w].
    [Terminated]: [std::terminate] was called. *)
Inductive outcome (A : Type) :=
| Ok (a : A) (w : World)
| Thrown (w : World)
| Terminated
| Undefined
| OutOfFuel.
Arguments Ok {A} a w.
Arguments Thrown {A} w.
Arguments Terminated {A}.
Arguments Undefined {A}.
Arguments OutOfFuel {A}.

Definition M (A : Type) := World → outcome A.

Definition ret {A} (a : A) : M A := fun w => Ok a w.
Definition bind {A B} (m : M A) (k : A → M B) : M B :=
  fun w => match m w with
           | Ok a w' => k a w'
           | Thrown w' => Thrown w'
           | Terminated => Terminated
           | Undefined => Undefined
           | OutOfFuel => OutOfFuel
           end.
Definition undefined {A} : M A := fun _ => Undefined.
Definition out_of_fuel {A} : M A := fun _ => OutOfFuel.
(** [throw]: the statements after it are skipped, up to a handler; the
    header has none. *)
Definition throw {A} : M A := fun w => Thrown w.
(** A destructor is [noexcept] unless declared otherwise: an exception
    that tries to leave it calls [std::terminate]. *)
Definition noexcept {A} (m : M A) : M A :=
  fun w => match m w with
           | Thrown _ => Terminated
           | o => o
           end.
Definition lift {A} (o : option A) : M A :=
  match o with Some a => ret a | None => undefined end.

End Model.

Arguments Stmt T : clear implicits.
Arguments Callback T : clear implicits.
Arguments Arg T : clear implicits.
Arguments Event T : clear implicits.
Arguments Obs T : clear implicits.
Arguments World T : clear implicits.
Arguments outcome T A : clear implicits.
Arguments M T A : clear implicits.
Arguments Ok {T A} a w.
Arguments Thrown {T A} w.
Arguments Terminated {T A}.
Arguments Undefined {T A}.
Arguments OutOfFuel {T A}.

Declare Scope ev_scope.
Delimit Scope ev_scope with ev.
Notation "x <- m ;; k" := (bind m (fun x => k))
  (at level 20, m at level 99, k at level 200, only parsing) : ev_scope.
Notation "m ;; k" := (bind m (fun _ => k))
  (at level 100, k at level 200, only parsing, right associativity) : ev_scope.
Open Scope ev_scope.

Section Primitives.
Context {T : Type}.

(** Access to the store.  Touching an object that is not alive is
    undefined. *)
Definition this_event (this : chan) : M T (Event T) :=
  fun w => lift (chans w !! this) w.
Definition set_event (this : chan) (e : Event T) : M T unit :=
  fun w => Ok tt (with_chans (insert this e) w).
Definition load (h : loc) : M T CallbackID :=
  fun w => lift (cells w !! h) w.
Definition store (h : loc) (c : CallbackID) : M T unit :=
  fun w => match cells w !! h with
           | Some _ => Ok tt (with_cells (insert h c) w)
           | None => Undefined
           end.
Definition load_val (x : loc) : M T T :=
  fun w => lift (vals w !! x) w.
Definition store_val (x : loc) (v : T) : M T unit :=
  fun w => match vals w !! x with
           | Some _ => Ok tt (with_vals (insert x v) w)
           | None => Undefined
           end.
Definition observe (o : Obs T) : M T unit :=
  fun w => Ok tt (with_history (fun h => h ++ [o]) w).
(** A new identity, different from every one handed out before. *)
Definition new_id : M T nat :=
  fun w => Ok (fresh w) (with_fresh (S (fresh w)) w).
Definition alloc_cell (c : CallbackID) : M T loc :=
  p <- new_id;; (fun w => Ok p (with_cells (insert p c) w)).
Definition free_cell (p : loc) : M T unit :=
  fun w => match cells w !! p with
           | Some _ => Ok tt (with_cells (delete p) w)
           | None => Undefined
           end.
Definition alloc_val (v : T) : M T loc :=
  p <- new_id;; (fun w => Ok p (with_vals (insert p v) w)).
Definition free_val (p : loc) : M T unit :=
  fun w => match vals w !! p with
           | Some _ => Ok tt (with_vals (delete p) w)
           | None => Undefined
           end.

(** The value an actual argument denotes. *)
Definition arg_value (a : Arg T) : M T T :=
  match a with
  | Val v => ret v
  | Ref x => load_val x
  end.

(** ** [std::list<Callback>] *)

(** [l.begin()] for the list [l] owned by channel [this]. *)
Definition list_begin (this : chan) (l : list (node * Callback T)) : CallbackID :=
  match l with
  | [] => End this
  | (n, _) :: _ => At n
  end.

(** [std::next(it)] for an iterator to node [n]; [None] when [n] is not a
    node of [l]. *)
Fixpoint list_next (this : chan) (l : list (node * Callback T)) (n : node)
  : option CallbackID :=
  match l with
  | [] => None
  | (m, _) :: l' =>
      if decide (m = n) then Some (list_begin this l') else list_next this l' n
  end.

(** [std::prev(l.end())]; undefined on the empty list. *)
Definition list_prev_end (l : list (node * Callback T)) : option CallbackID :=
  match last l with
  | Some (n, _) => Some (At n)
  | None => None
  end.

(** [*it] for an iterator to node [n]. *)
Fixpoint list_deref (l : list (node * Callback T)) (n : node) : option (Callback T) :=
  match l with
  | [] => None
  | (m, c) :: l' => if decide (m = n) then Some c else list_deref l' n
  end.

(** [l.erase(it)] for an iterator to node [n]. *)
Fixpoint list_erase (l : list (node * Callback T)) (n : node)
  : option (list (node * Callback T)) :=
  match l with
  | [] => None
  | (m, c) :: l' =>
      if decide (m = n) then Some l' else cons (m, c) <$> list_erase l' n
  end.

(** [*it = c] for an iterator to node [n]. *)
Fixpoint list_assign (l : list (node * Callback T)) (n : node) (c : Callback T)
  : option (list (node * Callback T)) :=
  match l with
  | [] => None
  | (m, c') :: l' =>
      if decide (m = n) then Some ((m, c) :: l')
      else cons (m, c') <$> list_assign l' n c
  end.

(** Incrementing and dereferencing act on iterators to nodes only. *)
Definition it_next (this : chan) (l : list (node * Callback T)) (c : CallbackID)
  : option CallbackID :=
  match c with
  | At n => list_next this l n
  | End _ => None
  end.
Definition it_deref (l : list (node * Callback T)) (c : CallbackID)
  : option (node * Callback T) :=
  match c with
  | At n => pair n <$> list_deref l n
  | End _ => None
  end.

Definition nodes (l : list (node * Callback T)) : list node := l.*1.

(** ** [Event<T...>] *)

Definition set_callbacks (this : chan) (l : list (node * Callback T)) : M T unit :=
  e <- this_event this;;
  set_event this (mkEvent l (_enabled e) (_nextCallback e)).
Definition set_nextCallback (this : chan) (c : CallbackID) : M T unit :=
  e <- this_event this;;
  set_event this (mkEvent (_callbacks e) (_enabled e) c).

(** The default constructor: an empty list, [_enabled = true],
    [_nextCallback = _callbacks.end()]. *)
Definition Event_ctor : M T chan :=
  this <- new_id;;
  set_event this (mkEvent [] true (End this));;
  ret this.

Definition setEnabled (this : chan) (b : bool) : M T unit :=
  e <- this_event this;;
  set_event this (mkEvent (_callbacks e) b (_nextCallback e)).

Definition isEnabled (this : chan) : M T bool :=
  e <- this_event this;;
  ret (_enabled e).

Definition empty_callback (this : chan) : M T CallbackID :=
  _ <- this_event this;;
  ret (End this).

Definition push_front (this : chan) (c : Callback T) : M T unit :=
  e <- this_event this;;
  n <- new_id;;
  set_callbacks this ((n, c) :: _callbacks e).
Definition push_back (this : chan) (c : Callback T) : M T unit :=
  e <- this_event this;;
  n <- new_id;;
  set_callbacks this (_callbacks e ++ [(n, c)]).

Definition add (this : chan) (c : Callback T) (first : bool) : M T CallbackID :=
  if first then
    push_front this c;;
    e <- this_event this;;
    ret (list_begin this (_callbacks e))
  else
    push_back this c;;
    e <- this_event this;;
    lift (list_prev_end (_callbacks e)).

(** [_callbacks.erase(c)] *)
Definition erase (this : chan) (c : CallbackID) : M T unit :=
  e <- this_event this;;
  match c with
  | At n =>
      l <- lift (list_erase (_callbacks e) n);;
      set_callbacks this l;;
      observe (Erased n)
  | End _ => undefined
  end.

(** [remove(CallbackID &c)]: [c] is the address of the caller's handle. *)
Definition remove (this : chan) (c : loc) : M T unit :=
  e <- this_event this;;
  cv <- load c;;
  if decide (cv = End this) then ret tt
  else
    (if decide (cv = _nextCallback e) then
       nx <- lift (it_next this (_callbacks e) (_nextCallback e));;
       set_nextCallback this nx
     else ret tt);;
    erase this cv;;
    store c (End this).

(** [replace(CallbackID id, Callback& c)] *)
Definition replace (this : chan) (id : CallbackID) (c : Callback T) : M T bool :=
  e <- this_event this;;
  match id with
  | At n =>
      l <- lift (list_assign (_callbacks e) n c);;
      set_callbacks this l;;
      ret true
  | End _ => undefined
  end.

(** The implicitly defined copy assignment [*this = other]: member-wise.
    Assigning the list destroys the old nodes and leaves copies of the
    other list's elements in nodes of its own; the flag and the cursor are
    copied as they are.  Self-assignment changes nothing. *)
Fixpoint copy_elements (cs : list (Callback T)) : M T (list (node * Callback T)) :=
  match cs with
  | [] => ret []
  | c :: cs' =>
      n <- new_id;;
      l <- copy_elements cs';;
      ret ((n, c) :: l)
  end.
Fixpoint observe_all (os : list (Obs T)) : M T unit :=
  match os with
  | [] => ret tt
  | o :: os' => observe o;; observe_all os'
  end.
Definition assign (this other : chan) : M T unit :=
  e <- this_event this;;
  o <- this_event other;;
  if decide (this = other) then ret tt
  else
    observe_all (Erased <$> nodes (_callbacks e));;
    l <- copy_elements (_callbacks o).*2;;
    set_event this (mkEvent l (_enabled o) (_nextCallback o)).

(** Running the body of the callback [self].  A value parameter is the
    callback's own copy, so [SModify] is only visible through a reference
    parameter. *)
Definition run_stmt (self : Callback T) (a : Arg T) (s : Stmt T) : M T unit :=
  match s with
  | SRemove e h => remove e h
  | SAdd e h c first => id <- add e c first;; store h id
  | SSetEnabled e b => setEnabled e b
  | SModify f =>
      match a with
      | Val _ => ret tt
      | Ref x => v <- load_val x;; store_val x (f v)
      end
  | SAddSelf e h first => id <- add e self first;; store h id
  | SThrow => throw
  end.
Fixpoint run_body (self : Callback T) (a : Arg T) (ss : list (Stmt T)) : M T unit :=
  match ss with
  | [] => ret tt
  | s :: ss' => run_stmt self a s;; run_body self a ss'
  end.

(** Calling the callback [c] stored in node [n] with the arguments of
    [notify]. *)
Definition call (n : node) (c : Callback T) (a : Arg T) : M T unit :=
  v <- arg_value a;;
  observe (Invoked n (cb_name c) v);;
  run_body c a (cb_body c).

(** The loop of [notify], entered with the loop variable [c]:
<<
  for (CallbackID c = _callbacks.begin(); c != _callbacks.end();) {
      _nextCallback = std::next(c);
      call *c with t...;
      c = _nextCallback;
  }
>> *)
Fixpoint notify_loop (fuel : nat) (this : chan) (a : Arg T) (c : CallbackID)
  : M T unit :=
  match fuel with
  | 0 => out_of_fuel
  | S fuel' =>
      if decide (c = End this) then ret tt
      else
        e <- this_event this;;
        nx <- lift (it_next this (_callbacks e) c);;
        set_nextCallback this nx;;
        nc <- lift (it_deref (_callbacks e) c);;
        call nc.1 nc.2 a;;
        e' <- this_event this;;
        notify_loop fuel' this a (_nextCallback e')
  end.

Definition notify (fuel : nat) (this : chan) (a : Arg T) : M T unit :=
  e <- this_event this;;
  if _enabled e then
    notify_loop fuel this a (list_begin this (_callbacks e));;
    set_nextCallback this (End this)
  else ret tt.

(** [operator()]: [event(a)] instead of [event.notify(a)]. *)
Definition operator_call (fuel : nat) (this : chan) (a : Arg T) : M T unit :=
  notify fuel this a.

End Primitives.

(** ** [Event::ScopedDisable] *)

Module ScopedDisable.
Record t := mk { _e : chan; _prev : bool }.

Section WithT.
Context {T : Type}.

Definition ctor (e : chan) : M T t :=
  prev <- isEnabled e;;
  setEnabled e false;;
  ret (mk e prev).

Definition dtor (g : t) : M T unit :=
  setEnabled (_e g) (_prev g).

End WithT.
End ScopedDisable.

(** ** [Event::Notifier] and [Event::ScopedNotifier] *)

(** Passing the lvalue at [x] to a parameter of the channel's declared
    type [T]: copied when [T] is a value type, bound when [T] is a
    reference type ([by_ref]). *)
Definition pass {T : Type} (by_ref : bool) (x : loc) : M T (Arg T) :=
  if by_ref then ret (Ref x)
  else v <- load_val x;; ret (Val v).

Module Notifier.
(** [_t] is the address of the stored tuple, whose members have the
    value types [std::remove_reference<T>::type]. *)
Record t := mk { _t : loc; _e : chan }.

Section WithT.
Context {T : Type}.

Definition ctor (e : chan) (a : Arg T) : M T t :=
  v <- arg_value a;;
  p <- alloc_val v;;
  ret (mk p e).

(** The implicit copy constructor. *)
Definition copy_ctor (n : t) : M T t :=
  v <- load_val (_t n);;
  p <- alloc_val v;;
  ret (mk p (_e n)).

(** [std::apply] hands the members of [_t] to [notify] as lvalues. *)
Definition trigger (by_ref : bool) (fuel : nat) (n : t) : M T unit :=
  a <- pass by_ref (_t n);;
  notify fuel (_e n) a.

End WithT.
End Notifier.

Module ScopedNotifier.
Record t := mk { _n : Notifier.t }.

Section WithT.
Context {T : Type}.

Definition ctor (n : Notifier.t) : M T t :=
  n' <- Notifier.copy_ctor n;;
  ret (mk n').

(** [~ScopedNotifier() { _n.trigger(); }], then the member [_n] dies. *)
Definition dtor (by_ref : bool) (fuel : nat) (s : t) : M T unit :=
  noexcept (Notifier.trigger by_ref fuel (_n s));;
  free_val (Notifier._t (_n s)).

End WithT.
End ScopedNotifier.

Definition makeNotifier {T : Type} (this : chan) (a : Arg T) : M T Notifier.t :=
  Notifier.ctor this a.

(** ** [Event::ScopedCallbackID] *)

Module ScopedCallbackID.
(** [_event] is a C++ reference: it is bound once, when the object is
    constructed.  [_cb] is the address of the object's handle; it also
    identifies the object. *)
Record t := mk { _event : chan; _cb : loc }.

Section WithT.
Context {T : Type}.

Definition ctor (event : chan) (c : Callback T) (first : bool) : M T t :=
  id <- add event c first;;
  p <- alloc_cell id;;
  ret (mk event p).

Definition move_ctor (other : t) : M T t :=
  id <- load (_cb other);;
  p <- alloc_cell id;;
  e <- empty_callback (_event other);;
  store (_cb other) e;;
  ret (mk (_event other) p).

Definition dtor (o : t) : M T unit :=
  remove (_event o) (_cb o);;
  free_cell (_cb o).

(** [_event = event] assigns through the reference: it is the copy
    assignment of the channel [_event] is bound to. *)
Definition replace (o : t) (event : chan) (c : Callback T) (first : bool)
  : M T unit :=
  remove (_event o) (_cb o);;
  assign (_event o) event;;
  id <- add (_event o) c first;;
  store (_cb o) id.

Definition invoke (o : t) (a : Arg T) : M T unit :=
  id <- load (_cb o);;
  e <- this_event (_event o);;
  nc <- lift (it_deref (_callbacks e) id);;
  call nc.1 nc.2 a.

Definition getEvent (o : t) : chan := _event o.

End WithT.
End ScopedCallbackID.

(** ** [ScopedCallbacksHolder] *)

Module ScopedCallbacksHolder.
(** The vector of owning pointers. *)
Record t := mk { _callbacks : list ScopedCallbackID.t }.

Definition ctor : t := mk [].

Section WithT.
Context {T : Type}.

Definition addCallback (h : t) (e : chan) (c : Callback T) (first : bool)
  : M T (ScopedCallbackID.t * t) :=
  res <- ScopedCallbackID.ctor e c first;;
  ret (res, mk (_callbacks h ++ [res])).

(** Destroying the elements of the vector, first to last. *)
Fixpoint destroy (os : list ScopedCallbackID.t) : M T unit :=
  match os with
  | [] => ret tt
  | o :: os' => ScopedCallbackID.dtor o;; destroy os'
  end.

Definition removeAllCallbacks (h : t) : M T t :=
  destroy (_callbacks h);;
  ret (mk []).

Fixpoint remove_first (os : list ScopedCallbackID.t) (r : ScopedCallbackID.t)
  : M T (list ScopedCallbackID.t) :=
  match os with
  | [] => ret []
  | o :: os' =>
      if decide (ScopedCallbackID._cb o = ScopedCallbackID._cb r) then
        ScopedCallbackID.dtor o;; ret os'
      else
        os'' <- remove_first os' r;; ret (o :: os'')
  end.

Definition removeCallback (h : t) (r : ScopedCallbackID.t) : M T t :=
  os <- remove_first (_callbacks h) r;;
  ret (mk os).

(** The destructor has an empty body; destroying the vector member
    destroys what it owns. *)
Definition dtor (h : t) : M T unit :=
  destroy (_callbacks h).

End WithT.
End ScopedCallbacksHolder.

(** ** [Value<T, ET>] *)

(** The destructor of [Event]: the list and its nodes die with it. *)
Definition Event_dtor {T : Type} (this : chan) : M T unit :=
  e <- this_event this;;
  observe_all (Erased <$> nodes (_callbacks e));;
  (fun w => Ok tt (with_chans (delete this) w)).

Module Value.
(** [holder] is the [ScopedCallbacksHolder] base object, [_t] the
    address of the stored value, [_e] the channel of type [Event<ET>]. *)
Record t := mk { holder : ScopedCallbacksHolder.t; _t : loc; _e : chan }.

Section WithT.
Context {T : Type}.

Definition ctor (v : T) : M T t :=
  p <- alloc_val v;;
  e <- Event_ctor;;
  ret (mk ScopedCallbacksHolder.ctor p e).

Definition dtor (this : t) : M T unit :=
  h <- ScopedCallbacksHolder.removeAllCallbacks (holder this);;
  Event_dtor (_e this);;
  free_val (_t this);;
  ScopedCallbacksHolder.dtor h.

(** [by_ref] tells whether [ET] is a reference type. *)
Definition notify (by_ref : bool) (fuel : nat) (this : t) : M T unit :=
  a <- pass by_ref (_t this);;
  notify fuel (_e this) a.

Definition set (by_ref : bool) (fuel : nat) (this : t) (v : T) : M T unit :=
  store_val (_t this) v;;
  notify by_ref fuel this.

Definition get (this : t) : M T T :=
  load_val (_t this).

Definition getEvent (this : t) : chan := _e this.

Definition addListener (this : t) (c : Callback T) (first : bool)
  : M T (ScopedCallbackID.t * t) :=
  r <- ScopedCallbacksHolder.addCallback (holder this) (_e this) c first;;
  ret (r.1, mk r.2 (_t this) (_e this)).

End WithT.
End Value.

(** * Vocabulary of the statements *)

(** ** Histories *)

(** The nodes whose callbacks a piece of history reports as called. *)
Definition invoked {T : Type} (t : list (Obs T)) : list node :=
  omap (λ o, match o with Invoked n _ _ => Some n | Erased _ => None end) t.

(** The history of a dispatch that calls the callbacks of [l] in order,
    each with the value [v]. *)
Definition calls {T : Type} (v : T) (l : list (node * Callback T)) : list (Obs T) :=
  (λ nc, Invoked nc.1 (cb_name nc.2) v) <$> l.

(** A piece of history that consists of exactly one call per element of
    [l], in the order of [l]. *)
Definition called_in_order {T : Type} (t : list (Obs T))
    (l : list (node * Callback T)) : Prop :=
  Forall2 (λ o nc, ∃ u, o = Invoked nc.1 (cb_name nc.2) u) t l.

(** Every call reported in a piece of history received the value [v]. *)
Definition delivers {T : Type} (v : T) (t : list (Obs T)) : Prop :=
  Forall (λ o, match o with Invoked _ _ u => u = v | Erased _ => True end) t.

(** In a piece of history, no callback is called after its node was
    erased. *)
Definition never_called_after_erased {T : Type} (t : list (Obs T)) : Prop :=
  ∀ t0 n nm v t', t = t0 ++ Invoked n nm v :: t' → Erased n ∉ t0.

(** The history only grows and identities are never handed out twice. *)
Definition grows {T : Type} (w w' : World T) : Prop :=
  history w `prefix_of` history w' ∧ fresh w ≤ fresh w'.

(** ** Channels between and during dispatches *)

(** No dispatch is in progress on channel [this]: its cursor is the
    past-the-end iterator of its own list. *)
Definition idle {T : Type} (this : chan) (w : World T) : Prop :=
  ∃ e, chans w !! this = Some e ∧ _nextCallback e = End this.

(** The cursor of channel [this] stands at the beginning of [post]. *)
Definition cursor_at {T : Type} (this : chan) (post : list (node * Callback T))
    (w : World T) : Prop :=
  ∃ e, chans w !! this = Some e ∧ _nextCallback e = list_begin this post.

(** The argument can be read: a reference refers to a live lvalue. *)
Definition readable {T : Type} (a : Arg T) (w : World T) : Prop :=
  match a with
  | Val _ => True
  | Ref x => is_Some (vals w !! x)
  end.

(** ** Callbacks that leave the channels alone *)

(** A callback that leaves every channel alone: all it may do is update
    its own parameter. *)
Definition is_modify {T : Type} (s : Stmt T) : bool :=
  match s with SModify _ => true | _ => false end.
Definition passive {T : Type} (c : Callback T) : Prop :=
  Forall (λ s, is_modify s) (cb_body c).

(** A sequence of [add] calls on one channel, in program order. *)
Fixpoint add_all {T : Type} (this : chan) (ops : list (Callback T * bool))
  : M T (list CallbackID) :=
  match ops with
  | [] => ret []
  | (c, first) :: ops' =>
      id <- add this c first;;
      ids <- add_all this ops';;
      ret (id :: ids)
  end.

(** The callbacks of a sequence of [add] calls that were inserted at the
    front, and those inserted at the back, both in call order. *)
Definition fronts {T : Type} (ops : list (Callback T * bool)) : list (Callback T) :=
  (filter (λ o, o.2 = true) ops).*1.
Definition backs {T : Type} (ops : list (Callback T * bool)) : list (Callback T) :=
  (filter (λ o, o.2 = false) ops).*1.

(** ** Callbacks that remove handles *)

Definition is_At (c : CallbackID) : bool :=
  match c with At _ => true | End _ => false end.

(** Every handle variable of the store holds the empty sentinel of
    channel [this] or an iterator to a node of its list [l]. *)
Definition handles_valid {T : Type} (this : chan) (l : list (node * Callback T))
    (cs : gmap loc CallbackID) : Prop :=
  map_Forall (λ _ cv, cv ∈ End this :: (At <$> nodes l)) cs.

(** No two handle variables hold an iterator to the same node. *)
Definition no_alias (cs : gmap loc CallbackID) : Prop :=
  map_Forall (λ h1 c1,
    map_Forall (λ h2 c2, c1 = c2 → is_At c1 → h1 = h2) cs) cs.

(** A callback all of whose statements are [this.remove(h)] for a handle
    variable [h] among [D]. *)
Definition is_remove_of {T : Type} (this : chan) (D : gset loc) (s : Stmt T) : bool :=
  match s with
  | SRemove e h => bool_decide (e = this ∧ h ∈ D)
  | _ => false
  end.
Definition remover {T : Type} (this : chan) (D : gset loc) (c : Callback T) : Prop :=
  Forall (λ s, is_remove_of this D s) (cb_body c).

(** The state of channel [this] while its subscribers are removers over
    the handle variables [D]: its list is [l], without repeated nodes. *)
Definition removers_state {T : Type} (this : chan) (D : gset loc)
    (l : list (node * Callback T)) (w : World T) : Prop :=
  (∃ e, chans w !! this = Some e ∧ _callbacks e = l) ∧
  NoDup (nodes l) ∧
  dom (cells w) = D ∧
  handles_valid this l (cells w) ∧
  no_alias (cells w) ∧
  Forall (remover this D) l.*2.

(** The nodes a piece of history reports as erased. *)
Definition erased {T : Type} (t : list (Obs T)) : list node :=
  omap (λ o, match o with Erased n => Some n | Invoked _ _ _ => None end) t.

(** Callback [n] of the list [l] removes node [m]: its body has a
    [this.remove(h)] for a handle variable [h] that, in [cs], holds an
    iterator to [m]. *)
Definition removes {T : Type} (this : chan) (l : list (node * Callback T))
    (cs : gmap loc CallbackID) (n m : node) : Prop :=
  ∃ c h, (n, c) ∈ l ∧ SRemove this h ∈ cb_body c ∧ cs !! h = Some (At m).

(** Removals are honoured in a piece of history: once a callback has
    been called, what it removes is not called afterwards. *)
Definition honoured {T : Type} (R : node → node → Prop) (t : list (Obs T)) : Prop :=
  ∀ t0 n nm v t', t = t0 ++ Invoked n nm v :: t' → ∀ m, R n m → m ∉ invoked t'.

(** The handle variables [cs'] are the variables [cs], except that some
    of those that held an iterator to a node among [ns] now hold the
    empty sentinel. *)
Definition emptied (this : chan) (ns : list node) (cs cs' : gmap loc CallbackID)
  : Prop :=
  ∀ h, cs' !! h = cs !! h ∨
       (cs' !! h = Some (End this) ∧ ∃ m, cs !! h = Some (At m) ∧ m ∈ ns).

(** A dispatch of the enabled channel [this] over removers in progress.
    It started with the list [l0] and the handle variables [c0]; [pre]
    has been visited, [post] is still to be visited, and [t] is the
    history since it started (the history before was [h0]). *)
Definition removing {T : Type} (this : chan) (D : gset loc) (a : Arg T)
    (h0 : list (Obs T)) (l0 : list (node * Callback T)) (c0 : gmap loc CallbackID)
    (pre post : list (node * Callback T)) (t : list (Obs T)) (w : World T) : Prop :=
  removers_state this D (pre ++ post) w ∧
  (∃ e, chans w !! this = Some e ∧ _enabled e = true) ∧
  readable a w ∧
  history w = h0 ++ t ∧
  pre ++ post `sublist_of` l0 ∧
  NoDup (nodes l0) ∧
  dom c0 = D ∧
  invoked t ++ nodes post `sublist_of` nodes l0 ∧
  never_called_after_erased t ∧
  honoured (removes this l0 c0) t ∧
  (∀ n, n ∈ erased t → n ∉ nodes (pre ++ post)) ∧
  (∀ n, n ∈ nodes l0 → n ∈ nodes (pre ++ post) ∨ n ∈ erased t) ∧
  (∀ n, n ∈ nodes l0 → n ∈ invoked t ∨ n ∈ erased t ∨ n ∈ nodes post) ∧
  emptied this (erased t) c0 (cells w) ∧
  (∀ n c h, n ∈ invoked t → (n, c) ∈ l0 → SRemove this h ∈ cb_body c →
            cells w !! h = Some (End this)) ∧
  (∀ m, m ∈ erased t → ∃ n, n ∈ invoked t ∧ removes this l0 c0 n m).

(** ** Registries *)

(** A node that was in the list [S] or was created at or after the
    identity [f0]. *)
Definition live_or_new (S : list node) (f0 : nat) (m : node) : Prop :=
  m ∈ S ∨ f0 ≤ m.

(** The nodes of channel [ch], if it is alive, are all in [S] or new. *)
Definition nodes_within {T : Type} (ch : chan) (S : list node) (f0 : nat)
    (w : World T) : Prop :=
  ∀ e, chans w !! ch = Some e → Forall (live_or_new S f0) (nodes (_callbacks e)).

(** [N] subscriptions taken through a registry, in program order. *)
Fixpoint register {T : Type} (ops : list (chan * Callback T * bool))
    (h : ScopedCallbacksHolder.t) : M T ScopedCallbacksHolder.t :=
  match ops with
  | [] => ret h
  | (e, c, first) :: ops' =>
      r <- ScopedCallbacksHolder.addCallback h e c first;;
      register ops' r.2
  end.

(** Identities in use are below the next unused one, and no list holds a
    node twice. *)
Definition bounded {T : Type} (w : World T) : Prop :=
  map_Forall (λ _ e, NoDup (nodes (_callbacks e)) ∧
                     Forall (λ n, n < fresh w) (nodes (_callbacks e))) (chans w) ∧
  map_Forall (λ p _, p < fresh w) (cells w).

(** The state of a registry holding the owners [os], all created since
    the store was [w0]: a channel's list still has its old part, its new
    nodes are exactly the ones the owners of that channel hold, and the
    owners are distinct objects holding distinct nodes. *)
Definition registry_inv {T : Type} (w0 : World T) (os : list ScopedCallbackID.t)
    (w : World T) : Prop :=
  bounded w ∧ fresh w0 ≤ fresh w ∧
  (∀ ch, match chans w0 !! ch, chans w !! ch with
         | Some e0, Some e =>
             filter (λ nc, nc.1 < fresh w0) (_callbacks e) = _callbacks e0 ∧
             _enabled e = _enabled e0
         | None, None => True
         | _, _ => False
         end) ∧
  Forall (λ o, ∃ n e,
            cells w !! ScopedCallbackID._cb o = Some (At n) ∧ fresh w0 ≤ n ∧
            chans w !! ScopedCallbackID._event o = Some e ∧
            n ∈ nodes (_callbacks e)) os ∧
  (∀ ch e n, chans w !! ch = Some e → n ∈ nodes (_callbacks e) → fresh w0 ≤ n →
             ∃ o, o ∈ os ∧ ScopedCallbackID._event o = ch ∧
                  cells w !! ScopedCallbackID._cb o = Some (At n)) ∧
  NoDup (ScopedCallbackID._cb <$> os) ∧
  (∀ o1 o2 n, o1 ∈ os → o2 ∈ os →
              cells w !! ScopedCallbackID._cb o1 = Some (At n) →
              cells w !! ScopedCallbackID._cb o2 = Some (At n) → o1 = o2).

(** ** Cursors in use *)

(** The cursor of a channel is the past-the-end iterator of its own list
    or stands on one of its nodes. *)
Definition cursor_in_list {T : Type} (this : chan) (e : Event T) : Prop :=
  _nextCallback e ∈ End this :: (At <$> nodes (_callbacks e)).

(** ** Callbacks that toggle their channel or update their argument *)

(** A statement that is [this.setEnabled(b)] or an update of the
    callback's parameter. *)
Definition is_toggle_of {T : Type} (this : chan) (s : Stmt T) : bool :=
  match s with
  | SSetEnabled e _ => bool_decide (e = this)
  | SModify _ => true
  | _ => false
  end.
Definition toggler {T : Type} (this : chan) (c : Callback T) : Prop :=
  Forall (λ s, is_toggle_of this s) (cb_body c).

(** The bodies of the callbacks of a list, in list order. *)
Fixpoint bodies {T : Type} (l : list (node * Callback T)) : list (Stmt T) :=
  match l with
  | [] => []
  | (_, c) :: l' => cb_body c ++ bodies l'
  end.

(** The flag of a channel after [setEnabled] statements on it, started
    at [b]: the last one wins. *)
Fixpoint enabled_after {T : Type} (ss : list (Stmt T)) (b : bool) : bool :=
  match ss with
  | [] => b
  | SSetEnabled _ b' :: ss' => enabled_after ss' b'
  | _ :: ss' => enabled_after ss' b
  end.

(** The value of a parameter bound by reference after the updates among
    [ss], started at [u]. *)
Fixpoint modified {T : Type} (ss : list (Stmt T)) (u : T) : T :=
  match ss with
  | [] => u
  | SModify f :: ss' => modified ss' (f u)
  | _ :: ss' => modified ss' u
  end.

(** The calls of a dispatch over [l] whose argument has the value [u]
    when it starts: passed by reference, each callback receives the
    value as the callbacks before it left it; passed by value, each
    receives [u]. *)
Fixpoint deliveries {T : Type} (by_ref : bool) (u : T) (l : list (node * Callback T))
  : list (Obs T) :=
  match l with
  | [] => []
  | (n, c) :: l' =>
      Invoked n (cb_name c) u
      :: deliveries by_ref (if by_ref then modified (cb_body c) u else u) l'
  end.

Definition is_ref {T : Type} (a : Arg T) : bool :=
  match a with Ref _ => true | Val _ => false end.

(** The [T] lvalues after a callback left the value [u] in its
    parameter. *)
Definition written {T : Type} (a : Arg T) (u : T) (vs : gmap loc T) : gmap loc T :=
  match a with
  | Val _ => vs
  | Ref x => <[x := u]> vs
  end.

(** ** Observable values *)

(** Every address and identity in use is below the next unused one. *)
Definition addresses_bounded {T : Type} (w : World T) : Prop :=
  bounded w ∧
  map_Forall (λ ch _, ch < fresh w) (chans w) ∧
  map_Forall (λ x _, x < fresh w) (vals w).

(** Listeners added to an observable value, in program order. *)
Fixpoint add_listeners {T : Type} (cs : list (Callback T * bool)) (val : Value.t)
  : M T Value.t :=
  match cs with
  | [] => ret val
  | (c, first) :: cs' =>
      r <- Value.addListener val c first;;
      add_listeners cs' r.2
  end.

(** The subscriptions [add_listeners] takes through the registry. *)
Definition listener_ops {T : Type} (ch : chan) (cs : list (Callback T * bool))
  : list (chan * Callback T * bool) :=
  (λ cf, (ch, cf.1, cf.2)) <$> cs.

(** ** Callbacks that act on their own channel *)

(** A statement that acts on channel [this] only, through handle
    variables among [D]; the callbacks it subscribes are written out in
    it and are, hereditarily, of the same kind.  A statement that
    subscribes a copy of the running callback, or throws, is not of this
    kind. *)
Fixpoint local_stmt {T : Type} (this : chan) (D : gset loc) (s : Stmt T) : bool :=
  match s with
  | SRemove e h => bool_decide (e = this ∧ h ∈ D)
  | SAdd e h (Cb _ body) _ =>
      bool_decide (e = this ∧ h ∈ D) && forallb (local_stmt this D) body
  | SSetEnabled e _ => bool_decide (e = this)
  | SModify _ => true
  | SAddSelf _ _ _ => false
  | SThrow => false
  end.
Definition local {T : Type} (this : chan) (D : gset loc) (c : Callback T) : Prop :=
  forallb (local_stmt this D) (cb_body c).

(** How many callbacks a statement can bring into a list: the one it
    subscribes and, hereditarily, those that one subscribes. *)
Fixpoint stmt_weight {T : Type} (s : Stmt T) : nat :=
  match s with
  | SAdd _ _ (Cb _ body) _ => S (sum_list (map stmt_weight body))
  | _ => 0
  end.
Definition body_weight {T : Type} (ss : list (Stmt T)) : nat :=
  sum_list (map stmt_weight ss).
Definition weight {T : Type} (c : Callback T) : nat := S (body_weight (cb_body c)).
Definition total_weight {T : Type} (l : list (node * Callback T)) : nat :=
  sum_list (weight <$> l.*2).

(** Channel [this] with the list [l] in a store whose handle variables
    [D] hold the empty sentinel or distinct nodes of [l], and whose
    callbacks act on [this] only. *)
Definition channel_ok {T : Type} (this : chan) (D : gset loc)
    (l : list (node * Callback T)) (w : World T) : Prop :=
  (∃ e, chans w !! this = Some e ∧ _callbacks e = l) ∧
  NoDup (nodes l) ∧
  Forall (λ n, n < fresh w) (nodes l) ∧
  dom (cells w) = D ∧
  handles_valid this l (cells w) ∧
  no_alias (cells w) ∧
  Forall (local this D) l.*2.

(** A dispatch of channel [this] in progress: [pre] is out of its
    reach, [post] is still to be visited, [t] is the history since it
    started (the history before was [h0]) and [S] are the nodes the list
    had when it started. *)
Definition dispatching {T : Type} (this : chan) (D : gset loc) (a : Arg T)
    (h0 : list (Obs T)) (S : list node) (pre post : list (node * Callback T))
    (t : list (Obs T)) (w : World T) : Prop :=
  channel_ok this D (pre ++ post) w ∧
  readable a w ∧
  history w = h0 ++ t ∧
  never_called_after_erased t ∧
  NoDup (invoked t) ∧
  (∀ n, Erased n ∈ t → (n ∉ nodes (pre ++ post)) ∧ n < fresh w) ∧
  (∀ n, n ∈ invoked t → (n ∉ nodes post) ∧ n < fresh w) ∧
  (∀ n, n ∈ S → n ∈ invoked t ∨ Erased n ∈ t ∨ n ∈ nodes post).

(** ** Callbacks that subscribe themselves *)

(** A callback that, when called, appends two copies of itself to
    channel [this], leaving the handle of the last in the variable [h]. *)
Definition doubles {T : Type} (this : chan) (h : loc) (c : Callback T) : Prop :=
  cb_body c = [SAddSelf this h false; SAddSelf this h false].

(** * Scenarios

    Concrete stores and programs over channels of [int] arguments, used
    to run the model. *)

Definition empty_world : World Z := mkWorld ∅ ∅ ∅ 0 [].

Definition cbA : Callback Z := Cb 1 [].
Definition cbB : Callback Z := Cb 2 [].

(** A store with one freshly constructed channel of [int] arguments. *)
Definition fresh_channel : World Z :=
  mkWorld {[ 0 := mkEvent [] true (End 0) ]} ∅ ∅ 1 [].

(** A store with one enabled channel holding one subscriber. *)
Definition one_subscriber : World Z :=
  mkWorld {[ 0 := mkEvent [(1, cbA)] true (End 0) ]} ∅ ∅ 2 [].

(** The same store with the channel disabled. *)
Definition one_subscriber_disabled : World Z :=
  mkWorld {[ 0 := mkEvent [(1, cbA)] false (End 0) ]} ∅ ∅ 2 [].

(** A handle is copied, the subscription is removed through the original,
    and the stale copy is handed to [replace]. *)
Definition stale_replace : M Z bool :=
  ch <- Event_ctor;;
  id <- add ch cbA false;;
  h <- alloc_cell id;;
  remove ch h;;
  replace ch id cbB.

(** Three subscribers of channel 0, the first of which throws; the
    handle of the second is in the variable 4. *)
Definition throwing_subscriber : World Z :=
  mkWorld {[ 0 := mkEvent [(1, Cb 1 [SThrow]); (2, cbB); (3, cbA)] true (End 0) ]}
          {[ 4 := At 2 ]} ∅ 5 [].

(** Three subscribers of channel 0 with their handles in the variables 1,
    2 and 3: the first removes itself and the second, the third removes
    the first and itself. *)
Definition self_removing : World Z :=
  mkWorld
    {[ 0 := mkEvent [(4, Cb 1 [SRemove 0 1; SRemove 0 2]);
                     (5, Cb 2 []);
                     (6, Cb 3 [SRemove 0 1; SRemove 0 3])] true (End 0) ]}
    {[ 1 := At 4; 2 := At 5; 3 := At 6 ]} ∅ 7 [].

(** On a channel of [int&] arguments with a subscriber that increments
    its argument, a notifier is made from the variable [z = 5] and
    triggered twice. *)
Definition trigger_twice_by_reference : M Z unit :=
  ch <- Event_ctor;;
  _ <- add ch (Cb 1 [SModify Z.succ]) false;;
  z <- alloc_val 5%Z;;
  n <- makeNotifier ch (Ref z);;
  Notifier.trigger true 2 n;;
  Notifier.trigger true 2 n.

(** An observable [int] whose listener increments its argument, on a
    channel of [int&] arguments ([Value<int, int&>]): the value is set to
    5 and read back. *)
Definition set_then_get_by_reference : M Z Z :=
  val <- Value.ctor 0%Z;;
  r <- Value.addListener val (Cb 1 [SModify Z.succ]) false;;
  Value.set true 2 r.2 5%Z;;
  Value.get r.2.

(** A store with an observable [int] (value at address 2, channel 0)
    that has one subscriber. *)
Definition observable_store : World Z :=
  mkWorld {[ 0 := mkEvent [(1, cbA)] true (End 0) ]} ∅ {[ 2 := 0%Z ]} 3 [].
Definition observable : Value.t :=
  Value.mk ScopedCallbacksHolder.ctor 2 0.

(** Two channels, the first with one subscriber, before a registry is
    used on them. *)
Definition two_channels : World Z :=
  mkWorld {[ 0 := mkEvent [(2, cbA)] true (End 0); 1 := mkEvent [] true (End 1) ]}
          ∅ ∅ 3 [].

(** An owner subscribed to channel [a], next to another subscriber of
    [a], is told to [replace] its subscription by one to the empty
    channel [b]. *)
Definition replace_to_other_channel : M Z (ScopedCallbackID.t * chan * chan) :=
  a <- Event_ctor;;
  b <- Event_ctor;;
  owner <- ScopedCallbackID.ctor a (Cb 1 []) false;;
  other <- ScopedCallbackID.ctor a (Cb 2 []) false;;
  ScopedCallbackID.replace owner b (Cb 3 []) false;;
  ret (owner, a, b).

(** A store in which the owner at address 5 holds the first of two
    subscriptions of channel 0, and channel 1 has one subscriber. *)
Definition owner_store : World Z :=
  mkWorld {[ 0 := mkEvent [(2, Cb 1 []); (3, Cb 2 [])] true (End 0);
             1 := mkEvent [(4, Cb 4 [])] true (End 1) ]}
          {[ 5 := At 2 ]} ∅ 6 [].

(** A channel whose first subscriber disables it. *)
Definition switching_off : World Z :=
  mkWorld {[ 0 := mkEvent [(1, Cb 1 [SSetEnabled 0 false]); (2, cbB)] true (End 0) ]}
          ∅ ∅ 3 [].

(** A channel whose first subscriber appends another one, keeping the
    handle in the variable 3. *)
Definition appending : World Z :=
  mkWorld {[ 0 := mkEvent [(1, Cb 1 [SAdd 0 3 cbB false]); (2, cbA)] true (End 0) ]}
          {[ 3 := End 0 ]} ∅ 4 [].

(** A channel of [int&] arguments with two subscribers that increment
    their argument, and the variable [z = 5] at address 3. *)
Definition incrementing : World Z :=
  mkWorld {[ 0 := mkEvent [(1, Cb 1 [SModify Z.succ]); (2, Cb 2 [SModify Z.succ])]
                    true (End 0) ]}
          ∅ {[ 3 := 5%Z ]} 4 [].

(** A disabled channel with one subscriber held by the owner at
    address 2. *)
Definition disabled_owner : World Z :=
  mkWorld {[ 0 := mkEvent [(1, cbA)] false (End 0) ]} {[ 2 := At 1 ]} ∅ 3 [].

(** A channel with one incrementing subscriber and a stored [int] at
    address 2: the tuple of a notifier, or the value of an observable. *)
Definition stored_five : World Z :=
  mkWorld {[ 0 := mkEvent [(1, Cb 1 [SModify Z.succ])] true (End 0) ]}
          ∅ {[ 2 := 5%Z ]} 3 [].

(** A channel whose first subscriber removes the second, appends a
    callback that enables the channel, and disables the channel; the
    second increments its argument and the third removes itself.  The
    handles are in the variables 1, 2 and 3, the caller's [int] is at
    address 7. *)
Definition busy_subscribers : World Z :=
  mkWorld
    {[ 0 := mkEvent [(4, Cb 1 [SRemove 0 2;
                               SAdd 0 2 (Cb 9 [SSetEnabled 0 true]) false;
                               SSetEnabled 0 false]);
                     (5, Cb 2 [SModify Z.succ]);
                     (6, Cb 3 [SRemove 0 3; SModify Z.succ])] true (End 0) ]}
    {[ 1 := At 4; 2 := At 5; 3 := At 6 ]} {[ 7 := 0%Z ]} 8 [].

(** A channel of two subscribers, the first of which appends two copies
    of itself; the handle variable is at address 3. *)
Definition self_subscribing : World Z :=
  mkWorld {[ 0 := mkEvent [(1, Cb 1 [SAddSelf 0 3 false; SAddSelf 0 3 false]);
                           (2, cbA)] true (End 0) ]}
          {[ 3 := End 0 ]} ∅ 4 [].

(** * Properties *)

Section Basics.
Context {T : Type}.
Implicit Types (w : World T) (e : Event T) (this : chan).

Lemma bind_run {A B} (m : M T A) (k : A → M T B) w a w1 :
  m w = Ok a w1 → bind m k w = k a w1.
Proof. unfold bind. by intros ->. Qed.

Lemma bind_ok {A B} (m : M T A) (k : A → M T B) w b w' :
  bind m k w = Ok b w' → ∃ a w1, m w = Ok a w1 ∧ k a w1 = Ok b w'.
Proof. unfold bind. destruct (m w) as [a w1|w1| | |]; [eauto|done..]. Qed.

Lemma noexcept_run {A} (m : M T A) w a w1 :
  m w = Ok a w1 → noexcept m w = Ok a w1.
Proof. unfold noexcept. by intros ->. Qed.

Lemma this_event_run w this e :
  chans w !! this = Some e → this_event this w = Ok e w.
Proof. unfold this_event. by intros ->. Qed.

Lemma this_event_ok w this e w' :
  this_event this w = Ok e w' → chans w !! this = Some e ∧ w' = w.
Proof.
  unfold this_event. destruct (chans w !! this); simpl; [|done].
  unfold ret. by intros [= -> ->].
Qed.

Lemma with_chans_insert_id w this e :
  chans w !! this = Some e → with_chans (insert this e) w = w.
Proof.
  intros H. destruct w as [cs ce vs fr hs]. unfold with_chans. simpl in *.
  by rewrite insert_id.
Qed.

Lemma with_chans_insert_twice w this e1 e2 :
  with_chans (insert this e2) (with_chans (insert this e1) w)
  = with_chans (insert this e2) w.
Proof. unfold with_chans. simpl. by rewrite insert_insert_eq. Qed.

Lemma chans_with_chans_insert w this e :
  chans (with_chans (insert this e) w) !! this = Some e.
Proof. simpl. apply lookup_insert_eq. Qed.

Lemma event_eta e : mkEvent (_callbacks e) (_enabled e) (_nextCallback e) = e.
Proof. by destruct e. Qed.

Lemma setEnabled_run w this e b :
  chans w !! this = Some e →
  setEnabled this b w
  = Ok tt (with_chans (insert this (mkEvent (_callbacks e) b (_nextCallback e))) w).
Proof. intros H. unfold setEnabled. by rewrite (bind_run _ _ _ _ _ (this_event_run _ _ _ H)). Qed.

Lemma isEnabled_run w this e :
  chans w !! this = Some e → isEnabled this w = Ok (_enabled e) w.
Proof. intros H. unfold isEnabled. by rewrite (bind_run _ _ _ _ _ (this_event_run _ _ _ H)). Qed.

Lemma notify_disabled w this e fuel a :
  chans w !! this = Some e → _enabled e = false → notify fuel this a w = Ok tt w.
Proof.
  intros H Hd. unfold notify.
  rewrite (bind_run _ _ _ _ _ (this_event_run _ _ _ H)). by rewrite Hd.
Qed.

End Basics.

Section Guard.
Context {T : Type}.
Implicit Types (w : World T) (e : Event T) (this : chan).

Lemma ScopedDisable_ctor_run w this e :
  chans w !! this = Some e →
  ScopedDisable.ctor this w
  = Ok (ScopedDisable.mk this (_enabled e))
       (with_chans (insert this (mkEvent (_callbacks e) false (_nextCallback e))) w).
Proof.
  intros H. unfold ScopedDisable.ctor.
  rewrite (bind_run _ _ _ _ _ (isEnabled_run _ _ _ H)).
  by rewrite (bind_run _ _ _ _ _ (setEnabled_run _ _ _ false H)).
Qed.

(** C6: a [ScopedDisable] records the flag and clears it, its destructor
    writes the recorded flag back and thereby restores the whole store;
    two nested guards, unwound inner first, leave [isEnabled()] (and the
    store) as they were before the outer one was constructed. *)
Theorem C6_scoped_disable_restores w this e :
  chans w !! this = Some e →
  (∃ w1,
      ScopedDisable.ctor this w = Ok (ScopedDisable.mk this (_enabled e)) w1 ∧
      isEnabled this w1 = Ok false w1 ∧
      ScopedDisable.dtor (ScopedDisable.mk this (_enabled e)) w1 = Ok tt w) ∧
  (outer <- ScopedDisable.ctor this;;
   inner <- ScopedDisable.ctor this;;
   ScopedDisable.dtor inner;;
   ScopedDisable.dtor outer;;
   isEnabled this) w = Ok (_enabled e) w.
Proof.
  intros H.
  set (e1 := mkEvent (_callbacks e) false (_nextCallback e)).
  set (w1 := with_chans (insert this e1) w).
  assert (H1 : chans w1 !! this = Some e1) by apply chans_with_chans_insert.
  assert (Hback : ScopedDisable.dtor (ScopedDisable.mk this (_enabled e)) w1 = Ok tt w).
  { unfold ScopedDisable.dtor. simpl.
    rewrite (setEnabled_run _ _ _ _ H1). unfold w1, e1. simpl.
    rewrite with_chans_insert_twice, event_eta.
    by rewrite (with_chans_insert_id _ _ _ H). }
  split.
  - exists w1. split; [by apply ScopedDisable_ctor_run|].
    split; [by rewrite (isEnabled_run _ _ _ H1)|done].
  - rewrite (bind_run _ _ _ _ _ (ScopedDisable_ctor_run _ _ _ H)). fold e1 w1.
    rewrite (bind_run _ _ _ _ _ (ScopedDisable_ctor_run _ _ _ H1)).
    assert (Hin : ScopedDisable.dtor (ScopedDisable.mk this (_enabled e1))
                    (with_chans (insert this (mkEvent (_callbacks e1) false (_nextCallback e1))) w1)
                  = Ok tt w1).
    { unfold ScopedDisable.dtor.
      cbn [ScopedDisable._e ScopedDisable._prev e1 _callbacks _enabled _nextCallback].
      erewrite setEnabled_run by apply chans_with_chans_insert.
      rewrite with_chans_insert_twice.
      cbn [_callbacks _enabled _nextCallback]. fold e1.
      by rewrite (with_chans_insert_id _ _ _ H1). }
    rewrite (bind_run _ _ _ _ _ Hin).
    rewrite (bind_run _ _ _ _ _ Hback).
    by apply isEnabled_run.
Qed.

(** C5: on a disabled channel [notify] calls nothing and leaves the whole
    store as it is; disabling, notifying and enabling again is invisible
    to the next [notify]. *)
Theorem C5_disabled_notify_is_noop w this e :
  chans w !! this = Some e →
  (_enabled e = false → ∀ fuel a, notify fuel this a w = Ok tt w) ∧
  (_enabled e = true → ∀ fuel fuel' a a',
      (setEnabled this false;;
       notify fuel' this a';;
       setEnabled this true;;
       notify fuel this a) w
      = notify fuel this a w).
Proof.
  intros H. split.
  - intros Hd fuel a. by eapply notify_disabled.
  - intros He fuel fuel' a a'.
    rewrite (bind_run _ _ _ _ _ (setEnabled_run _ _ _ false H)).
    set (e1 := mkEvent (_callbacks e) false (_nextCallback e)).
    set (w1 := with_chans (insert this e1) w).
    assert (H1 : chans w1 !! this = Some e1) by apply chans_with_chans_insert.
    rewrite (bind_run _ _ _ _ _ (notify_disabled _ _ _ fuel' a' H1 eq_refl)).
    rewrite (bind_run _ _ _ _ _ (setEnabled_run _ _ _ true H1)).
    unfold w1, e1. simpl. rewrite with_chans_insert_twice, <- He, event_eta.
    by rewrite (with_chans_insert_id _ _ _ H).
Qed.

End Guard.

(** ** Inversion of successful runs *)

Section Inversion.
Context {T : Type}.
Implicit Types (w : World T) (e : Event T) (this : chan).

Lemma ret_ok {A} (a b : A) w w' : ret a w = Ok b w' → b = a ∧ w' = w.
Proof. unfold ret. by intros [= -> ->]. Qed.

Lemma lift_ok {A} (o : option A) a w w' : lift o w = Ok a w' → o = Some a ∧ w' = w.
Proof. destruct o; simpl; [|done]. unfold ret. by intros [= -> ->]. Qed.

Lemma set_event_ok this e w r w' :
  set_event this e w = Ok r w' → w' = with_chans (insert this e) w.
Proof. unfold set_event. by intros [= _ <-]. Qed.

Lemma load_ok h w cv w' : load h w = Ok cv w' → cells w !! h = Some cv ∧ w' = w.
Proof. unfold load. apply lift_ok. Qed.

Lemma store_ok h c w r w' :
  store h c w = Ok r w' → is_Some (cells w !! h) ∧ w' = with_cells (insert h c) w.
Proof. unfold store. destruct (cells w !! h); [|done]. intros [= _ <-]. eauto. Qed.

Lemma load_val_ok x w v w' : load_val x w = Ok v w' → vals w !! x = Some v ∧ w' = w.
Proof. unfold load_val. apply lift_ok. Qed.

Lemma store_val_ok x v w r w' :
  store_val x v w = Ok r w' → is_Some (vals w !! x) ∧ w' = with_vals (insert x v) w.
Proof. unfold store_val. destruct (vals w !! x); [|done]. intros [= _ <-]. eauto. Qed.

Lemma observe_ok o w r w' :
  observe o w = Ok r w' → w' = with_history (λ h, h ++ [o]) w.
Proof. unfold observe. by intros [= _ <-]. Qed.

Lemma new_id_ok w n w' :
  new_id w = Ok n w' → n = fresh w ∧ w' = with_fresh (S (fresh w)) w.
Proof. unfold new_id. by intros [= <- <-]. Qed.

Lemma undefined_ok {A} w (a : A) w' : undefined w = Ok a w' → False.
Proof. done. Qed.

Lemma set_callbacks_ok this l w r w' :
  set_callbacks this l w = Ok r w' →
  ∃ e, chans w !! this = Some e ∧
       w' = with_chans (insert this (mkEvent l (_enabled e) (_nextCallback e))) w.
Proof.
  unfold set_callbacks. intros H.
  apply bind_ok in H as (e & w1 & [He ->]%this_event_ok & H).
  apply set_event_ok in H. eauto.
Qed.

Lemma set_nextCallback_ok this c w r w' :
  set_nextCallback this c w = Ok r w' →
  ∃ e, chans w !! this = Some e ∧
       w' = with_chans (insert this (mkEvent (_callbacks e) (_enabled e) c)) w.
Proof.
  unfold set_nextCallback. intros H.
  apply bind_ok in H as (e & w1 & [He ->]%this_event_ok & H).
  apply set_event_ok in H. eauto.
Qed.

Lemma setEnabled_ok this b w r w' :
  setEnabled this b w = Ok r w' →
  ∃ e, chans w !! this = Some e ∧
       w' = with_chans (insert this (mkEvent (_callbacks e) b (_nextCallback e))) w.
Proof.
  unfold setEnabled. intros H.
  apply bind_ok in H as (e & w1 & [He ->]%this_event_ok & H).
  apply set_event_ok in H. eauto.
Qed.

End Inversion.

(** Decompose a hypothesis stating that a computation succeeded. *)
Ltac inv_ok :=
  repeat match goal with
    | H : bind _ _ _ = Ok _ _ |- _ =>
        let a := fresh "a" in let w := fresh "w" in let H1 := fresh "H" in
        apply bind_ok in H as (a & w & H1 & H); cbv beta in H
    | H : ret _ _ = Ok _ _ |- _ => apply ret_ok in H as [? ?]; subst
    | H : lift _ _ = Ok _ _ |- _ => apply lift_ok in H as [? ?]; subst
    | H : undefined _ = Ok _ _ |- _ => destruct (undefined_ok _ _ _ H)
    | H : this_event _ _ = Ok _ _ |- _ => apply this_event_ok in H as [? ?]; subst
    | H : set_event _ _ _ = Ok _ _ |- _ => apply set_event_ok in H; subst
    | H : load _ _ = Ok _ _ |- _ => apply load_ok in H as [? ?]; subst
    | H : store _ _ _ = Ok _ _ |- _ => apply store_ok in H as [? ?]; subst
    | H : load_val _ _ = Ok _ _ |- _ => apply load_val_ok in H as [? ?]; subst
    | H : store_val _ _ _ = Ok _ _ |- _ => apply store_val_ok in H as [? ?]; subst
    | H : observe _ _ = Ok _ _ |- _ => apply observe_ok in H; subst
    | H : new_id _ = Ok _ _ |- _ => apply new_id_ok in H as [? ?]; subst
    | H : set_callbacks _ _ _ = Ok _ _ |- _ =>
        let e := fresh "e" in apply set_callbacks_ok in H as (e & ? & ?); subst
    | H : set_nextCallback _ _ _ = Ok _ _ |- _ =>
        let e := fresh "e" in apply set_nextCallback_ok in H as (e & ? & ?); subst
    | H : setEnabled _ _ _ = Ok _ _ |- _ =>
        let e := fresh "e" in apply setEnabled_ok in H as (e & ? & ?); subst
    end.

(** ** The list and its iterators *)

Section Lists.
Context {T : Type}.
Implicit Types (l pre post : list (node * Callback T)) (n : node) (c : Callback T).

Lemma nodes_app pre post : nodes (pre ++ post) = nodes pre ++ nodes post.
Proof. unfold nodes. apply fmap_app. Qed.

Lemma nodes_cons n c l : nodes ((n, c) :: l) = n :: nodes l.
Proof. done. Qed.

Lemma list_next_at this pre n c post :
  n ∉ nodes pre →
  list_next this (pre ++ (n, c) :: post) n = Some (list_begin this post).
Proof.
  induction pre as [|[m c'] pre IH]; intros Hn; simpl.
  - by rewrite decide_True.
  - rewrite nodes_cons, not_elem_of_cons in Hn. destruct Hn as [Hne Hn].
    rewrite decide_False by done. by apply IH.
Qed.

Lemma list_deref_at pre n c post :
  n ∉ nodes pre → list_deref (pre ++ (n, c) :: post) n = Some c.
Proof.
  induction pre as [|[m c'] pre IH]; intros Hn; simpl.
  - by rewrite decide_True.
  - rewrite nodes_cons, not_elem_of_cons in Hn. destruct Hn as [Hne Hn].
    rewrite decide_False by done. by apply IH.
Qed.

Lemma list_erase_at pre n c post :
  n ∉ nodes pre → list_erase (pre ++ (n, c) :: post) n = Some (pre ++ post).
Proof.
  induction pre as [|[m c'] pre IH]; intros Hn; simpl.
  - by rewrite decide_True.
  - rewrite nodes_cons, not_elem_of_cons in Hn. destruct Hn as [Hne Hn].
    rewrite decide_False by done. by rewrite IH.
Qed.

Lemma list_assign_at pre n c0 c post :
  n ∉ nodes pre →
  list_assign (pre ++ (n, c0) :: post) n c = Some (pre ++ (n, c) :: post).
Proof.
  induction pre as [|[m c'] pre IH]; intros Hn; simpl.
  - by rewrite decide_True.
  - rewrite nodes_cons, not_elem_of_cons in Hn. destruct Hn as [Hne Hn].
    rewrite decide_False by done. by rewrite IH.
Qed.

(** A node of the list splits it at its first occurrence. *)
Lemma nodes_split l n :
  n ∈ nodes l → ∃ pre c post, l = pre ++ (n, c) :: post ∧ n ∉ nodes pre.
Proof.
  induction l as [|[m c] l IH]; intros Hn.
  - by apply elem_of_nil in Hn.
  - destruct (decide (m = n)) as [->|Hne].
    + exists [], c, l. split; [done|]. apply not_elem_of_nil.
    + rewrite nodes_cons, elem_of_cons in Hn. destruct Hn as [->|Hn]; [done|].
      destruct (IH Hn) as (pre & c' & post & -> & Hpre).
      exists ((m, c) :: pre), c', post. split; [done|].
      rewrite nodes_cons, not_elem_of_cons. auto.
Qed.

Lemma list_assign_some l n c l' :
  list_assign l n c = Some l' → nodes l' = nodes l.
Proof.
  revert l'. induction l as [|[m c'] l IH]; intros l'; simpl; [done|].
  destruct (decide (m = n)) as [->|Hne].
  - by intros [= <-].
  - destruct (list_assign l n c) as [l0|]; simpl; [|done].
    intros [= <-]. rewrite !nodes_cons. by rewrite (IH l0).
Qed.

Lemma list_erase_some l n l' :
  list_erase l n = Some l' →
  ∃ pre c post, l = pre ++ (n, c) :: post ∧ (n ∉ nodes pre) ∧ l' = pre ++ post.
Proof.
  revert l'. induction l as [|[m c'] l IH]; intros l'; simpl; [done|].
  destruct (decide (m = n)) as [->|Hne].
  - intros [= <-]. exists [], c', l. split; [done|]. split; [apply not_elem_of_nil|done].
  - destruct (list_erase l n) as [l0|]; simpl; [|done].
    intros [= <-]. destruct (IH l0 eq_refl) as (pre & c & post & -> & Hpre & ->).
    exists ((m, c') :: pre), c, post. split; [done|]. split; [|done].
    rewrite nodes_cons, not_elem_of_cons. auto.
Qed.

Lemma list_prev_end_snoc l n c : list_prev_end (l ++ [(n, c)]) = Some (At n).
Proof. unfold list_prev_end. by rewrite last_snoc. Qed.

End Lists.

Section Replace.
Context {T : Type}.
Implicit Types (w : World T) (e : Event T) (this : chan).

Lemma replace_ok this id c w r w' :
  replace this id c w = Ok r w' →
  r = true ∧
  ∃ e n l', chans w !! this = Some e ∧ id = At n ∧
            list_assign (_callbacks e) n c = Some l' ∧
            w' = with_chans (insert this (mkEvent l' (_enabled e) (_nextCallback e))) w.
Proof.
  unfold replace. intros H. inv_ok. destruct id as [l|n]; [by inv_ok|].
  inv_ok. simplify_eq. split; [done|]. eauto 10.
Qed.

Lemma replace_run this w e pre n c0 post c :
  chans w !! this = Some e →
  _callbacks e = pre ++ (n, c0) :: post →
  n ∉ nodes pre →
  replace this (At n) c w
  = Ok true (with_chans (insert this
       (mkEvent (pre ++ (n, c) :: post) (_enabled e) (_nextCallback e))) w).
Proof.
  intros He Hl Hn. unfold replace.
  rewrite (bind_run _ _ _ _ _ (this_event_run _ _ _ He)).
  rewrite Hl, (list_assign_at _ _ _ c _ Hn).
  unfold set_callbacks, bind, lift, ret, this_event, set_event. by rewrite He.
Qed.

Lemma list_assign_stale (l : list (node * Callback T)) n c :
  n ∉ nodes l → list_assign l n c = None.
Proof.
  induction l as [|[m c'] l IH]; [done|].
  rewrite nodes_cons, not_elem_of_cons. intros [Hne Hn]. simpl.
  rewrite decide_False by done. by rewrite IH.
Qed.

(** C2 (amended): with a handle of a registered callback, [replace]
    overwrites that callback where it stands, changes nothing else and
    returns [true].  With a stale handle, an iterator to a node that has
    been erased (no list holds it any more), no failure is reported: the
    assignment through the iterator is undefined. *)
Theorem C2_replace_in_place this (w : World T) e :
  chans w !! this = Some e →
  (∀ pre n c0 post c,
      _callbacks e = pre ++ (n, c0) :: post → n ∉ nodes pre →
      replace this (At n) c w
      = Ok true (with_chans (insert this
           (mkEvent (pre ++ (n, c) :: post) (_enabled e) (_nextCallback e))) w)) ∧
  (∀ n c,
      (∀ ch e', chans w !! ch = Some e' → n ∉ nodes (_callbacks e')) →
      replace this (At n) c w = Undefined).
Proof.
  intros He. split.
  - intros pre n c0 post c Hl Hn. by eapply replace_run.
  - intros n c Hstale. unfold replace.
    rewrite (bind_run _ _ _ _ _ (this_event_run _ _ _ He)).
    by rewrite (list_assign_stale _ _ _ (Hstale _ _ He)).
Qed.

End Replace.

(** C2 (as stated) fails: handed a stale handle, [replace] does not
    return [false]. *)
Lemma C2_counterexample_stale_handle :
  ¬ ∃ w', stale_replace empty_world = Ok false w'.
Proof. intros [w' H]. vm_compute in H. discriminate H. Qed.

Lemma C2_replace_in_place_witness :
  chans one_subscriber !! 0 = Some (mkEvent [(1, cbA)] true (End 0)) ∧
  replace 0 (At 1) cbB one_subscriber
  = Ok true (with_chans (insert 0 (mkEvent [(1, cbB)] true (End 0))) one_subscriber) ∧
  replace 0 (At 5) cbB one_subscriber = Undefined.
Proof.
  split; [reflexivity|].
  destruct (C2_replace_in_place 0 one_subscriber
              (mkEvent [(1, cbA)] true (End 0)) eq_refl) as [Hlive Hstale].
  split.
  - apply (Hlive [] 1 cbA [] cbB).
    + reflexivity.
    + apply not_elem_of_nil.
  - apply Hstale. intros ch e'. unfold one_subscriber. simpl.
    intros [<- <-]%lookup_singleton_Some. simpl.
    intros [=]%list_elem_of_singleton.
Defined.

Lemma C6_scoped_disable_restores_witness :
  chans one_subscriber !! 0 = Some (mkEvent [(1, cbA)] true (End 0)) ∧
  (outer <- ScopedDisable.ctor 0;;
   inner <- ScopedDisable.ctor 0;;
   ScopedDisable.dtor inner;;
   ScopedDisable.dtor outer;;
   isEnabled 0) one_subscriber = Ok true one_subscriber.
Proof.
  split; [reflexivity|].
  exact (proj2 (C6_scoped_disable_restores one_subscriber 0
                  (mkEvent [(1, cbA)] true (End 0)) eq_refl)).
Defined.

Lemma C5_disabled_notify_is_noop_witness :
  chans one_subscriber_disabled !! 0 = Some (mkEvent [(1, cbA)] false (End 0)) ∧
  notify 5 0 (Val 7%Z) one_subscriber_disabled = Ok tt one_subscriber_disabled ∧
  (setEnabled 0 false;;
   notify 3 0 (Val 4%Z);;
   setEnabled 0 true;;
   notify 5 0 (Val 7%Z)) one_subscriber
  = notify 5 0 (Val 7%Z) one_subscriber.
Proof.
  split; [reflexivity|]. split.
  - exact (proj1 (C5_disabled_notify_is_noop one_subscriber_disabled 0
                    (mkEvent [(1, cbA)] false (End 0)) eq_refl) eq_refl 5 (Val 7%Z)).
  - exact (proj2 (C5_disabled_notify_is_noop one_subscriber 0
                    (mkEvent [(1, cbA)] true (End 0)) eq_refl) eq_refl 5 3 (Val 7%Z) (Val 4%Z)).
Defined.

(** ** Operations only extend the history *)

Section Grows.
Context {T : Type}.
Implicit Types (w : World T) (e : Event T) (this : chan).

Lemma grows_refl w : grows w w.
Proof. split; [done|lia]. Qed.

Lemma grows_trans w1 w2 w3 : grows w1 w2 → grows w2 w3 → grows w1 w3.
Proof. intros [? ?] [? ?]. split; [by etrans|lia]. Qed.

Lemma grows_history w f :
  (∀ h, h `prefix_of` f h) → grows w (with_history f w).
Proof. intros Hf. split; simpl; [apply Hf|lia]. Qed.

Lemma observe_all_ok os w r w' :
  observe_all os w = Ok r w' → w' = with_history (λ h, h ++ os) w.
Proof.
  revert w. induction os as [|o os IH]; intros w H; simpl in H.
  - inv_ok. destruct w. unfold with_history. simpl. by rewrite app_nil_r.
  - inv_ok. apply IH in H. subst. destruct w. unfold with_history. simpl.
    by rewrite <- app_assoc.
Qed.

Lemma add_ok this c first w id w' :
  add this c first w = Ok id w' →
  ∃ e, chans w !! this = Some e ∧ id = At (fresh w) ∧
       w' = with_chans (insert this
              (mkEvent (if first then (fresh w, c) :: _callbacks e
                        else _callbacks e ++ [(fresh w, c)])
                       (_enabled e) (_nextCallback e)))
              (with_fresh (S (fresh w)) w).
Proof.
  unfold add, push_front, push_back. intros H. destruct first; inv_ok;
    simpl in *; rewrite lookup_insert_eq in *; simplify_eq; simpl in *.
  - eexists. split; [eassumption|]. done.
  - match goal with H : list_prev_end _ = _ |- _ =>
      rewrite list_prev_end_snoc in H end.
    simplify_eq. eexists. split; [eassumption|]. done.
Qed.

Lemma add_run this c first w e :
  chans w !! this = Some e →
  add this c first w
  = Ok (At (fresh w))
       (with_chans (insert this
              (mkEvent (if first then (fresh w, c) :: _callbacks e
                        else _callbacks e ++ [(fresh w, c)])
                       (_enabled e) (_nextCallback e)))
              (with_fresh (S (fresh w)) w)).
Proof.
  intros He.
  unfold add, push_front, push_back, set_callbacks, bind, this_event, lift,
    ret, new_id, set_event.
  destruct first; simpl; rewrite He; simpl; rewrite He; simpl;
    rewrite lookup_insert_eq; simpl; [done|].
  by rewrite list_prev_end_snoc.
Qed.

Lemma erase_ok this c w r w' :
  erase this c w = Ok r w' →
  ∃ e n l, chans w !! this = Some e ∧ c = At n ∧
           list_erase (_callbacks e) n = Some l ∧
           w' = with_history (λ h, h ++ [Erased n])
                  (with_chans (insert this
                     (mkEvent l (_enabled e) (_nextCallback e))) w).
Proof.
  unfold erase. intros H. inv_ok. destruct c as [l|n]; inv_ok.
  simplify_eq. eauto 10.
Qed.

Lemma remove_ok this h w r w' :
  remove this h w = Ok r w' →
  ∃ e cv, chans w !! this = Some e ∧ cells w !! h = Some cv ∧
    ((cv = End this ∧ w' = w) ∨
     (∃ n l nx, cv = At n ∧ list_erase (_callbacks e) n = Some l ∧
        (if decide (cv = _nextCallback e)
         then it_next this (_callbacks e) (_nextCallback e) = Some nx
         else nx = _nextCallback e) ∧
        chans w' = <[this := mkEvent l (_enabled e) nx]> (chans w) ∧
        cells w' = <[h := End this]> (cells w) ∧
        vals w' = vals w ∧ fresh w' = fresh w ∧
        history w' = history w ++ [Erased n])).
Proof.
  unfold remove. intros H. inv_ok. exists a, a0. split; [done|]. split; [done|].
  destruct (decide (a0 = End this)) as [->|Hne]; [inv_ok; by left|].
  right. inv_ok.
  apply erase_ok in H3 as (e & n & l & He & -> & Hl & ->).
  destruct (decide (At n = _nextCallback a)) as [Heq|Hneq]; inv_ok.
  - simpl in He. rewrite lookup_insert_eq in He. simplify_eq. simpl in *.
    eexists n, l, _. try rewrite decide_True by done.
    split; [done|]. split; [done|]. split; [eassumption|].
    rewrite insert_insert_eq. done.
  - simplify_eq. eexists n, l, _. repeat split; done.
Qed.

Lemma add_grows this c first w id w' : add this c first w = Ok id w' → grows w w'.
Proof.
  intros (e & _ & _ & ->)%add_ok. split; simpl; [done|lia].
Qed.

Lemma remove_grows this h w r w' : remove this h w = Ok r w' → grows w w'.
Proof.
  intros (e & cv & _ & _ & [[_ ->]|(n & l & nx & _ & _ & _ & _ & _ & _ & Hf & Hh)])%remove_ok.
  - apply grows_refl.
  - split; [rewrite Hh; by apply prefix_app_r|lia].
Qed.

Lemma run_stmt_grows self a s w r w' : run_stmt self a s w = Ok r w' → grows w w'.
Proof.
  destruct s as [e h|e h c first|e b|f|e h first|]; simpl; intros H.
  - by eapply remove_grows.
  - inv_ok. eapply grows_trans; [by eapply add_grows|]. by split.
  - inv_ok. by split.
  - destruct a; inv_ok; by split.
  - inv_ok. eapply grows_trans; [by eapply add_grows|]. by split.
  - done.
Qed.

Lemma run_body_grows self a ss w r w' : run_body self a ss w = Ok r w' → grows w w'.
Proof.
  revert w. induction ss as [|s ss IH]; intros w H; simpl in H; inv_ok.
  - apply grows_refl.
  - eapply grows_trans; [by eapply run_stmt_grows|by eapply IH].
Qed.

Lemma call_ok n c a w r w' :
  call n c a w = Ok r w' →
  ∃ v, arg_value a w = Ok v w ∧
       run_body c a (cb_body c)
         (with_history (λ h, h ++ [Invoked n (cb_name c) v]) w) = Ok r w'.
Proof.
  unfold call. intros H. inv_ok. exists a0.
  assert (w0 = w) as ->.
  { destruct a; simpl in H0; inv_ok; done. }
  done.
Qed.

Lemma call_grows n c a w r w' : call n c a w = Ok r w' → grows w w'.
Proof.
  intros (v & _ & H)%call_ok. apply run_body_grows in H.
  eapply grows_trans; [|exact H].
  apply grows_history. intros h. by apply prefix_app_r.
Qed.

Lemma notify_loop_grows fuel this a c w r w' :
  notify_loop fuel this a c w = Ok r w' → grows w w'.
Proof.
  revert c w. induction fuel as [|fuel IH]; intros c w H; simpl in H; [done|].
  destruct (decide (c = End this)); inv_ok; [apply grows_refl|].
  match goal with H : call _ _ _ _ = _ |- _ => apply call_grows in H; rename H into Hc end.
  apply IH in H.
  eapply grows_trans; [|exact H]. eapply grows_trans; [|exact Hc].
  by split.
Qed.

Lemma notify_grows fuel this a w r w' :
  notify fuel this a w = Ok r w' → grows w w'.
Proof.
  unfold notify. intros H. inv_ok. destruct (_enabled a0); inv_ok.
  - match goal with H : notify_loop _ _ _ _ _ = _ |- _ =>
      apply notify_loop_grows in H; rename H into Hl end.
    eapply grows_trans; [exact Hl|by split].
  - apply grows_refl.
Qed.

End Grows.

(** ** The cursor between calls *)

Section Idle.
Context {T : Type}.
Implicit Types (w : World T) (e : Event T) (this : chan).








Lemma arg_value_ok (a : Arg T) w v w' :
  arg_value a w = Ok v w' →
  w' = w ∧ ∀ w2 : World T, vals w2 = vals w → arg_value a w2 = Ok v w2.
Proof.
  destruct a as [v0|x]; simpl; intros H; inv_ok.
  - split; [done|]. by intros w2 _.
  - split; [done|]. intros w2 Hw. unfold load_val. rewrite Hw.
    match goal with H : _ !! _ = Some _ |- _ => by rewrite H end.
Qed.

Lemma notify_starts_at_begin fuel this a w e n c l r w' :
  chans w !! this = Some e → _enabled e = true → _callbacks e = (n, c) :: l →
  notify fuel this a w = Ok r w' →
  ∃ v t, arg_value a w = Ok v w ∧
         history w' = history w ++ Invoked n (cb_name c) v :: t.
Proof.
  intros He Hen Hl H. unfold notify in H. inv_ok. simplify_eq.
  rewrite Hen, Hl in *. inv_ok. simpl in *.
  destruct fuel as [|fuel]; [done|]. simpl in *.
  inv_ok. simplify_eq.
  rewrite Hl in *. simpl in *. rewrite decide_True in * by done.
  simpl in *. simplify_eq. simpl in *.
  match goal with H : call _ _ _ _ = _ |- _ =>
    apply call_ok in H as (v & Hv & Hb) end.
  assert (Hv' : arg_value a w = Ok v w).
  { apply arg_value_ok in Hv as [_ Hv]. by apply Hv. }
  apply run_body_grows in Hb as [[t1 Ht1] _].
  match goal with H : notify_loop _ _ _ _ _ = _ |- _ =>
    apply notify_loop_grows in H as [[t2 Ht2] _] end.
  exists v, (t1 ++ t2). split; [done|]. simpl in *.
  rewrite Ht2, Ht1. by rewrite <- !app_assoc.
Qed.


End Idle.


(** ** Dispatch order *)

Section Order.
Context {T : Type}.
Implicit Types (w : World T) (e : Event T) (this : chan).
Implicit Types (l pre post : list (node * Callback T)).

Lemma world_eq w1 w2 :
  chans w1 = chans w2 → cells w1 = cells w2 → vals w1 = vals w2 →
  fresh w1 = fresh w2 → history w1 = history w2 → w1 = w2.
Proof. destruct w1, w2. simpl. by intros -> -> -> -> ->. Qed.

Lemma set_nextCallback_run this c w e :
  chans w !! this = Some e →
  set_nextCallback this c w
  = Ok tt (with_chans (insert this (mkEvent (_callbacks e) (_enabled e) c)) w).
Proof.
  intros He. unfold set_nextCallback.
  by rewrite (bind_run _ _ _ _ _ (this_event_run _ _ _ He)).
Qed.

Lemma run_body_passive self (v : T) ss w :
  Forall (λ s, is_modify s) ss → run_body self (Val v) ss w = Ok tt w.
Proof.
  induction 1 as [|s ss Hs _ IH]; simpl; [done|].
  destruct s; done.
Qed.

Lemma call_passive n c (v : T) w :
  passive c →
  call n c (Val v) w = Ok tt (with_history (λ h, h ++ [Invoked n (cb_name c) v]) w).
Proof.
  intros Hc. unfold call. simpl. unfold bind, ret, observe.
  by apply run_body_passive.
Qed.

(** The loop over passive callbacks calls what is left of the list, in
    order, and changes nothing but the cursor. *)
Lemma notify_loop_passive post : ∀ pre fuel this (v : T) w e,
  chans w !! this = Some e →
  _callbacks e = pre ++ post →
  NoDup (nodes (pre ++ post)) →
  Forall passive post.*2 →
  length post < fuel →
  ∃ nx,
    notify_loop fuel this (Val v) (list_begin this post) w
    = Ok tt (with_history (λ h, h ++ calls v post)
               (with_chans (insert this (mkEvent (pre ++ post) (_enabled e) nx)) w)).
Proof.
  induction post as [|[n c] post IH]; intros pre fuel this v w e He Hl Hnd Hp Hf.
  - destruct fuel as [|fuel]; [simpl in Hf; lia|]. simpl.
    rewrite decide_True by done. exists (_nextCallback e). unfold ret. f_equal.
    apply world_eq; simpl; try done.
    + rewrite <- Hl, event_eta. by rewrite insert_id.
    + by rewrite app_nil_r.
  - destruct fuel as [|fuel]; [simpl in Hf; lia|].
    rewrite nodes_app, nodes_cons in Hnd.
    assert (Hn : n ∉ nodes pre).
    { apply NoDup_app in Hnd as (_ & Hd & _). intros Hin. apply (Hd n Hin). left. }
    cbn [notify_loop list_begin]. rewrite decide_False by done.
    rewrite (bind_run _ _ _ _ _ (this_event_run _ _ _ He)).
    rewrite Hl. cbn [it_next it_deref].
    rewrite (list_next_at _ _ _ _ _ Hn), (list_deref_at _ _ _ _ Hn).
    cbn [lift fmap option_fmap option_map]. unfold ret at 1. unfold bind at 1.
    rewrite (bind_run _ _ _ _ _ (set_nextCallback_run _ _ _ _ He)).
    unfold ret at 1. unfold bind at 1. cbn [fst snd].
    apply Forall_cons in Hp as [Hc Hp]. simpl in Hc.
    rewrite (bind_run _ _ _ _ _ (call_passive _ _ _ _ Hc)).
    set (e1 := mkEvent (_callbacks e) (_enabled e) (list_begin this post)).
    set (w2 := with_history _ (with_chans _ w)).
    assert (He2 : chans w2 !! this = Some e1) by apply lookup_insert_eq.
    rewrite (bind_run _ _ _ _ _ (this_event_run _ _ _ He2)).
    cbn [_nextCallback e1].
    destruct (IH (pre ++ [(n, c)]) fuel this v w2 e1) as [nx Hrun].
    + done.
    + simpl. rewrite Hl. by rewrite <- app_assoc.
    + rewrite <- app_assoc. simpl. by rewrite nodes_app, nodes_cons.
    + done.
    + simpl in Hf. lia.
    + exists nx. rewrite Hrun. f_equal. apply world_eq; simpl; try done.
      * rewrite insert_insert_eq. by rewrite <- app_assoc.
      * by rewrite <- app_assoc.
Qed.

Lemma notify_passive this (v : T) w e fuel :
  chans w !! this = Some e → _enabled e = true →
  NoDup (nodes (_callbacks e)) →
  Forall passive (_callbacks e).*2 →
  length (_callbacks e) < fuel →
  notify fuel this (Val v) w
  = Ok tt (with_history (λ h, h ++ calls v (_callbacks e))
             (with_chans (insert this (mkEvent (_callbacks e) true (End this))) w)).
Proof.
  intros He Hen Hnd Hp Hf. unfold notify.
  rewrite (bind_run _ _ _ _ _ (this_event_run _ _ _ He)). rewrite Hen.
  destruct (notify_loop_passive (_callbacks e) [] fuel this v w e) as [nx Hrun];
    try done.
  rewrite (bind_run _ _ _ _ _ Hrun).
  erewrite set_nextCallback_run by (simpl; apply lookup_insert_eq).
  f_equal. apply world_eq; simpl; try done.
  by rewrite insert_insert_eq, Hen.
Qed.

(** What a sequence of [add] calls leaves in the channel. *)
Lemma add_all_run ops : ∀ this w e,
  chans w !! this = Some e →
  ∃ ids l,
    add_all this ops w
    = Ok ids (with_chans (insert this (mkEvent l (_enabled e) (_nextCallback e)))
                (with_fresh (fresh w + length ops) w)) ∧
    l.*2 = reverse (fronts ops) ++ (_callbacks e).*2 ++ backs ops ∧
    ∃ news, nodes l ≡ₚ news ++ nodes (_callbacks e) ∧ NoDup news ∧
            ∀ n, n ∈ news → fresh w ≤ n.
Proof.
  induction ops as [|[c first] ops IH]; intros this w e He.
  - exists [], (_callbacks e). split; [|split].
    + simpl. unfold ret. f_equal. apply world_eq; simpl; [|done|done|lia|done].
      by rewrite event_eta, insert_id.
    + unfold fronts, backs. simpl. by rewrite app_nil_r.
    + exists []. split; [done|]. split; [constructor|]. by intros n ?%elem_of_nil.
  - cbn [add_all]. rewrite (bind_run _ _ _ _ _ (add_run _ c first _ _ He)).
    set (e1 := mkEvent _ (_enabled e) (_nextCallback e)).
    set (w1 := with_chans _ (with_fresh _ w)).
    assert (He1 : chans w1 !! this = Some e1) by apply lookup_insert_eq.
    destruct (IH this w1 e1 He1) as (ids & l & Hrun & Hl & news & Hperm & Hnd & Hge).
    exists (At (fresh w) :: ids), l. split; [|split].
    + rewrite (bind_run _ _ _ _ _ Hrun). unfold ret. f_equal.
      apply world_eq; simpl; [|done|done|lia|done].
      by rewrite insert_insert_eq.
    + rewrite Hl. unfold fronts, backs. cbn [e1 _callbacks].
      destruct first; simpl.
      * rewrite reverse_cons, <- app_assoc. done.
      * rewrite fmap_app, <- !app_assoc. done.
    + exists (fresh w :: news). split; [|split].
      * rewrite Hperm. cbn [e1 _callbacks]. destruct first.
        -- rewrite nodes_cons. simpl. by rewrite Permutation_middle.
        -- rewrite nodes_app. simpl.
           rewrite (Permutation_app_comm (nodes (_callbacks e))). simpl.
           by rewrite Permutation_middle.
      * constructor; [|done]. intros Hin. apply Hge in Hin. simpl in Hin. lia.
      * intros n [->|Hin]%elem_of_cons; [lia|]. apply Hge in Hin. simpl in Hin. lia.
Qed.

Lemma passive_filtered (Q : Callback T * bool → Prop) `{!∀ o, Decision (Q o)}
    (ops : list (Callback T * bool)) :
  Forall passive ops.*1 → Forall passive (filter Q ops).*1.
Proof.
  rewrite !Forall_fmap, !Forall_forall.
  intros Hall o [_ Ho]%list_elem_of_filter. by apply Hall.
Qed.

End Order.



(** ** Removal during dispatch *)

Section Removal.
Context {T : Type}.
Implicit Types (w : World T) (e : Event T) (this : chan).
Implicit Types (l pre post : list (node * Callback T)) (t u : list (Obs T)).

Lemma remove_run_empty this h w e :
  chans w !! this = Some e → cells w !! h = Some (End this) →
  remove this h w = Ok tt w.
Proof.
  intros He Hh. unfold remove, bind, this_event, load, lift, ret.
  rewrite He, Hh. by rewrite decide_True.
Qed.

Lemma remove_run_node this h w e n c pre post :
  chans w !! this = Some e → cells w !! h = Some (At n) →
  _callbacks e = pre ++ (n, c) :: post → n ∉ nodes pre →
  remove this h w
  = Ok tt (mkWorld
             (<[this := mkEvent (pre ++ post) (_enabled e)
                          (if decide (At n = _nextCallback e)
                           then list_begin this post else _nextCallback e)]>
                (chans w))
             (<[h := End this]> (cells w)) (vals w) (fresh w)
             (history w ++ [Erased n])).
Proof.
  intros He Hh Hl Hn.
  unfold remove, erase, set_nextCallback, set_callbacks, observe, store,
    set_event, bind, this_event, load, lift, ret.
  rewrite He, Hh. simpl.
  destruct (decide (At n = _nextCallback e)) as [Heq|Hne].
  - rewrite <- Heq. simpl. rewrite Hl, (list_next_at _ _ _ _ _ Hn). simpl.
    rewrite He. simpl. rewrite lookup_insert_eq. simpl.
    rewrite Hl, (list_erase_at _ _ _ _ Hn). simpl.
    rewrite lookup_insert_eq. simpl. rewrite Hh.
    f_equal. apply world_eq; simpl; try done.
    by rewrite !insert_insert_eq.
  - simpl. rewrite He. simpl. rewrite Hl, (list_erase_at _ _ _ _ Hn). simpl.
    rewrite He. simpl. rewrite Hh. done.
Qed.

Lemma no_alias_spec (cs : gmap loc CallbackID) :
  no_alias cs ↔
  ∀ h1 h2 n, cs !! h1 = Some (At n) → cs !! h2 = Some (At n) → h1 = h2.
Proof.
  unfold no_alias. split.
  - intros H h1 h2 n H1 H2.
    by apply (map_Forall_lookup_1 _ _ _ _ (map_Forall_lookup_1 _ _ _ _ H H1) H2).
  - intros H h1 c1 H1 h2 c2 H2 <- Hat. destruct c1 as [|n]; [done|]. by eapply H.
Qed.

Lemma handles_valid_spec this l (cs : gmap loc CallbackID) :
  handles_valid this l cs ↔
  ∀ h cv, cs !! h = Some cv → cv = End this ∨ ∃ n, cv = At n ∧ n ∈ nodes l.
Proof.
  unfold handles_valid. split.
  - intros H h cv Hh. apply (map_Forall_lookup_1 _ _ _ _ H) in Hh.
    apply elem_of_cons in Hh as [->|Hin]; [by left|]. right.
    apply list_elem_of_fmap in Hin as (n & -> & Hn). eauto.
  - intros H h cv Hh. apply H in Hh as [->|(n & -> & Hn)].
    + left.
    + right. by apply list_elem_of_fmap_2.
Qed.

(** Erasing the node a handle variable points to and emptying the
    variable keeps the handle variables valid and alias-free. *)
Lemma handles_after_erase this pre n c post (cs : gmap loc CallbackID) h :
  NoDup (nodes (pre ++ (n, c) :: post)) →
  handles_valid this (pre ++ (n, c) :: post) cs →
  no_alias cs →
  cs !! h = Some (At n) →
  handles_valid this (pre ++ post) (<[h := End this]> cs) ∧
  no_alias (<[h := End this]> cs).
Proof.
  rewrite !handles_valid_spec, !no_alias_spec. intros Hnd Hv Hna Hh. split.
  - intros h' cv. rewrite lookup_insert. case_decide as Hhh.
    + intros [= <-]. by left.
    + intros Hh'. destruct (Hv _ _ Hh') as [->|(m & -> & Hm)]; [by left|].
      right. exists m. split; [done|].
      assert (m ≠ n) by (intros ->; apply Hhh; by eapply Hna).
      rewrite nodes_app, nodes_cons, elem_of_app, elem_of_cons in Hm.
      rewrite nodes_app, elem_of_app. destruct Hm as [Hm|[->|Hm]]; [by left|done|by right].
  - intros h1 h2 m. rewrite !lookup_insert.
    repeat case_decide; try done. by apply Hna.
Qed.

Lemma sublist_app_erase {A} (p q : list A) x : p ++ q `sublist_of` p ++ x :: q.
Proof. apply sublist_app; [done|]. by apply sublist_cons. Qed.

Lemma nodes_sublist l1 l2 : l1 `sublist_of` l2 → nodes l1 `sublist_of` nodes l2.
Proof. apply fmap_sublist. Qed.

Lemma Forall_sublist {A} (P : A → Prop) (l1 l2 : list A) :
  l1 `sublist_of` l2 → Forall P l2 → Forall P l1.
Proof.
  rewrite !Forall_forall. intros Hs H x Hx. apply H. by eapply elem_of_sublist.
Qed.

Lemma removers_state_erase this D pre n c post w w' en nx :
  removers_state this D (pre ++ (n, c) :: post) w →
  (∃ h, cells w !! h = Some (At n) ∧ cells w' = <[h := End this]> (cells w)) →
  chans w' = <[this := mkEvent (pre ++ post) en nx]> (chans w) →
  removers_state this D (pre ++ post) w'.
Proof.
  intros ((e & He & Hl) & Hnd & Hdom & Hv & Hna & Hrem) (h & Hh & Hcells) Hch.
  destruct (handles_after_erase _ _ _ _ _ _ _ Hnd Hv Hna Hh) as [Hv' Hna'].
  split; [|split; [|split; [|split; [|split]]]].
  - eexists. split; [rewrite Hch; apply lookup_insert_eq|done].
  - eapply sublist_NoDup; [exact Hnd|apply nodes_sublist, sublist_app_erase].
  - rewrite Hcells, dom_insert_L, Hdom.
    assert (Hin : h ∈ D) by (rewrite <- Hdom; apply elem_of_dom; eauto).
    apply set_eq. intros x. rewrite elem_of_union, elem_of_singleton.
    split; [intros [->|?]; done|auto].
  - by rewrite Hcells.
  - by rewrite Hcells.
  - eapply Forall_sublist; [|exact Hrem]. apply fmap_sublist, sublist_app_erase.
Qed.

Lemma list_begin_node this post n :
  list_begin this post = At n → ∃ c post', post = (n, c) :: post'.
Proof. destruct post as [|[m c] post']; simpl; [done|]. intros [= ->]. eauto. Qed.

(** *** Histories *)

Lemma safe_nil : never_called_after_erased (@nil (Obs T)).
Proof. intros t0 n nm v t' H. by destruct t0. Qed.

Lemma safe_snoc (t : list (Obs T)) x :
  never_called_after_erased t →
  (∀ n nm v, x = Invoked n nm v → Erased n ∉ t) →
  never_called_after_erased (t ++ [x]).
Proof.
  intros Ht Hx t0 n nm v t' Heq.
  destruct t' as [|y t' _] using rev_ind.
  - apply app_inj_tail in Heq as [-> ->]. by eapply Hx.
  - rewrite app_comm_cons, app_assoc in Heq.
    apply app_inj_tail in Heq as [-> _]. by eapply Ht.
Qed.

Lemma safe_app_erased (t : list (Obs T)) ns :
  never_called_after_erased t →
  never_called_after_erased (t ++ (Erased <$> ns)).
Proof.
  revert t. induction ns as [|n ns IH]; intros t Ht; simpl.
  - by rewrite app_nil_r.
  - rewrite (cons_middle _ t), app_assoc. apply IH.
    apply safe_snoc; [done|]. by intros.
Qed.

Lemma invoked_app (t u : list (Obs T)) : invoked (t ++ u) = invoked t ++ invoked u.
Proof. unfold invoked. apply omap_app. Qed.

Lemma invoked_erased (ns : list node) : invoked (@Erased T <$> ns) = [].
Proof. by induction ns. Qed.

Lemma elem_of_fmap_Erased (n : node) (ns : list node) :
  @Erased T n ∈ Erased <$> ns ↔ n ∈ ns.
Proof.
  rewrite list_elem_of_fmap. split.
  - by intros (m & [= ->] & ?).
  - eauto.
Qed.

Lemma removers_state_frame this D l w w' :
  removers_state this D l w →
  (∃ e, chans w' !! this = Some e ∧ _callbacks e = l) →
  cells w' = cells w →
  removers_state this D l w'.
Proof.
  intros (_ & Hnd & Hdom & Hv & Hna & Hrem) He Hc.
  split; [done|]. rewrite Hc. done.
Qed.

Lemma arg_value_readable (a : Arg T) w :
  readable a w → ∃ v, arg_value a w = Ok v w.
Proof.
  destruct a as [v|x]; simpl; [by exists v|].
  intros [v Hv]. exists v. unfold load_val. by rewrite Hv.
Qed.

Lemma call_run n c (a : Arg T) w v :
  arg_value a w = Ok v w →
  call n c a w
  = run_body c a (cb_body c) (with_history (λ h, h ++ [Invoked n (cb_name c) v]) w).
Proof. intros Hv. unfold call. by rewrite (bind_run _ _ _ _ _ Hv). Qed.

Lemma bind_assoc {A B C} (m : M T A) (f : A → M T B) (k : B → M T C) w :
  bind (bind m f) k w = bind m (λ x, bind (f x) k) w.
Proof. unfold bind. by destruct (m w). Qed.

(** *** Lists, histories and handle variables *)

Lemma erased_app t u : erased (t ++ u) = erased t ++ erased u.
Proof. unfold erased. apply omap_app. Qed.

Lemma erased_Erased (ns : list node) : erased (@Erased T <$> ns) = ns.
Proof. unfold erased. induction ns as [|n ns IH]; [done|]. simpl. by f_equal. Qed.

Lemma elem_of_erased n t : n ∈ erased t ↔ Erased n ∈ t.
Proof.
  unfold erased. rewrite list_elem_of_omap. split.
  - intros ([m nm v|m] & Hin & Heq); simplify_eq. done.
  - intros Hin. exists (Erased n). done.
Qed.

Lemma emptied_refl this (cs : gmap loc CallbackID) : emptied this [] cs cs.
Proof. intros h. by left. Qed.

Lemma emptied_trans this ns1 ns2 (cs1 cs2 cs3 : gmap loc CallbackID) :
  emptied this ns1 cs1 cs2 → emptied this ns2 cs2 cs3 →
  emptied this (ns1 ++ ns2) cs1 cs3.
Proof.
  intros H1 H2 h.
  destruct (H2 h) as [Heq|(Hend & m & Hm & Hin)].
  - rewrite Heq. destruct (H1 h) as [?|(? & m & ? & ?)]; [by left|].
    right. split; [done|]. exists m. split; [done|]. apply elem_of_app. by left.
  - destruct (H1 h) as [Heq|(Hend' & m' & Hm' & Hin')].
    + right. split; [done|]. exists m. rewrite <- Heq. split; [done|].
      apply elem_of_app. by right.
    + congruence.
Qed.

Lemma safe_prefix t u : never_called_after_erased (t ++ u) → never_called_after_erased t.
Proof.
  intros H t0 n nm v t' Heq. apply (H t0 n nm v (t' ++ u)).
  rewrite Heq. by rewrite <- app_assoc.
Qed.

Lemma safe_app t u :
  never_called_after_erased t → never_called_after_erased u →
  (∀ n, Erased n ∈ t → n ∉ invoked u) →
  never_called_after_erased (t ++ u).
Proof.
  intros Ht Hu Hx. induction u as [|x u IH] using rev_ind.
  - by rewrite app_nil_r.
  - rewrite app_assoc. apply safe_snoc.
    + apply IH.
      * by eapply safe_prefix.
      * intros n Hn Hin. apply (Hx n Hn). rewrite invoked_app, elem_of_app. by left.
    + intros n nm v -> [Hin|Hin]%elem_of_app.
      * apply (Hx n Hin). rewrite invoked_app, elem_of_app. right. simpl. left.
      * by apply (Hu u n nm v []).
Qed.

Lemma honoured_nil (R : node → node → Prop) : honoured R (@nil (Obs T)).
Proof. intros t0 n nm v t' H. by destruct t0. Qed.

Lemma honoured_snoc (R : node → node → Prop) t x :
  honoured R t →
  (∀ m nm v, x = Invoked m nm v → ∀ n, n ∈ invoked t → ¬ R n m) →
  honoured R (t ++ [x]).
Proof.
  intros Ht Hx t0 n nm v t' Heq m Hm.
  destruct t' as [|y t' _] using rev_ind.
  - simpl. apply not_elem_of_nil.
  - rewrite app_comm_cons, app_assoc in Heq.
    apply app_inj_tail in Heq as [-> ->].
    rewrite invoked_app, elem_of_app. intros [Hin|Hin].
    + by apply (Ht t0 n nm v t' eq_refl m).
    + destruct y as [m' nm' v'|m']; simpl in Hin; [|by apply elem_of_nil in Hin].
      apply list_elem_of_singleton in Hin as ->.
      apply (Hx m' nm' v' eq_refl n); [|done].
      rewrite invoked_app, elem_of_app. right. simpl. left.
Qed.

Lemma honoured_app_erased (R : node → node → Prop) t ns :
  honoured R t → honoured R (t ++ (Erased <$> ns)).
Proof.
  revert t. induction ns as [|n ns IH]; intros t Ht; simpl.
  - by rewrite app_nil_r.
  - rewrite (cons_middle _ t), app_assoc. apply IH.
    apply honoured_snoc; [done|]. by intros.
Qed.

(** In a list without repeated nodes, a node holds one callback. *)
Lemma node_callback l n c c' :
  NoDup (nodes l) → (n, c) ∈ l → (n, c') ∈ l → c = c'.
Proof.
  induction l as [|[m d] l IH]; intros Hnd H1 H2; [by apply elem_of_nil in H1|].
  rewrite nodes_cons in Hnd. apply NoDup_cons in Hnd as [Hm Hnd].
  apply elem_of_cons in H1 as [H1|H1]; apply elem_of_cons in H2 as [H2|H2];
    simplify_eq; try done.
  - destruct Hm. by apply (list_elem_of_fmap_2 fst _ (m, c')).
  - destruct Hm. by apply (list_elem_of_fmap_2 fst _ (m, c)).
  - by apply IH.
Qed.

Lemma elem_of_nodes l n : n ∈ nodes l ↔ ∃ c, (n, c) ∈ l.
Proof.
  unfold nodes. rewrite list_elem_of_fmap. split.
  - intros ([m c] & -> & Hin). by exists c.
  - intros (c & Hin). by exists (n, c).
Qed.

(** A sublist that holds every element of a list without repetitions is
    the whole list. *)
Lemma sublist_all {A} (l1 l2 : list A) :
  l1 `sublist_of` l2 → NoDup l2 → (∀ x, x ∈ l2 → x ∈ l1) → l1 = l2.
Proof.
  induction 1 as [|x l1 l2 Hs IH|x l1 l2 Hs IH]; intros Hnd Hall; [done| |].
  - apply NoDup_cons in Hnd as [Hx Hnd]. f_equal. apply IH; [done|].
    intros y Hy. assert (Hy' : y ∈ x :: l1) by (apply Hall; by right).
    apply elem_of_cons in Hy' as [->|?]; done.
  - apply NoDup_cons in Hnd as [Hx Hnd]. destruct Hx.
    eapply elem_of_sublist; [|exact Hs]. apply Hall. left.
Qed.

(** A sublist of a list without repeated nodes is the list filtered by
    the nodes it holds. *)
Lemma sublist_filter_nodes (P : node → Prop)
    `{!∀ nc : node * Callback T, Decision (P nc.1)} l1 l2 :
  l1 `sublist_of` l2 → NoDup (nodes l2) →
  (∀ n, n ∈ nodes l2 → n ∈ nodes l1 ↔ P n) →
  l1 = filter (λ nc, P nc.1) l2.
Proof.
  induction 1 as [|x l1 l2 Hs IH|x l1 l2 Hs IH]; intros Hnd Hall; [done| |].
  - destruct x as [n c]. rewrite nodes_cons in Hnd. apply NoDup_cons in Hnd as [Hn Hnd].
    rewrite filter_cons_True.
    + f_equal. apply IH; [done|]. intros m Hm.
      rewrite <- Hall by (rewrite nodes_cons; by right).
      rewrite nodes_cons, elem_of_cons. split; [by right|].
      intros [->|?]; done.
    + simpl. apply Hall; rewrite nodes_cons; left.
  - destruct x as [n c]. rewrite nodes_cons in Hnd. apply NoDup_cons in Hnd as [Hn Hnd].
    rewrite filter_cons_False.
    + apply IH; [done|]. intros m Hm. apply Hall. rewrite nodes_cons. by right.
    + simpl. rewrite <- Hall by (rewrite nodes_cons; left).
      intros Hin. apply Hn. eapply elem_of_sublist; [exact Hin|]. by apply nodes_sublist.
Qed.

(** *** The dispatch *)

(** One [remove] while the cursor stands at the beginning of [post]:
    whatever live handle is removed, its node leaves the list, the cursor
    ends up at the beginning of what is left of [post], and the handle
    variable is emptied. *)
Lemma remove_in_dispatch this D pre post h w :
  removers_state this D (pre ++ post) w → cursor_at this post w → h ∈ D →
  ∃ w' pre' post' ns,
    remove this h w = Ok tt w' ∧
    removers_state this D (pre' ++ post') w' ∧ cursor_at this post' w' ∧
    pre' `sublist_of` pre ∧ post' `sublist_of` post ∧
    vals w' = vals w ∧
    history w' = history w ++ (Erased <$> ns) ∧
    (∀ n, n ∈ ns → n ∉ nodes (pre' ++ post')) ∧
    (∀ n, n ∈ nodes (pre ++ post) → n ∈ nodes (pre' ++ post') ∨ n ∈ ns) ∧
    cells w' = <[h := End this]> (cells w) ∧
    ((cells w !! h = Some (End this) ∧ ns = []) ∨
     (∃ n, cells w !! h = Some (At n) ∧ ns = [n])) ∧
    (∃ e e', chans w !! this = Some e ∧ chans w' !! this = Some e' ∧
             _enabled e' = _enabled e).
Proof.
  intros Hst (e & He & Hcur) Hh.
  pose proof Hst as ((e' & He' & Hl) & Hnd & Hdom & Hv & Hna & Hrem).
  simplify_eq.
  assert (is_Some (cells w !! h)) as [cv Hcv] by by apply elem_of_dom.
  rewrite handles_valid_spec in Hv.
  destruct (Hv _ _ Hcv) as [->|(n & -> & Hn)].
  { exists w, pre, post, []. rewrite (remove_run_empty _ _ _ _ He Hcv).
    simpl. rewrite app_nil_r.
    split_and!; try done.
    - by exists e.
    - by intros n ?%elem_of_nil.
    - intros n ?. by left.
    - by rewrite insert_id.
    - by left.
    - by exists e, e. }
  destruct (decide (n ∈ nodes pre)) as [Hpre|Hpre].
  - destruct (nodes_split _ _ Hpre) as (p1 & c & p2 & -> & Hp1).
    rewrite <- app_assoc in Hl, Hst, Hnd. simpl in Hl, Hst, Hnd.
    assert (Hne : At n ≠ _nextCallback e).
    { rewrite Hcur. intros Heq. symmetry in Heq.
      apply list_begin_node in Heq as (c' & post' & ->).
      repeat first [rewrite nodes_app in Hnd | rewrite nodes_cons in Hnd].
      apply NoDup_app in Hnd as (_ & _ & Hnd). apply NoDup_cons in Hnd as [Hnd _].
      apply Hnd. rewrite elem_of_app. right. left. }
    eexists _, (p1 ++ p2), post, [n].
    rewrite (remove_run_node _ _ _ _ _ _ _ _ He Hcv Hl Hp1).
    rewrite decide_False by done. split; [done|]. split; [|split].
    + rewrite <- app_assoc.
      eapply (removers_state_erase _ _ _ _ _ _ _ _ (_enabled e) (_nextCallback e) Hst);
        [exists h; by split|done].
    + eexists. split; [simpl; apply lookup_insert_eq|done].
    + split; [apply sublist_app_erase|]. split; [done|]. split; [done|].
      split; [done|].
      split; [|split; [|split; [done|split; [right; by exists n|]]]];
        [| |eexists e, _; split; [done|]; split; [apply lookup_insert_eq|done]].
      * intros m ->%list_elem_of_singleton.
        rewrite <- app_assoc. intros Hin.
        rewrite nodes_app, nodes_cons in Hnd. apply NoDup_app in Hnd as (_ & Hd & Hnd).
        apply NoDup_cons in Hnd as [Hnd _].
        rewrite nodes_app, elem_of_app in Hin. destruct Hin as [Hin|Hin]; done.
      * intros m. repeat first [rewrite nodes_app | rewrite nodes_cons].
        rewrite list_elem_of_singleton.
        repeat first [rewrite elem_of_app | rewrite elem_of_cons]. tauto.
  - rewrite nodes_app, elem_of_app in Hn. destruct Hn as [Hn|Hn]; [done|].
    destruct (nodes_split _ _ Hn) as (q1 & c & q2 & -> & Hq1).
    assert (Hpq : n ∉ nodes (pre ++ q1)).
    { rewrite nodes_app, elem_of_app. by intros [?|?]. }
    rewrite (app_assoc pre q1) in Hl, Hst, Hnd.
    eexists _, pre, (q1 ++ q2), [n].
    rewrite (remove_run_node _ _ _ _ _ _ _ _ He Hcv Hl Hpq).
    split; [done|]. split; [|split].
    + rewrite app_assoc.
      eapply (removers_state_erase _ _ _ _ _ _ _ _ (_enabled e) _ Hst);
        [exists h; by split|done].
    + eexists. split; [simpl; apply lookup_insert_eq|]. simpl.
      rewrite Hcur. destruct q1 as [|[m c'] q1]; simpl.
      * by rewrite decide_True.
      * rewrite decide_False; [done|]. intros [= ->]. apply Hq1. left.
    + split; [done|]. split; [apply sublist_app_erase|]. split; [done|].
      split; [done|].
      split; [|split; [|split; [done|split; [right; by exists n|]]]];
        [| |eexists e, _; split; [done|]; split; [apply lookup_insert_eq|done]].
      * intros m ->%list_elem_of_singleton.
        rewrite app_assoc. intros Hin.
        rewrite nodes_app, nodes_cons in Hnd. apply NoDup_app in Hnd as (_ & Hd & Hnd).
        apply NoDup_cons in Hnd as [Hnd _].
        rewrite nodes_app, elem_of_app in Hin. destruct Hin as [Hin|Hin]; done.
      * intros m. repeat first [rewrite nodes_app | rewrite nodes_cons].
        rewrite list_elem_of_singleton.
        repeat first [rewrite elem_of_app | rewrite elem_of_cons]. tauto.
Qed.

Lemma emptied_remove this (cs : gmap loc CallbackID) h ns :
  (cs !! h = Some (End this) ∧ ns = []) ∨ (∃ n, cs !! h = Some (At n) ∧ ns = [n]) →
  emptied this ns cs (<[h := End this]> cs).
Proof.
  intros Hcase h'. rewrite lookup_insert. case_decide as Hh; [|by left]. subst h'.
  destruct Hcase as [[-> _]|(n & Hn & ->)]; [by left|].
  right. split; [done|]. exists n. split; [done|]. left.
Qed.

(** The body of a remover while the dispatch is in progress. *)
Lemma body_in_dispatch self this D (a : Arg T) ss : ∀ pre post w,
  Forall (λ s, is_remove_of this D s) ss →
  removers_state this D (pre ++ post) w → cursor_at this post w →
  ∃ w' pre' post' ns,
    run_body self a ss w = Ok tt w' ∧
    removers_state this D (pre' ++ post') w' ∧ cursor_at this post' w' ∧
    pre' `sublist_of` pre ∧ post' `sublist_of` post ∧
    vals w' = vals w ∧
    history w' = history w ++ (Erased <$> ns) ∧
    (∀ n, n ∈ ns → n ∉ nodes (pre' ++ post')) ∧
    (∀ n, n ∈ nodes (pre ++ post) → n ∈ nodes (pre' ++ post') ∨ n ∈ ns) ∧
    emptied this ns (cells w) (cells w') ∧
    (∀ h, SRemove this h ∈ ss → cells w' !! h = Some (End this)) ∧
    (∀ m, m ∈ ns → ∃ h, SRemove this h ∈ ss ∧ cells w !! h = Some (At m)) ∧
    (∃ e e', chans w !! this = Some e ∧ chans w' !! this = Some e' ∧
             _enabled e' = _enabled e).
Proof.
  induction ss as [|s ss IH]; intros pre post w Hss Hst Hcur.
  - exists w, pre, post, []. simpl. rewrite app_nil_r.
    split_and!; try done.
    + by intros n ?%elem_of_nil.
    + intros n ?. by left.
    + apply emptied_refl.
    + by intros h ?%elem_of_nil.
    + by intros m ?%elem_of_nil.
    + destruct Hst as ((e & He & _) & _). by exists e, e.
  - apply Forall_cons in Hss as [Hs Hss].
    destruct s as [e h| | | | |]; try done. simpl in Hs.
    apply bool_decide_unpack in Hs as [-> Hh].
    destruct (remove_in_dispatch _ _ _ _ _ _ Hst Hcur Hh)
      as (w1 & pre1 & post1 & ns1 & Hrun1 & Hst1 & Hcur1 & Hp1 & Hq1 & Hv1 & Hh1
          & Hn1 & Hg1 & Hc1 & Hcase1 & (e0 & e1 & He0 & He1 & Hen1)).
    destruct (IH _ _ _ Hss Hst1 Hcur1)
      as (w2 & pre2 & post2 & ns2 & Hrun2 & Hst2 & Hcur2 & Hp2 & Hq2 & Hv2 & Hh2
          & Hn2 & Hg2 & Hem2 & Hk2 & Hc2 & (e1' & e2 & He1' & He2 & Hen2)).
    assert (Hem1 : emptied this ns1 (cells w) (cells w1)).
    { rewrite Hc1. by apply emptied_remove. }
    exists w2, pre2, post2, (ns1 ++ ns2). cbn [run_body run_stmt].
    rewrite (bind_run _ _ _ _ _ Hrun1).
    split; [done|]. split; [done|]. split; [done|].
    split; [by etrans|]. split; [by etrans|]. split; [congruence|].
    split; [by rewrite Hh2, Hh1, fmap_app, app_assoc|].
    split; [|split; [|split; [|split; [|split]]]].
    + intros n [Hin|Hin]%elem_of_app; [|by apply Hn2].
      intros Hn. apply (Hn1 n Hin).
      eapply elem_of_sublist; [exact Hn|]. apply nodes_sublist. by apply sublist_app.
    + intros n Hn. rewrite elem_of_app.
      destruct (Hg1 _ Hn) as [Hn'|?]; [|by auto].
      destruct (Hg2 _ Hn') as [?|?]; auto.
    + by eapply emptied_trans.
    + intros h' [[= ->]|Hin]%elem_of_cons; [|by apply Hk2].
      destruct (Hem2 h) as [Heq|[? _]]; [|done].
      rewrite Heq, Hc1. apply lookup_insert_eq.
    + intros m [Hin|Hin]%elem_of_app.
      * exists h. split; [left|].
        destruct Hcase1 as [[_ ->]|(n & Hn & ->)]; [by apply elem_of_nil in Hin|].
        by apply list_elem_of_singleton in Hin as ->.
      * destruct (Hc2 _ Hin) as (h' & Hin' & Hh').
        exists h'. split; [by right|].
        destruct (Hem1 h') as [Heq|[Hend _]]; [by rewrite <- Heq|congruence].
    + exists e0, e2. simplify_eq. split; [done|]. split; [done|]. congruence.
Qed.

(** The loop over removers: it completes and keeps the invariant. *)
Lemma loop_removers this D (a : Arg T) h0 l0 c0 fuel : ∀ pre post t w,
  length post < fuel →
  removing this D a h0 l0 c0 pre post t w →
  ∃ w' l' t',
    notify_loop fuel this a (list_begin this post) w = Ok tt w' ∧
    removing this D a h0 l0 c0 l' [] (t ++ t') w' ∧
    vals w' = vals w.
Proof.
  induction fuel as [|fuel IH]; intros pre post t w Hf Hinv; [lia|].
  destruct post as [|[n c] post].
  { exists w, pre, []. simpl. rewrite decide_True by done. by rewrite app_nil_r. }
  pose proof Hinv as (Hst & Hen & Hrd & Hh & Hsub & Hnd0 & Hdom0 & Hvis & Hsafe & Hhon
                      & HE & HG & HV & HJ1 & HJ2 & HK).
  pose proof Hst as ((e & He & Hl) & Hnd & Hdom & Hv & Hna & Hrem).
  assert (Hn : n ∉ nodes pre).
  { rewrite nodes_app, nodes_cons in Hnd.
    apply NoDup_app in Hnd as (_ & Hd & _). intros Hin. apply (Hd n Hin). left. }
  assert (Hnow : n ∈ nodes (pre ++ (n, c) :: post)).
  { rewrite nodes_app, nodes_cons, elem_of_app. right. left. }
  assert (Hnc : (n, c) ∈ l0).
  { eapply elem_of_sublist; [|exact Hsub]. rewrite elem_of_app. right. left. }
  cbn [notify_loop list_begin]. rewrite decide_False by done.
  rewrite (bind_run _ _ _ _ _ (this_event_run _ _ _ He)).
  rewrite Hl. cbn [it_next it_deref].
  rewrite (list_next_at _ _ _ _ _ Hn), (list_deref_at _ _ _ _ Hn).
  cbn [lift fmap option_fmap option_map]. unfold ret at 1. unfold bind at 1.
  rewrite (bind_run _ _ _ _ _ (set_nextCallback_run _ _ _ _ He)).
  unfold ret at 1. unfold bind at 1. cbn [fst snd].
  set (e1 := mkEvent (_callbacks e) (_enabled e) (list_begin this post)).
  set (w1 := with_chans (insert this e1) w).
  assert (He1 : chans w1 !! this = Some e1) by apply lookup_insert_eq.
  destruct (arg_value_readable a w1 Hrd) as [v Hv1].
  unfold bind at 1. rewrite (call_run _ _ _ _ _ Hv1).
  set (w2 := with_history _ w1).
  assert (Hst2 : removers_state this D ((pre ++ [(n, c)]) ++ post) w2).
  { rewrite <- app_assoc. eapply removers_state_frame; [exact Hst| |done].
    exists e1. split; [done|]. exact Hl. }
  assert (Hcur2 : cursor_at this post w2) by (by exists e1).
  assert (Hc : Forall (λ s, is_remove_of this D s) (cb_body c)).
  { rewrite fmap_app, fmap_cons in Hrem.
    apply Forall_app in Hrem as [_ Hrem]. by apply Forall_cons in Hrem as [Hrem _]. }
  destruct (body_in_dispatch c this D a _ _ _ _ Hc Hst2 Hcur2)
    as (w3 & pre3 & post3 & ns & Hrun3 & Hst3 & (e3 & He3 & Hcur3) & Hp3 & Hq3 & Hv3
        & Hh3 & Hn3 & Hg3 & Hem3 & Hk3 & Hc3 & (e2 & e3' & He2 & He3' & Hen3)).
  rewrite Hrun3.
  rewrite (bind_run _ _ _ _ _ (this_event_run _ _ _ He3)). rewrite Hcur3.
  set (t3 := (t ++ [Invoked n (cb_name c) v]) ++ (Erased <$> ns)).
  assert (Hit3 : invoked t3 = invoked t ++ [n]).
  { unfold t3. rewrite !invoked_app, invoked_erased. simpl. by rewrite app_nil_r. }
  assert (Het3 : erased t3 = erased t ++ ns).
  { unfold t3. rewrite !erased_app, erased_Erased. simpl. by rewrite app_nil_r. }
  assert (Hsub3 : pre3 ++ post3 `sublist_of` pre ++ (n, c) :: post).
  { rewrite (cons_middle _ pre), app_assoc. by apply sublist_app. }
  assert (Hinv3 : removing this D a h0 l0 c0 pre3 post3 t3 w3).
  { split_and!.
    - done.
    - exists e3. split; [done|].
      destruct Hen as (e0 & He0 & Hen0).
      assert (e3' = e3) as -> by congruence.
      assert (e2 = e1) as ->.
      { change (chans w2) with (chans w1) in He2. congruence. }
      assert (e0 = e) as -> by congruence.
      by rewrite Hen3.
    - destruct a; [done|]. simpl in *. by rewrite Hv3.
    - rewrite Hh3. simpl. rewrite Hh. unfold t3. by rewrite <- !app_assoc.
    - by etrans.
    - done.
    - done.
    - rewrite Hit3, <- app_assoc. simpl. etrans; [|exact Hvis].
      apply sublist_app; [done|]. rewrite nodes_cons. apply sublist_skip.
      by apply nodes_sublist.
    - unfold t3. apply safe_app_erased. apply safe_snoc; [done|].
      intros ? ? ? [= <- _ _] Hin%elem_of_erased. by apply (HE _ Hin).
    - unfold t3. apply honoured_app_erased, honoured_snoc; [done|].
      intros m nm' v' [= <- _ _] n1 Hn1 (c1 & h & Hc1 & Hh1 & Hm1).
      pose proof (HJ2 _ _ _ Hn1 Hc1 Hh1) as Hend.
      destruct (HJ1 h) as [Heq|(_ & m & Hm & Hin)].
      + rewrite Heq, Hm1 in Hend. done.
      + rewrite Hm1 in Hm. simplify_eq. by apply (HE _ Hin).
    - intros m. rewrite Het3, elem_of_app. intros [Hin|Hin]; [|by apply Hn3].
      intros Hm. apply (HE _ Hin).
      eapply elem_of_sublist; [exact Hm|]. by apply nodes_sublist.
    - intros m Hm. rewrite Het3, elem_of_app.
      destruct (HG _ Hm) as [Hin|?]; [|by auto].
      rewrite (cons_middle _ pre), app_assoc in Hin.
      destruct (Hg3 _ Hin) as [?|?]; auto.
    - intros m Hm. rewrite Hit3, Het3, !elem_of_app, list_elem_of_singleton.
      destruct (HV _ Hm) as [?|[?|Hin]]; [by auto|by auto|].
      rewrite nodes_cons, elem_of_cons in Hin. destruct Hin as [->|Hin]; [by auto|].
      assert (Hin' : m ∈ nodes ((pre ++ [(n, c)]) ++ post)).
      { rewrite nodes_app, elem_of_app. by right. }
      destruct (Hg3 _ Hin') as [Hcur|?]; [|by auto].
      rewrite nodes_app, elem_of_app in Hcur. destruct Hcur as [Hpre|?]; [|by auto].
      exfalso.
      assert (Hpre' : m ∈ nodes (pre ++ [(n, c)])).
      { eapply elem_of_sublist; [exact Hpre|]. by apply nodes_sublist. }
      rewrite (cons_middle _ pre), app_assoc, nodes_app in Hnd.
      apply NoDup_app in Hnd as (_ & Hd & _). by apply (Hd m Hpre').
    - rewrite Het3. eapply emptied_trans; [exact HJ1|exact Hem3].
    - intros n1 c1 h. rewrite Hit3, elem_of_app, list_elem_of_singleton.
      intros [Hn1| ->] Hc1 Hh1.
      + pose proof (HJ2 _ _ _ Hn1 Hc1 Hh1) as Hend.
        destruct (Hem3 h) as [Heq|[? _]]; [|done]. by rewrite Heq.
      + assert (c1 = c) as -> by exact (node_callback l0 n c1 c Hnd0 Hc1 Hnc).
        by apply Hk3.
    - intros m. rewrite Het3, Hit3, elem_of_app. intros [Hin|Hin].
      + destruct (HK _ Hin) as (n1 & Hn1 & Hr). exists n1.
        split; [|done]. rewrite elem_of_app. by left.
      + destruct (Hc3 _ Hin) as (h & Hh' & Hm).
        exists n. split; [rewrite elem_of_app, list_elem_of_singleton; by right|].
        exists c, h. split; [done|]. split; [done|].
        destruct (HJ1 h) as [Heq|(Hend & _)].
        * by rewrite <- Heq.
        * change (cells w2) with (cells w) in Hm. congruence. }
  destruct (IH pre3 post3 t3 w3) as (w' & l' & t' & Hrun & Hinv' & Hv'); [|done|].
  { apply sublist_length in Hq3. simpl in Hf. lia. }
  exists w', l', ([Invoked n (cb_name c) v] ++ (Erased <$> ns) ++ t').
  split; [done|]. split; [|by rewrite Hv', Hv3].
  unfold t3 in Hinv'. by rewrite <- !app_assoc in Hinv'.
Qed.

(** One dispatch over removers, from beginning to end. *)
Lemma dispatch_removers this D (a : Arg T) fuel l w e :
  chans w !! this = Some e →
  removers_state this D l w → readable a w → length l < fuel →
  ∃ w' t e',
    notify fuel this a w = Ok tt w' ∧ history w' = history w ++ t ∧
    chans w' !! this = Some e' ∧ _enabled e' = _enabled e ∧
    removers_state this D (_callbacks e') w' ∧
    vals w' = vals w ∧
    invoked t `sublist_of` nodes l ∧
    never_called_after_erased t ∧
    honoured (removes this l (cells w)) t ∧
    _callbacks e' = filter (λ nc, nc.1 ∉ erased t) l ∧
    emptied this (erased t) (cells w) (cells w') ∧
    (∀ n c h, n ∈ invoked t → (n, c) ∈ l → SRemove this h ∈ cb_body c →
              cells w' !! h = Some (End this)) ∧
    (∀ m, m ∈ erased t → ∃ n, n ∈ invoked t ∧ removes this l (cells w) n m) ∧
    (if _enabled e then ∀ n, n ∈ nodes l → n ∈ invoked t ∨ n ∈ erased t
     else t = []).
Proof.
  intros He Hst Hrd Hf.
  pose proof Hst as ((e0 & He0 & Hl) & Hnd & Hdom & Hv & Hna & Hrem).
  assert (e0 = e) as -> by congruence. subst l.
  unfold notify. rewrite (bind_run _ _ _ _ _ (this_event_run _ _ _ He)).
  destruct (_enabled e) eqn:Hen.
  - assert (Hinv : removing this D a (history w) (_callbacks e) (cells w)
                     [] (_callbacks e) [] w).
    { split_and!; try done.
      - by exists e.
      - by rewrite app_nil_r.
      - apply safe_nil.
      - apply honoured_nil.
      - by intros n ?%elem_of_nil.
      - intros n ?. by left.
      - intros n ?. by right; right.
      - apply emptied_refl.
      - by intros n c h ?%elem_of_nil.
      - by intros m ?%elem_of_nil. }
    destruct (loop_removers this D a (history w) _ _ fuel [] _ [] w Hf Hinv)
      as (w1 & l' & t & Hrun & Hinv' & Hvals).
    rewrite (bind_run _ _ _ _ _ Hrun).
    destruct Hinv' as (Hst' & (e1 & He1 & Hen1) & Hrd' & Hh' & Hsub & _ & _ & Hvis & Hsafe
                       & Hhon & HE & HG & HV & HJ1 & HJ2 & HK).
    rewrite app_nil_r in Hst', Hsub, HE, HG. rewrite app_nil_r in Hvis.
    simpl in Hh', Hsafe, Hhon, HE, HG, HV, HJ1, HJ2, HK.
    pose proof Hst' as ((e1' & He1' & Hl') & _). simplify_eq.
    rewrite (set_nextCallback_run _ _ _ _ He1).
    eexists _, t, _. split; [done|]. split; [done|].
    split; [apply chans_with_chans_insert|]. split; [by rewrite Hen1|].
    split_and!; try done.
    + eapply removers_state_frame; [exact Hst'| |done].
      eexists. split; [apply chans_with_chans_insert|done].
    + simpl. apply (sublist_filter_nodes (λ n, n ∉ erased t)); [done|done|].
      intros n Hn. split.
      * intros Hin Her. by apply (HE _ Her).
      * intros Hne. by destruct (HG _ Hn).
    + intros n Hn. destruct (HV _ Hn) as [?|[?|Hin]]; [by left|by right|].
      by apply elem_of_nil in Hin.
  - exists w, [], e. rewrite app_nil_r. unfold ret. split_and!; try done.
    + apply sublist_nil_l.
    + apply safe_nil.
    + apply honoured_nil.
    + apply (sublist_filter_nodes (λ n, n ∉ erased [])); [done|done|].
      intros n Hn. split; [|done]. intros _ Hin. by apply elem_of_nil in Hin.
    + apply emptied_refl.
    + by intros n c h ?%elem_of_nil.
    + by intros m ?%elem_of_nil.
Qed.

(** C3: the subscribers of a channel remove handles of that channel while
    it dispatches (their own, visited ones, ones still to visit).  The
    dispatch and the next one complete and nobody is called twice.  Once
    a callback has been called, the node of every handle it removes has
    been erased and the handle emptied: that node's callback is not
    called later in this dispatch, nor in the next.  Only nodes removed
    by a callback that was called are erased, and the list afterwards is
    the list before without them.  On an enabled channel every callback
    is called unless it was erased first, and the next dispatch calls
    exactly the callbacks that are left, erasing nothing. *)
Theorem C3_removal_during_dispatch this (w : World T) e (a1 a2 : Arg T) fuel1 fuel2 :
  chans w !! this = Some e →
  NoDup (nodes (_callbacks e)) →
  handles_valid this (_callbacks e) (cells w) →
  no_alias (cells w) →
  Forall (remover this (dom (cells w))) (_callbacks e).*2 →
  readable a1 w → readable a2 w →
  length (_callbacks e) < fuel1 → length (_callbacks e) < fuel2 →
  ∃ w1 w2 t1 t2 e1 e2,
    notify fuel1 this a1 w = Ok tt w1 ∧ history w1 = history w ++ t1 ∧
    notify fuel2 this a2 w1 = Ok tt w2 ∧ history w2 = history w1 ++ t2 ∧
    chans w1 !! this = Some e1 ∧ chans w2 !! this = Some e2 ∧
    invoked t1 `sublist_of` nodes (_callbacks e) ∧ NoDup (invoked t1) ∧
    invoked t2 `sublist_of` nodes (_callbacks e) ∧ NoDup (invoked t2) ∧
    never_called_after_erased (t1 ++ t2) ∧
    (∀ n c h m,
        n ∈ invoked t1 → (n, c) ∈ _callbacks e → SRemove this h ∈ cb_body c →
        cells w !! h = Some (At m) →
        Erased m ∈ t1 ∧ cells w1 !! h = Some (End this) ∧
        (∀ t0 nm v t', t1 = t0 ++ Invoked n nm v :: t' → m ∉ invoked t') ∧
        m ∉ invoked t2) ∧
    (∀ m, Erased m ∈ t1 →
          ∃ n, n ∈ invoked t1 ∧ removes this (_callbacks e) (cells w) n m) ∧
    _callbacks e1 = filter (λ nc, nc.1 ∉ erased t1) (_callbacks e) ∧
    _callbacks e2 = _callbacks e1 ∧
    _callbacks e2 `sublist_of` _callbacks e ∧
    (∀ n, Erased n ∈ t1 ++ t2 → n ∉ nodes (_callbacks e2)) ∧
    (_enabled e = true →
       (∀ n, n ∈ nodes (_callbacks e) → n ∈ invoked t1 ∨ Erased n ∈ t1) ∧
       invoked t2 = nodes (_callbacks e1)).
Proof.
  intros He Hnd Hv Hna Hrem Hr1 Hr2 Hf1 Hf2.
  assert (Hst : removers_state this (dom (cells w)) (_callbacks e) w).
  { split; [by exists e|]. by split_and!. }
  destruct (dispatch_removers this _ a1 fuel1 _ w e He Hst Hr1 Hf1)
    as (w1 & t1 & e1 & Hrun1 & Hh1 & He1 & Hen1 & Hst1 & Hv1 & Hsub1 & Hsafe1 & Hhon1
        & Hl1 & Hem1 & HJ1 & HK1 & Hall1).
  assert (Hsl1 : _callbacks e1 `sublist_of` _callbacks e).
  { rewrite Hl1. apply sublist_filter. }
  assert (Hr2' : readable a2 w1).
  { destruct a2; [done|]. simpl in *. by rewrite Hv1. }
  assert (Hf2' : length (_callbacks e1) < fuel2).
  { apply sublist_length in Hsl1. lia. }
  destruct (dispatch_removers this _ a2 fuel2 _ w1 e1 He1 Hst1 Hr2' Hf2')
    as (w2 & t2 & e2 & Hrun2 & Hh2 & He2 & Hen2 & Hst2 & Hv2 & Hsub2 & Hsafe2 & Hhon2
        & Hl2 & Hem2 & HJ2 & HK2 & Hall2).
  (* nodes erased in the first dispatch are not in the list afterwards *)
  assert (Hgone : ∀ m, m ∈ erased t1 → m ∉ nodes (_callbacks e1)).
  { intros m Hm. rewrite Hl1, elem_of_nodes. intros (c & Hin).
    apply list_elem_of_filter in Hin as [Hin _]. by apply Hin. }
  (* the second dispatch erases nothing *)
  assert (Hnone : erased t2 = []).
  { destruct (_enabled e) eqn:Hen; [|by rewrite Hen1 in Hall2; rewrite Hall2].
    apply elem_of_nil_inv. intros m Her.
    destruct (HK2 m Her) as (n & Hn & c & h & Hc & Hh & Hm).
    assert (Hc0 : (n, c) ∈ _callbacks e) by by eapply elem_of_sublist.
    assert (Hn1 : n ∈ invoked t1).
    { destruct (Hall1 n) as [?|Her1]; [by apply elem_of_nodes; exists c|done|].
      destruct (Hgone _ Her1). apply elem_of_nodes. by exists c. }
    rewrite (HJ1 _ _ _ Hn1 Hc0 Hh) in Hm. done. }
  assert (Hl21 : _callbacks e2 = _callbacks e1).
  { rewrite Hl2, Hnone. symmetry.
    apply (sublist_filter_nodes (λ n, n ∉ [])); [done| |].
    - by destruct Hst1 as (_ & ? & _).
    - intros n Hn. split; [|done]. intros _ Hin. by apply elem_of_nil in Hin. }
  exists w1, w2, t1, t2, e1, e2.
  split; [done|]. split; [done|]. split; [done|]. split; [done|].
  split; [done|]. split; [done|].
  assert (Hsub2' : invoked t2 `sublist_of` nodes (_callbacks e)).
  { etrans; [exact Hsub2|]. by apply nodes_sublist. }
  split; [done|]. split; [by eapply sublist_NoDup|].
  split; [done|]. split; [by eapply sublist_NoDup|].
  assert (Hcross : ∀ m, m ∈ erased t1 → m ∉ invoked t2).
  { intros m Hm Hin. apply (Hgone _ Hm). by eapply elem_of_sublist. }
  split.
  { apply safe_app; [done|done|]. intros n Hn%elem_of_erased. by apply Hcross. }
  split.
  { intros n c h m Hn Hc Hh Hm.
    pose proof (HJ1 _ _ _ Hn Hc Hh) as Hend.
    assert (Her : m ∈ erased t1).
    { destruct (Hem1 h) as [Heq|(_ & m' & Hm' & Hin)]; [congruence|].
      rewrite Hm in Hm'. by simplify_eq. }
    split; [by apply elem_of_erased|]. split; [done|]. split; [|by apply Hcross].
    intros t0 nm v t' Heq. apply (Hhon1 _ _ _ _ _ Heq). by exists c, h. }
  split.
  { intros m Hm%elem_of_erased. by apply HK1. }
  split; [done|]. split; [done|]. split; [by rewrite Hl21|].
  split.
  { intros n [Hn|Hn]%elem_of_app.
    - rewrite Hl21. by apply Hgone, elem_of_erased.
    - apply elem_of_erased in Hn. rewrite Hnone in Hn. by apply elem_of_nil in Hn. }
  intros Hen. rewrite Hen in Hall1. rewrite Hen1, Hen in Hall2. split.
  - intros n Hn. destruct (Hall1 _ Hn) as [?|?]; [by left|right; by apply elem_of_erased].
  - assert (Hnd1 : NoDup (nodes (_callbacks e1))) by by destruct Hst1 as (_ & ? & _).
    apply (sublist_all _ _ Hsub2 Hnd1).
    intros n Hn. destruct (Hall2 _ Hn) as [?|Hin]; [done|].
    rewrite Hnone in Hin. by apply elem_of_nil in Hin.
Qed.

End Removal.

Lemma C3_removal_during_dispatch_witness :
  ∃ w1 w2,
    notify 4 0 (Val 7%Z) self_removing = Ok tt w1 ∧
    history w1 = [Invoked 4 1 7%Z; Erased 4; Erased 5; Invoked 6 3 7%Z; Erased 6] ∧
    notify 4 0 (Val 8%Z) w1 = Ok tt w2 ∧
    history w2 = history w1.
Proof.
  destruct (C3_removal_during_dispatch 0 self_removing
              (mkEvent [(4, Cb 1 [SRemove 0 1; SRemove 0 2]);
                        (5, Cb 2 []);
                        (6, Cb 3 [SRemove 0 1; SRemove 0 3])] true (End 0))
              (Val 7%Z) (Val 8%Z) 4 4)
    as (w1 & w2 & t1 & t2 & e1 & e2 & Hrun1 & Hh1 & Hrun2 & Hh2 & _).
  - reflexivity.
  - refine (bool_decide_unpack _ _). vm_compute. exact I.
  - unfold handles_valid. refine (bool_decide_unpack _ _). vm_compute. exact I.
  - unfold no_alias. refine (bool_decide_unpack _ _). vm_compute. exact I.
  - unfold remover. refine (bool_decide_unpack _ _). vm_compute. exact I.
  - exact I.
  - exact I.
  - simpl. lia.
  - simpl. lia.
  - exists w1, w2.
    vm_compute in Hrun1. injection Hrun1 as <-.
    vm_compute in Hrun2. injection Hrun2 as <-.
    split; [reflexivity|]. split; [reflexivity|]. split; [reflexivity|]. reflexivity.
Defined.

(** ** Deferred triggers *)

Section Snapshot.
Context {T : Type}.
Implicit Types (w : World T) (e : Event T) (this : chan).

Lemma delivers_nil (v : T) : delivers v [].
Proof. constructor. Qed.

Lemma delivers_app (v : T) t u : delivers v t → delivers v u → delivers v (t ++ u).
Proof. apply Forall_app_2. Qed.

Lemma delivers_erased (v : T) n : delivers v [Erased n].
Proof. by repeat constructor. Qed.

(** With a value argument, a callback cannot reach any [T] lvalue, and
    the only calls a dispatch reports are its own. *)
Lemma run_stmt_by_value self (v : T) s w r w' :
  run_stmt self (Val v) s w = Ok r w' →
  vals w' = vals w ∧ ∃ t, history w' = history w ++ t ∧ delivers v t.
Proof.
  destruct s as [e h|e h c first|e b|f|e h first|]; simpl; intros H.
  - apply remove_ok in H
      as (e0 & cv & _ & _ & [[_ ->]|(n & l & nx & _ & _ & _ & _ & _ & Hv & _ & Hh)]).
    + split; [done|]. exists []. split; [by rewrite app_nil_r|apply delivers_nil].
    + split; [done|]. exists [Erased n]. split; [done|]. apply delivers_erased.
  - inv_ok. match goal with H : add _ _ _ _ = _ |- _ =>
      apply add_ok in H as (e0 & _ & _ & ->) end.
    split; [done|]. exists []. split; [by rewrite app_nil_r|apply delivers_nil].
  - inv_ok. split; [done|]. exists []. split; [by rewrite app_nil_r|apply delivers_nil].
  - inv_ok. split; [done|]. exists []. split; [by rewrite app_nil_r|apply delivers_nil].
  - inv_ok. match goal with H : add _ _ _ _ = _ |- _ =>
      apply add_ok in H as (e0 & _ & _ & ->) end.
    split; [done|]. exists []. split; [by rewrite app_nil_r|apply delivers_nil].
  - done.
Qed.

Lemma run_body_by_value self (v : T) ss w r w' :
  run_body self (Val v) ss w = Ok r w' →
  vals w' = vals w ∧ ∃ t, history w' = history w ++ t ∧ delivers v t.
Proof.
  revert w. induction ss as [|s ss IH]; intros w H; simpl in H; inv_ok.
  - split; [done|]. exists []. split; [by rewrite app_nil_r|apply delivers_nil].
  - match goal with H : run_stmt _ _ _ _ = _ |- _ =>
      apply run_stmt_by_value in H as (Hv1 & t1 & Hh1 & Hd1) end.
    apply IH in H as (Hv2 & t2 & Hh2 & Hd2).
    split; [congruence|]. exists (t1 ++ t2).
    split; [by rewrite Hh2, Hh1, app_assoc|by apply delivers_app].
Qed.

Lemma notify_loop_by_value fuel this (v : T) c w r w' :
  notify_loop fuel this (Val v) c w = Ok r w' →
  vals w' = vals w ∧ ∃ t, history w' = history w ++ t ∧ delivers v t.
Proof.
  revert c w. induction fuel as [|fuel IH]; intros c w H; simpl in H; [done|].
  destruct (decide (c = End this)); inv_ok.
  { split; [done|]. exists []. split; [by rewrite app_nil_r|apply delivers_nil]. }
  match goal with H : call _ _ _ _ = _ |- _ =>
    apply call_ok in H as (u & Hu & Hb) end.
  simpl in Hu. inv_ok.
  apply run_body_by_value in Hb as (Hv1 & t1 & Hh1 & Hd1).
  apply IH in H as (Hv2 & t2 & Hh2 & Hd2).
  split; [by rewrite Hv2, Hv1|].
  eexists (_ :: t1 ++ t2). split.
  - rewrite Hh2, Hh1. simpl. by rewrite <- !app_assoc.
  - constructor; [done|]. by apply delivers_app.
Qed.

Lemma notify_by_value fuel this (v : T) w r w' :
  notify fuel this (Val v) w = Ok r w' →
  vals w' = vals w ∧ ∃ t, history w' = history w ++ t ∧ delivers v t.
Proof.
  unfold notify. intros H. inv_ok.
  destruct (_enabled _); inv_ok.
  - match goal with H : notify_loop _ _ _ _ _ = _ |- _ =>
      apply notify_loop_by_value in H as (Hv & t & Hh & Hd) end.
    split; [done|]. by exists t.
  - split; [done|]. exists []. split; [by rewrite app_nil_r|apply delivers_nil].
Qed.

Lemma makeNotifier_run this (a : Arg T) w v :
  arg_value a w = Ok v w →
  makeNotifier this a w
  = Ok (Notifier.mk (fresh w) this)
       (with_vals (insert (fresh w) v) (with_fresh (S (fresh w)) w)).
Proof.
  intros Hv. unfold makeNotifier, Notifier.ctor.
  by rewrite (bind_run _ _ _ _ _ Hv).
Qed.

Lemma trigger_by_value fuel n w (v : T) :
  vals w !! Notifier._t n = Some v →
  Notifier.trigger false fuel n w = notify fuel (Notifier._e n) (Val v) w.
Proof.
  intros Hv. unfold Notifier.trigger, pass, bind at 1, bind at 1, load_val.
  by rewrite Hv.
Qed.

Lemma trigger_by_reference fuel n w :
  Notifier.trigger (T:=T) true fuel n w
  = notify fuel (Notifier._e n) (Ref (Notifier._t n)) w.
Proof. done. Qed.

(** C7 (amended): [makeNotifier] copies the value of each argument, as
    it is at construction, into storage of its own, which assignments to
    other variables do not reach.  With value argument types, [trigger]
    is a dispatch with the stored values: every callback receives them
    and the stored copy stays as it is, so every later [trigger] does the
    same; over passive callbacks it completes and calls each of them with
    the stored values.  With reference argument types, [trigger] is a
    dispatch on a reference to the stored copy. *)
Theorem C7_notifier_snapshot this (w : World T) (a : Arg T) (v : T) :
  arg_value a w = Ok v w →
  ∃ n w0,
    makeNotifier this a w = Ok n w0 ∧
    Notifier._e n = this ∧ Notifier._t n = fresh w ∧
    vals w0 = <[Notifier._t n := v]> (vals w) ∧
    ∀ w1, vals w1 !! Notifier._t n = Some v →
      (∀ x u w2, x ≠ Notifier._t n → store_val x u w1 = Ok tt w2 →
                 vals w2 !! Notifier._t n = Some v) ∧
      (∀ fuel, Notifier.trigger false fuel n w1 = notify fuel this (Val v) w1) ∧
      (∀ fuel w2, Notifier.trigger false fuel n w1 = Ok tt w2 →
                  vals w2 !! Notifier._t n = Some v ∧
                  ∃ t, history w2 = history w1 ++ t ∧ delivers v t) ∧
      (∀ fuel e,
          chans w1 !! this = Some e → _enabled e = true →
          NoDup (nodes (_callbacks e)) → Forall passive (_callbacks e).*2 →
          length (_callbacks e) < fuel →
          Notifier.trigger false fuel n w1
          = Ok tt (with_history (λ h, h ++ calls v (_callbacks e))
                     (with_chans
                        (insert this (mkEvent (_callbacks e) true (End this))) w1))) ∧
      (∀ fuel, Notifier.trigger true fuel n w1
               = notify fuel this (Ref (Notifier._t n)) w1).
Proof.
  intros Hv. eexists _, _. split; [by apply makeNotifier_run|].
  split; [done|]. split; [done|]. split; [done|].
  intros w1 Hw1. simpl in *. split_and!.
  - intros x u w2 Hx H. inv_ok. simpl. by rewrite lookup_insert_ne.
  - intros fuel. by apply (trigger_by_value fuel (Notifier.mk (fresh w) this)).
  - intros fuel w2 H.
    rewrite (trigger_by_value fuel (Notifier.mk (fresh w) this) _ _ Hw1) in H.
    apply notify_by_value in H as (Hvals & t & Hh & Hd).
    split; [by rewrite Hvals|]. by exists t.
  - intros fuel e He Hen Hnd Hp Hf.
    rewrite (trigger_by_value fuel (Notifier.mk (fresh w) this) _ _ Hw1).
    by apply notify_passive.
  - intros fuel. apply trigger_by_reference.
Qed.

End Snapshot.

(** C7 (as stated) fails on a channel with reference arguments: the
    second [trigger] delivers 6, not the 5 the notifier was made with. *)
Lemma C7_counterexample_second_trigger :
  ∃ w, trigger_twice_by_reference empty_world = Ok tt w ∧
       history w = [Invoked 1 1 5%Z; Invoked 1 1 6%Z] ∧
       ¬ delivers 5%Z (history w).
Proof.
  eexists. split; [vm_compute; reflexivity|]. split; [reflexivity|].
  intros H. apply Forall_cons in H as [_ H]. apply Forall_cons in H as [H _].
  discriminate H.
Qed.

Lemma C7_notifier_snapshot_witness :
  arg_value (Val 5%Z) one_subscriber = Ok 5%Z one_subscriber ∧
  ∃ n w0,
    makeNotifier 0 (Val 5%Z) one_subscriber = Ok n w0 ∧
    Notifier.trigger false 2 n w0 = notify 2 0 (Val 5%Z) w0.
Proof.
  split; [reflexivity|].
  destruct (C7_notifier_snapshot 0 one_subscriber (Val 5%Z) 5%Z eq_refl)
    as (n & w0 & Hmk & He & Ht & Hvals & Hlater).
  exists n, w0. split; [exact Hmk|].
  apply Hlater. rewrite Hvals. apply lookup_insert_eq.
Defined.

(** ** Dispatch order with reference arguments *)

Section OrderRef.
Context {T : Type}.
Implicit Types (w : World T) (e : Event T) (this : chan).
Implicit Types (l pre post : list (node * Callback T)).

Lemma calls_in_order (v : T) l : called_in_order (calls v l) l.
Proof.
  unfold called_in_order, calls. induction l as [|nc l IH]; simpl; constructor; eauto.
Qed.

Lemma run_body_passive_ref self x ss : ∀ w (u0 : T),
  Forall (λ s, is_modify s) ss → vals w !! x = Some u0 →
  ∃ u, run_body self (Ref x) ss w = Ok tt (with_vals (insert x u) w).
Proof.
  induction ss as [|s ss IH]; intros w u0 Hss Hx.
  - exists u0. simpl. unfold ret. f_equal. apply world_eq; simpl; try done.
    by rewrite insert_id.
  - apply Forall_cons in Hss as [Hs Hss]. destruct s as [| | |f| |]; try done.
    cbn [run_body run_stmt]. unfold load_val, store_val, bind, lift, ret.
    rewrite Hx. rewrite Hx.
    destruct (IH (with_vals (insert x (f u0)) w) (f u0) Hss) as [u Hu].
    { simpl. apply lookup_insert_eq. }
    exists u. rewrite Hu. f_equal. apply world_eq; simpl; try done.
    by rewrite insert_insert_eq.
Qed.

Lemma call_passive_ref n c x w (u0 : T) :
  passive c → vals w !! x = Some u0 →
  ∃ u, call n c (Ref x) w
       = Ok tt (with_vals (insert x u)
                  (with_history (λ h, h ++ [Invoked n (cb_name c) u0]) w)).
Proof.
  intros Hc Hx.
  assert (Hv : arg_value (Ref x) w = Ok u0 w).
  { simpl. unfold load_val. by rewrite Hx. }
  rewrite (call_run _ _ _ _ _ Hv). by eapply run_body_passive_ref.
Qed.

Lemma notify_loop_passive_ref post : ∀ pre fuel this x w e (u0 : T),
  chans w !! this = Some e →
  _callbacks e = pre ++ post →
  NoDup (nodes (pre ++ post)) →
  Forall passive post.*2 →
  length post < fuel →
  vals w !! x = Some u0 →
  ∃ nx u t,
    notify_loop fuel this (Ref x) (list_begin this post) w
    = Ok tt (mkWorld
               (<[this := mkEvent (pre ++ post) (_enabled e) nx]> (chans w))
               (cells w) (<[x := u]> (vals w)) (fresh w) (history w ++ t)) ∧
    called_in_order t post.
Proof.
  induction post as [|[n c] post IH]; intros pre fuel this x w e u0 He Hl Hnd Hp Hf Hx.
  - destruct fuel as [|fuel]; [simpl in Hf; lia|]. simpl.
    rewrite decide_True by done. exists (_nextCallback e), u0, []. split; [|constructor].
    unfold ret. f_equal. apply world_eq; simpl; try done.
    + rewrite <- Hl, event_eta. by rewrite insert_id.
    + by rewrite insert_id.
    + by rewrite app_nil_r.
  - destruct fuel as [|fuel]; [simpl in Hf; lia|].
    rewrite nodes_app, nodes_cons in Hnd.
    assert (Hn : n ∉ nodes pre).
    { apply NoDup_app in Hnd as (_ & Hd & _). intros Hin. apply (Hd n Hin). left. }
    cbn [notify_loop list_begin]. rewrite decide_False by done.
    rewrite (bind_run _ _ _ _ _ (this_event_run _ _ _ He)).
    rewrite Hl. cbn [it_next it_deref].
    rewrite (list_next_at _ _ _ _ _ Hn), (list_deref_at _ _ _ _ Hn).
    cbn [lift fmap option_fmap option_map]. unfold ret at 1. unfold bind at 1.
    rewrite (bind_run _ _ _ _ _ (set_nextCallback_run _ _ _ _ He)).
    unfold ret at 1. unfold bind at 1. cbn [fst snd].
    apply Forall_cons in Hp as [Hc Hp]. simpl in Hc.
    set (e1 := mkEvent (_callbacks e) (_enabled e) (list_begin this post)).
    set (w1 := with_chans (insert this e1) w).
    destruct (call_passive_ref n c x w1 u0 Hc Hx) as [u1 Hcall].
    rewrite (bind_run _ _ _ _ _ Hcall).
    set (w2 := with_vals _ (with_history _ w1)).
    assert (He2 : chans w2 !! this = Some e1) by apply lookup_insert_eq.
    rewrite (bind_run _ _ _ _ _ (this_event_run _ _ _ He2)).
    cbn [_nextCallback e1].
    destruct (IH (pre ++ [(n, c)]) fuel this x w2 e1 u1) as (nx & u & t & Hrun & Ht).
    + done.
    + simpl. rewrite Hl. by rewrite <- app_assoc.
    + rewrite <- app_assoc. simpl. by rewrite nodes_app, nodes_cons.
    + done.
    + simpl in Hf. lia.
    + simpl. apply lookup_insert_eq.
    + exists nx, u, (Invoked n (cb_name c) u0 :: t). split.
      * rewrite Hrun. f_equal. apply world_eq; simpl; try done.
        -- rewrite insert_insert_eq. by rewrite <- app_assoc.
        -- by rewrite insert_insert_eq.
        -- by rewrite <- app_assoc.
      * constructor; [by exists u0|done].
Qed.

Lemma notify_passive_ref this x w e fuel (u0 : T) :
  chans w !! this = Some e → _enabled e = true →
  NoDup (nodes (_callbacks e)) →
  Forall passive (_callbacks e).*2 →
  length (_callbacks e) < fuel →
  vals w !! x = Some u0 →
  ∃ u t,
    notify fuel this (Ref x) w
    = Ok tt (mkWorld
               (<[this := mkEvent (_callbacks e) true (End this)]> (chans w))
               (cells w) (<[x := u]> (vals w)) (fresh w) (history w ++ t)) ∧
    called_in_order t (_callbacks e).
Proof.
  intros He Hen Hnd Hp Hf Hx. unfold notify.
  rewrite (bind_run _ _ _ _ _ (this_event_run _ _ _ He)). rewrite Hen.
  destruct (notify_loop_passive_ref (_callbacks e) [] fuel this x w e u0)
    as (nx & u & t & Hrun & Ht); try done.
  rewrite (bind_run _ _ _ _ _ Hrun).
  erewrite set_nextCallback_run by (simpl; apply lookup_insert_eq).
  exists u, t. split; [|done].
  f_equal. apply world_eq; simpl; try done.
  by rewrite insert_insert_eq, Hen.
Qed.

(** Whatever the kind of argument, a dispatch over passive callbacks
    completes and calls each callback of the list once, in list order. *)
Lemma notify_passive_any this (a : Arg T) w e fuel :
  chans w !! this = Some e → _enabled e = true →
  NoDup (nodes (_callbacks e)) →
  Forall passive (_callbacks e).*2 →
  length (_callbacks e) < fuel →
  readable a w →
  ∃ w' t,
    notify fuel this a w = Ok tt w' ∧
    chans w' = <[this := mkEvent (_callbacks e) true (End this)]> (chans w) ∧
    cells w' = cells w ∧ fresh w' = fresh w ∧
    history w' = history w ++ t ∧ called_in_order t (_callbacks e) ∧
    (∀ y, is_Some (vals w !! y) → is_Some (vals w' !! y)).
Proof.
  intros He Hen Hnd Hp Hf Hr. destruct a as [v|x].
  - eexists _, _. split; [by apply notify_passive|]. simpl.
    split_and!; try done. apply calls_in_order.
  - destruct Hr as [u0 Hx].
    destruct (notify_passive_ref this x w e fuel u0) as (u & t & Hrun & Ht); try done.
    eexists _, t. split; [exact Hrun|]. simpl. split_and!; try done.
    intros y Hy. rewrite lookup_insert. by case_decide.
Qed.

End OrderRef.

Section OrderTheorem.
Context {T : Type}.
Implicit Types (w : World T) (e : Event T) (this : chan).

(** C4: after any sequence of [add] calls on an enabled channel, the
    list holds the front-inserted callbacks, latest first, then the
    callbacks that were there before, then the back-inserted ones in
    insertion order; [notify] calls exactly the callbacks of the list,
    once each and in list order, and with a value argument each of them
    receives that value. *)
Theorem C4_dispatch_order this (w : World T) e ops (a : Arg T) :
  chans w !! this = Some e →
  _enabled e = true →
  NoDup (nodes (_callbacks e)) →
  Forall (λ n, n < fresh w) (nodes (_callbacks e)) →
  Forall passive (_callbacks e).*2 →
  Forall passive ops.*1 →
  readable a w →
  ∃ ids l w1,
    add_all this ops w = Ok ids w1 ∧
    chans w1 !! this = Some (mkEvent l true (_nextCallback e)) ∧
    l.*2 = reverse (fronts ops) ++ (_callbacks e).*2 ++ backs ops ∧
    ∀ fuel, length l < fuel →
      ∃ w2 t,
        notify fuel this a w1 = Ok tt w2 ∧
        history w2 = history w1 ++ t ∧
        called_in_order t l ∧
        (∀ v, a = Val v → t = calls v l).
Proof.
  intros He Hen Hnd Hlt Hp Hops Hr.
  destruct (add_all_run ops this w e He)
    as (ids & l & Hrun & Hl & news & Hperm & Hnews & Hge).
  rewrite Hen in Hrun.
  eexists ids, l, _. split; [exact Hrun|].
  split; [apply lookup_insert_eq|]. split; [exact Hl|].
  intros fuel Hf.
  set (w1 := with_chans _ (with_fresh _ w)).
  assert (He1 : chans w1 !! this = Some (mkEvent l true (_nextCallback e)))
    by apply lookup_insert_eq.
  assert (Hnd1 : NoDup (nodes l)).
  { rewrite Hperm. apply NoDup_app. split; [done|]. split; [|done].
    intros n Hn Hold. apply Hge in Hn.
    rewrite Forall_forall in Hlt. apply Hlt in Hold. lia. }
  assert (Hp1 : Forall passive l.*2).
  { rewrite Hl. apply Forall_app. split.
    - apply Forall_reverse. by apply passive_filtered.
    - apply Forall_app. split; [done|]. by apply passive_filtered. }
  destruct a as [v|x].
  - eexists _, (calls v l).
    split; [by apply (notify_passive this v w1 _ fuel He1)|].
    split; [done|]. split; [apply calls_in_order|]. by intros ? [= ->].
  - destruct (notify_passive_any this (Ref x) w1 _ fuel He1)
      as (w2 & t & Hn & _ & _ & _ & Hh & Ht & _); try done.
    exists w2, t. by split_and!.
Qed.

End OrderTheorem.

Lemma C4_dispatch_order_witness :
  ∃ ids w1 w2,
    add_all 0 [(cbA, false); (cbB, true)] fresh_channel = Ok ids w1 ∧
    chans w1 !! 0 = Some (mkEvent [(2, cbB); (1, cbA)] true (End 0)) ∧
    notify 3 0 (Val 7%Z) w1 = Ok tt w2 ∧
    history w2 = [Invoked 2 2 7%Z; Invoked 1 1 7%Z].
Proof.
  destruct (C4_dispatch_order 0 fresh_channel (mkEvent [] true (End 0))
              [(cbA, false); (cbB, true)] (Val 7%Z))
    as (ids & l & w1 & Hrun & Hw1 & Hl & Hn).
  - reflexivity.
  - reflexivity.
  - constructor.
  - constructor.
  - constructor.
  - repeat constructor.
  - exact I.
  - vm_compute in Hrun. injection Hrun as <- <-.
    vm_compute in Hw1. injection Hw1 as <-.
    destruct (Hn 3) as (w2 & t & Hrun2 & Hh & _ & Ht); [simpl; lia|].
    eexists _, _, w2. split; [reflexivity|]. split; [reflexivity|].
    split; [exact Hrun2|]. rewrite Hh. by rewrite (Ht _ eq_refl).
Defined.

(** ** Observable values *)

Section Observable.
Context {T : Type}.
Implicit Types (w : World T) (e : Event T) (val : Value.t).

Lemma Value_set_run by_ref fuel val (v old : T) w :
  vals w !! Value._t val = Some old →
  Value.set by_ref fuel val v w
  = notify fuel (Value._e val)
      (if by_ref then Ref (Value._t val) else Val v)
      (with_vals (insert (Value._t val) v) w).
Proof.
  intros Hold. unfold Value.set, Value.notify, pass, store_val, bind at 1.
  rewrite Hold. destruct by_ref; [done|].
  unfold bind at 1, bind at 1, load_val, lift. simpl.
  by rewrite lookup_insert_eq.
Qed.

Lemma Value_get_run val (u : T) w :
  vals w !! Value._t val = Some u → Value.get val w = Ok u w.
Proof. intros Hu. unfold Value.get, load_val. by rewrite Hu. Qed.

(** One [set] on a value with passive listeners: it completes and calls
    every listener once, in order, the first of them with the new
    value. *)
Lemma Value_set_passive by_ref fuel val (v old : T) w e :
  vals w !! Value._t val = Some old →
  chans w !! Value._e val = Some e → _enabled e = true →
  NoDup (nodes (_callbacks e)) →
  Forall passive (_callbacks e).*2 →
  length (_callbacks e) < fuel →
  ∃ w' t,
    Value.set by_ref fuel val v w = Ok tt w' ∧
    chans w' !! Value._e val
    = Some (mkEvent (_callbacks e) true (End (Value._e val))) ∧
    is_Some (vals w' !! Value._t val) ∧
    history w' = history w ++ t ∧
    called_in_order t (_callbacks e) ∧
    (∀ n c l, _callbacks e = (n, c) :: l → ∃ t', t = Invoked n (cb_name c) v :: t').
Proof.
  intros Hold He Hen Hnd Hp Hf.
  rewrite (Value_set_run _ _ _ _ _ _ Hold).
  set (w1 := with_vals _ w). set (a := if by_ref then _ else _).
  assert (Hv1 : vals w1 !! Value._t val = Some v) by apply lookup_insert_eq.
  assert (Ha : arg_value a w1 = Ok v w1).
  { unfold a. destruct by_ref; simpl; [|done]. unfold load_val. by rewrite Hv1. }
  destruct (notify_passive_any (Value._e val) a w1 e fuel)
    as (w' & t & Hrun & Hch & _ & _ & Hh & Ht & Hdom); try done.
  { unfold a. destruct by_ref; simpl; [|done]. by exists v. }
  exists w', t. split; [done|].
  split; [rewrite Hch; apply lookup_insert_eq|].
  split; [apply Hdom; by exists v|]. split; [done|]. split; [done|].
  intros n c l Hl.
  destruct (notify_starts_at_begin fuel (Value._e val) a w1 e n c l tt w')
    as (v' & t' & Hv' & Hh'); try done.
  rewrite Ha in Hv'. injection Hv' as <-.
  exists t'. rewrite Hh in Hh'. by apply app_inv_head in Hh'.
Qed.

(** C9 (amended): [set] assigns and then dispatches once, whatever the
    old value was; with a value-typed channel argument every callback
    receives the new value and [get] returns it afterwards; with
    passive listeners, setting twice dispatches twice, each dispatch
    calling every listener once and starting with the new value; [get]
    only reads. *)
Theorem C9_set_always_notifies val (w : World T) (old v : T) fuel :
  vals w !! Value._t val = Some old →
  (∀ by_ref,
      Value.set by_ref fuel val v w
      = notify fuel (Value._e val)
          (if by_ref then Ref (Value._t val) else Val v)
          (with_vals (insert (Value._t val) v) w)) ∧
  (∀ w' u, vals w' !! Value._t val = Some u → Value.get val w' = Ok u w') ∧
  (∀ w', Value.set false fuel val v w = Ok tt w' →
         Value.get val w' = Ok v w' ∧
         ∃ t, history w' = history w ++ t ∧ delivers v t) ∧
  (∀ by_ref e,
      chans w !! Value._e val = Some e → _enabled e = true →
      NoDup (nodes (_callbacks e)) →
      Forall passive (_callbacks e).*2 →
      length (_callbacks e) < fuel →
      ∃ w1 w2 t1 t2,
        Value.set by_ref fuel val v w = Ok tt w1 ∧
        Value.set by_ref fuel val v w1 = Ok tt w2 ∧
        history w1 = history w ++ t1 ∧ history w2 = history w1 ++ t2 ∧
        called_in_order t1 (_callbacks e) ∧ called_in_order t2 (_callbacks e) ∧
        (∀ n c l, _callbacks e = (n, c) :: l →
           ∃ t1' t2', t1 = Invoked n (cb_name c) v :: t1' ∧
                      t2 = Invoked n (cb_name c) v :: t2')).
Proof.
  intros Hold. split_and!.
  - intros by_ref. by eapply Value_set_run.
  - intros w' u. apply Value_get_run.
  - intros w' H. rewrite (Value_set_run _ _ _ _ _ _ Hold) in H.
    apply notify_by_value in H as (Hv & t & Hh & Hd).
    split; [|by exists t].
    apply Value_get_run. rewrite Hv. simpl. apply lookup_insert_eq.
  - intros by_ref e He Hen Hnd Hp Hf.
    destruct (Value_set_passive by_ref fuel val v old w e)
      as (w1 & t1 & Hrun1 & He1 & [u Hu] & Hh1 & Ht1 & Hfirst1); try done.
    destruct (Value_set_passive by_ref fuel val v u w1 _ Hu He1)
      as (w2 & t2 & Hrun2 & He2 & _ & Hh2 & Ht2 & Hfirst2); try done.
    exists w1, w2, t1, t2. split_and!; try done.
    intros n c l Hl.
    destruct (Hfirst1 _ _ _ Hl) as [t1' ->].
    destruct (Hfirst2 _ _ _ Hl) as [t2' ->]. eauto.
Qed.

End Observable.

(** C9 (as stated) fails for [Value<int, int&>]: after [set(5)] the
    listener has incremented the stored value and [get()] returns 6. *)
Lemma C9_counterexample_get_after_set :
  ∃ w, set_then_get_by_reference empty_world = Ok 6%Z w.
Proof. eexists. vm_compute. reflexivity. Qed.

Lemma C9_set_always_notifies_witness :
  vals observable_store !! Value._t observable = Some 0%Z ∧
  ∃ w1 w2,
    Value.set false 2 observable 5%Z observable_store = Ok tt w1 ∧
    Value.set false 2 observable 5%Z w1 = Ok tt w2 ∧
    history w2 = [Invoked 1 1 5%Z; Invoked 1 1 5%Z] ∧
    Value.get observable w2 = Ok 5%Z w2.
Proof.
  split; [reflexivity|].
  destruct (C9_set_always_notifies observable observable_store 0%Z 5%Z 2 eq_refl)
    as (_ & Hget & _ & Htwice).
  destruct (Htwice false (mkEvent [(1, cbA)] true (End 0)))
    as (w1 & w2 & t1 & t2 & Hrun1 & Hrun2 & _).
  - reflexivity.
  - reflexivity.
  - repeat constructor. apply not_elem_of_nil.
  - repeat constructor.
  - simpl. lia.
  - exists w1, w2. split; [exact Hrun1|]. split; [exact Hrun2|].
    vm_compute in Hrun1. injection Hrun1 as <-.
    vm_compute in Hrun2. injection Hrun2 as <-.
    split; [reflexivity|]. apply Hget. reflexivity.
Defined.

(** ** Which nodes a dispatch can call *)

Section Reach.
Context {T : Type}.
Implicit Types (w : World T) (e : Event T) (this ch : chan).

Lemma list_erase_sublist (l l' : list (node * Callback T)) n :
  list_erase l n = Some l' → l' `sublist_of` l.
Proof.
  intros (pre & c & post & -> & _ & ->)%list_erase_some. apply sublist_app_erase.
Qed.

Lemma list_deref_elem (l : list (node * Callback T)) n c :
  list_deref l n = Some c → n ∈ nodes l.
Proof.
  induction l as [|[m c'] l IH]; [done|]. rewrite nodes_cons. simpl.
  destruct (decide (m = n)) as [->|Hne].
  - intros _. left.
  - intros H. right. by apply IH.
Qed.

(** Statements report no calls. *)
Lemma run_stmt_no_calls self (a : Arg T) s w r w' :
  run_stmt self a s w = Ok r w' → ∃ t, history w' = history w ++ t ∧ invoked t = [].
Proof.
  destruct s as [e h|e h c first|e b|f|e h first|]; simpl; intros H.
  - apply remove_ok in H
      as (e0 & cv & _ & _ & [[_ ->]|(n & l & nx & _ & _ & _ & _ & _ & _ & _ & Hh)]).
    + exists []. by rewrite app_nil_r.
    + by exists [Erased n].
  - inv_ok. match goal with H : add _ _ _ _ = _ |- _ =>
      apply add_ok in H as (e0 & _ & _ & ->) end.
    exists []. by rewrite app_nil_r.
  - inv_ok. exists []. by rewrite app_nil_r.
  - destruct a; inv_ok; exists []; by rewrite app_nil_r.
  - inv_ok. match goal with H : add _ _ _ _ = _ |- _ =>
      apply add_ok in H as (e0 & _ & _ & ->) end.
    exists []. by rewrite app_nil_r.
  - done.
Qed.

Lemma run_body_no_calls self (a : Arg T) ss w r w' :
  run_body self a ss w = Ok r w' → ∃ t, history w' = history w ++ t ∧ invoked t = [].
Proof.
  revert w. induction ss as [|s ss IH]; intros w H; simpl in H; inv_ok.
  - exists []. by rewrite app_nil_r.
  - match goal with H : run_stmt _ _ _ _ = _ |- _ =>
      apply run_stmt_no_calls in H as (t1 & Hh1 & Hi1) end.
    apply IH in H as (t2 & Hh2 & Hi2).
    exists (t1 ++ t2). split; [by rewrite Hh2, Hh1, app_assoc|].
    by rewrite invoked_app, Hi1, Hi2.
Qed.

(** Statements only erase nodes or add new ones. *)
Lemma run_stmt_nodes self (a : Arg T) s ch S f0 w r w' :
  run_stmt self a s w = Ok r w' →
  f0 ≤ fresh w → nodes_within ch S f0 w →
  f0 ≤ fresh w' ∧ nodes_within ch S f0 w'.
Proof.
  unfold nodes_within. intros H Hf Hin.
  destruct s as [e h|e h c first|e b|f|e h first|]; simpl in H.
  - apply remove_ok in H
      as (e0 & cv & He0 & _ & [[_ ->]|(n & l & nx & _ & Hl & _ & Hch & _ & _ & Hfr & _)]);
      [done|].
    split; [lia|]. intros e'. rewrite Hch, lookup_insert. case_decide as Hc.
    + intros [= <-]. subst e. simpl. eapply Forall_sublist; [|by apply Hin].
      apply nodes_sublist. by eapply list_erase_sublist.
    + apply Hin.
  - inv_ok. match goal with H : add _ _ _ _ = _ |- _ =>
      apply add_ok in H as (e0 & He0 & _ & ->) end. simpl.
    split; [lia|]. intros e'. simpl. rewrite lookup_insert. case_decide as Hc; [|apply Hin].
    intros [= <-]. subst e. specialize (Hin _ He0).
    cbn [_callbacks]. destruct first.
    + rewrite nodes_cons. constructor; [by right|done].
    + rewrite nodes_app. apply Forall_app. split; [done|].
      constructor; [by right|constructor].
  - inv_ok. simpl. split; [done|]. intros e'. rewrite lookup_insert.
    case_decide as Hc; [|apply Hin]. intros [= <-]. subst e. simpl. by apply Hin.
  - destruct a; inv_ok; simpl; done.
  - inv_ok. match goal with H : add _ _ _ _ = _ |- _ =>
      apply add_ok in H as (e0 & He0 & _ & ->) end. simpl.
    split; [lia|]. intros e'. simpl. rewrite lookup_insert. case_decide as Hc; [|apply Hin].
    intros [= <-]. subst e. specialize (Hin _ He0).
    cbn [_callbacks]. destruct first.
    + rewrite nodes_cons. constructor; [by right|done].
    + rewrite nodes_app. apply Forall_app. split; [done|].
      constructor; [by right|constructor].
  - done.
Qed.

Lemma run_body_nodes self (a : Arg T) ss ch S f0 : ∀ w r w',
  run_body self a ss w = Ok r w' →
  f0 ≤ fresh w → nodes_within ch S f0 w →
  f0 ≤ fresh w' ∧ nodes_within ch S f0 w'.
Proof.
  induction ss as [|s ss IH]; intros w r w' H Hf Hin; simpl in H; inv_ok; [done|].
  match goal with H : run_stmt _ _ _ _ = _ |- _ =>
    destruct (run_stmt_nodes _ _ _ _ _ _ _ _ _ H Hf Hin) as [Hf1 Hin1] end.
  by eapply IH.
Qed.

Lemma notify_loop_nodes fuel this (a : Arg T) S f0 : ∀ c w r w',
  notify_loop fuel this a c w = Ok r w' →
  f0 ≤ fresh w → nodes_within this S f0 w →
  f0 ≤ fresh w' ∧ nodes_within this S f0 w' ∧
  ∃ t, history w' = history w ++ t ∧ Forall (live_or_new S f0) (invoked t).
Proof.
  induction fuel as [|fuel IH]; intros c w r w' H Hf Hin; simpl in H; [done|].
  destruct (decide (c = End this)) as [Hc|Hc]; inv_ok.
  { split; [done|]. split; [done|]. exists []. by rewrite app_nil_r. }
  destruct c as [|n]; [done|]. simpl in *.
  match goal with H : _ <$> list_deref _ _ = Some _ |- _ =>
    apply fmap_Some in H as (cb & Hd & ->) end. simpl in *.
  match goal with H : call _ _ _ _ = _ |- _ =>
    apply call_ok in H as (v & Hv & Hb) end.
  simplify_eq.
  assert (Hn : live_or_new S f0 n).
  { match goal with He : chans w !! this = Some ?e0 |- _ =>
      pose proof (Hin _ He) as Hall end.
    rewrite Forall_forall in Hall. apply Hall. by eapply list_deref_elem. }
  pose proof (run_body_no_calls _ _ _ _ _ _ Hb) as (t1 & Hh1 & Hi1).
  eapply run_body_nodes in Hb as [Hf1 Hin1]; [|exact Hf|].
  2:{ intros e'. simpl. rewrite lookup_insert_eq. intros [= <-]. simpl.
      by apply Hin. }
  destruct (IH _ _ _ _ H Hf1 Hin1) as (Hf2 & Hin2 & t2 & Hh2 & Hi2).
  split; [done|]. split; [done|].
  exists (Invoked n (cb_name cb) v :: t1 ++ t2). split.
  - rewrite Hh2, Hh1. simpl. by rewrite <- !app_assoc.
  - simpl. constructor; [done|]. by rewrite invoked_app, Hi1.
Qed.

(** A dispatch calls only nodes that were in the list when it started or
    were created since. *)
Lemma notify_reach fuel this (a : Arg T) w e r w' :
  chans w !! this = Some e →
  notify fuel this a w = Ok r w' →
  ∃ t, history w' = history w ++ t ∧
       Forall (live_or_new (nodes (_callbacks e)) (fresh w)) (invoked t).
Proof.
  intros He H. unfold notify in H. inv_ok. simplify_eq.
  destruct (_enabled e); inv_ok.
  - match goal with H : notify_loop _ _ _ _ _ = _ |- _ =>
      eapply (notify_loop_nodes _ _ _ (nodes (_callbacks e)) (fresh w)) in H
        as (_ & _ & t & Hh & Hi) end.
    + by exists t.
    + done.
    + intros e'. rewrite He. intros [= <-]. apply Forall_forall. by left.
  - exists []. by rewrite app_nil_r.
Qed.

End Reach.

(** ** Registries *)

Section Registry.
Context {T : Type}.
Implicit Types (w : World T) (e : Event T) (ch : chan).
Implicit Types (o : ScopedCallbackID.t) (os : list ScopedCallbackID.t).

Lemma ScopedCallbackID_ctor_run ch c first w e :
  chans w !! ch = Some e →
  ScopedCallbackID.ctor ch c first w
  = Ok (ScopedCallbackID.mk ch (S (fresh w)))
       (mkWorld
          (<[ch := mkEvent (if first then (fresh w, c) :: _callbacks e
                            else _callbacks e ++ [(fresh w, c)])
                     (_enabled e) (_nextCallback e)]> (chans w))
          (<[S (fresh w) := At (fresh w)]> (cells w))
          (vals w) (S (S (fresh w))) (history w)).
Proof.
  intros He. unfold ScopedCallbackID.ctor.
  by rewrite (bind_run _ _ _ _ _ (add_run _ c first _ _ He)).
Qed.

Lemma ScopedCallbackID_dtor_run o w e n c pre post :
  chans w !! ScopedCallbackID._event o = Some e →
  cells w !! ScopedCallbackID._cb o = Some (At n) →
  _callbacks e = pre ++ (n, c) :: post → n ∉ nodes pre →
  ∃ nx,
    ScopedCallbackID.dtor o w
    = Ok tt (mkWorld
               (<[ScopedCallbackID._event o := mkEvent (pre ++ post) (_enabled e) nx]>
                  (chans w))
               (delete (ScopedCallbackID._cb o) (cells w))
               (vals w) (fresh w) (history w ++ [Erased n])).
Proof.
  intros He Hc Hl Hn. unfold ScopedCallbackID.dtor.
  rewrite (bind_run _ _ _ _ _ (remove_run_node _ _ _ _ _ _ _ _ He Hc Hl Hn)).
  eexists. unfold free_cell. simpl. rewrite lookup_insert_eq.
  f_equal. apply world_eq; simpl; try done.
  by rewrite delete_insert_eq.
Qed.

Lemma filter_all {A} (P : A → Prop) `{!∀ x, Decision (P x)} (l : list A) :
  Forall P l → filter P l = l.
Proof.
  induction 1 as [|x l Hx _ IH]; [done|]. by rewrite filter_cons_True, IH.
Qed.

Lemma registry_inv_init w0 : bounded w0 → registry_inv w0 [] w0.
Proof.
  intros Hb. pose proof Hb as [Hch Hce]. split_and!; try done.
  - intros ch. destruct (chans w0 !! ch) as [e0|] eqn:He0; [|done].
    split; [|done]. apply filter_all.
    destruct (map_Forall_lookup_1 _ _ _ _ Hch He0) as [_ Hlt].
    rewrite Forall_forall in Hlt. apply Forall_forall.
    intros [n c] Hin. simpl. apply Hlt. by apply (list_elem_of_fmap_2 fst) in Hin.
  - intros ch e n He Hn Hge.
    destruct (map_Forall_lookup_1 _ _ _ _ Hch He) as [_ Hlt].
    rewrite Forall_forall in Hlt. apply Hlt in Hn. lia.
  - constructor.
  - by intros o1 o2 n ?%elem_of_nil.
Qed.

Lemma registry_owner_bounds w0 os w o :
  registry_inv w0 os w → o ∈ os →
  ScopedCallbackID._cb o < fresh w ∧
  ∀ n, cells w !! ScopedCallbackID._cb o = Some (At n) → n < fresh w.
Proof.
  intros ([Hch Hce] & _ & _ & Hown & _ & _ & _) Ho.
  rewrite Forall_forall in Hown. destruct (Hown _ Ho) as (n & e & Hc & _ & He & Hn).
  split; [by apply (map_Forall_lookup_1 _ _ _ _ Hce Hc)|].
  intros n' Hc'. simplify_eq.
  destruct (map_Forall_lookup_1 _ _ _ _ Hch He) as [_ Hlt].
  rewrite Forall_forall in Hlt. by apply Hlt.
Qed.

(** Subscribing through the registry keeps its state. *)
Lemma registry_inv_add w0 os w ch (c : Callback T) (first : bool) e :
  registry_inv w0 os w → chans w !! ch = Some e →
  registry_inv w0 (os ++ [ScopedCallbackID.mk ch (S (fresh w))])
    (mkWorld
       (<[ch := mkEvent (if first then (fresh w, c) :: _callbacks e
                         else _callbacks e ++ [(fresh w, c)])
                  (_enabled e) (_nextCallback e)]> (chans w))
       (<[S (fresh w) := At (fresh w)]> (cells w))
       (vals w) (S (S (fresh w))) (history w)).
Proof.
  intros Hinv He.
  pose proof Hinv as ([Hch Hce] & Hf & Hold & Hown & Hnew & Hnd & Hinj).
  destruct (map_Forall_lookup_1 _ _ _ _ Hch He) as [Hnde Hlte].
  assert (Hfresh : fresh w ∉ nodes (_callbacks e)).
  { intros Hin. rewrite Forall_forall in Hlte. apply Hlte in Hin. lia. }
  set (l' := if first then (fresh w, c) :: _callbacks e
             else _callbacks e ++ [(fresh w, c)]).
  assert (Hl' : ∀ m, m ∈ nodes l' ↔ m = fresh w ∨ m ∈ nodes (_callbacks e)).
  { intros m. unfold l'. destruct first.
    - rewrite nodes_cons, elem_of_cons. done.
    - rewrite nodes_app, elem_of_app. simpl. rewrite list_elem_of_singleton. tauto. }
  assert (Hcell : ∀ o, o ∈ os →
            <[S (fresh w) := At (fresh w)]> (cells w) !! ScopedCallbackID._cb o
            = cells w !! ScopedCallbackID._cb o).
  { intros o Ho. apply lookup_insert_ne.
    destruct (registry_owner_bounds _ _ _ _ Hinv Ho) as [Hlt _]. lia. }
  split_and!; simpl.
  - split; simpl.
    + apply map_Forall_insert_2.
      * simpl. split.
        -- unfold l'. destruct first.
           ++ rewrite nodes_cons. by constructor.
           ++ rewrite nodes_app. apply NoDup_app. split; [done|]. split.
              ** intros m Hm ->%list_elem_of_singleton. done.
              ** apply NoDup_singleton.
        -- apply Forall_forall. intros m [->|Hm]%Hl'; [lia|].
           rewrite Forall_forall in Hlte. apply Hlte in Hm. lia.
      * eapply map_Forall_impl; [exact Hch|]. intros ch' e' [Hnd' Hlt']. split; [done|].
        eapply Forall_impl; [exact Hlt'|]. intros; simpl in *; lia.
    + apply map_Forall_insert_2; [lia|].
      eapply map_Forall_impl; [exact Hce|]. intros; simpl in *; lia.
  - lia.
  - intros ch'. specialize (Hold ch'). rewrite lookup_insert. case_decide as Hc.
    + subst ch'. rewrite He in Hold. destruct (chans w0 !! ch); [|done].
      destruct Hold as [Hfil Hen]. split; [|done]. simpl. rewrite <- Hfil.
      unfold l'. destruct first.
      * rewrite filter_cons_False; [done|]. simpl. lia.
      * rewrite filter_app. rewrite filter_cons_False; [|simpl; lia].
        by rewrite filter_nil, app_nil_r.
    + done.
  - apply Forall_app. split.
    + rewrite Forall_forall in Hown. apply Forall_forall. intros o Ho.
      destruct (Hown _ Ho) as (n & e' & Hc' & Hge & He' & Hn).
      rewrite (Hcell _ Ho).
      destruct (decide (ScopedCallbackID._event o = ch)) as [Heq|Hne].
      * rewrite Heq in *. simplify_eq. eexists n, _. rewrite lookup_insert_eq.
        split_and!; try done. simpl. apply Hl'. by right.
      * exists n, e'. rewrite lookup_insert_ne by done. done.
    + constructor; [|constructor]. simpl. eexists (fresh w), _.
      rewrite !lookup_insert_eq. split_and!; try done. simpl. apply Hl'. by left.
  - intros ch' e' n. rewrite lookup_insert. case_decide as Hc.
    + subst ch'. intros [= <-]. simpl. intros [->|Hn]%Hl' Hge.
      * eexists. split; [apply elem_of_app; right; left|]. simpl.
        split; [done|]. apply lookup_insert_eq.
      * destruct (Hnew _ _ _ He Hn Hge) as (o & Ho & Hev & Hc').
        exists o. split; [apply elem_of_app; by left|]. split; [done|].
        by rewrite (Hcell _ Ho).
    + intros He' Hn Hge. destruct (Hnew _ _ _ He' Hn Hge) as (o & Ho & Hev & Hc').
      exists o. split; [apply elem_of_app; by left|]. split; [done|].
      by rewrite (Hcell _ Ho).
  - rewrite fmap_app. apply NoDup_app. split; [done|]. split; [|apply NoDup_singleton].
    intros p (o & -> & Ho)%list_elem_of_fmap Hp. simpl in Hp.
    apply list_elem_of_singleton in Hp.
    destruct (registry_owner_bounds _ _ _ _ Hinv Ho) as [Hlt _]. lia.
  - assert (Hnewo : ∀ o n, o ∈ os →
              cells w !! ScopedCallbackID._cb o = Some (At n) → n ≠ fresh w).
    { intros o n Ho Hc' ->.
      destruct (registry_owner_bounds _ _ _ _ Hinv Ho) as [_ Hlt].
      apply Hlt in Hc'. lia. }
    intros o1 o2 n [Ho1|Ho1%list_elem_of_singleton]%elem_of_app
      [Ho2|Ho2%list_elem_of_singleton]%elem_of_app.
    + rewrite (Hcell _ Ho1), (Hcell _ Ho2). by apply Hinj.
    + subst o2. rewrite (Hcell _ Ho1). simpl. rewrite lookup_insert_eq.
      intros Hc1 [= <-]. by destruct (Hnewo _ _ Ho1 Hc1).
    + subst o1. rewrite (Hcell _ Ho2). simpl. rewrite lookup_insert_eq.
      intros [= <-] Hc2. by destruct (Hnewo _ _ Ho2 Hc2).
    + by subst.
Qed.

(** Destroying the first owner removes its subscription and keeps the
    state of the registry for the others. *)
Lemma registry_inv_remove w0 o os w :
  registry_inv w0 (o :: os) w →
  ∃ w',
    ScopedCallbackID.dtor o w = Ok tt w' ∧
    registry_inv w0 os w' ∧
    cells w' = delete (ScopedCallbackID._cb o) (cells w) ∧
    fresh w' = fresh w ∧ vals w' = vals w.
Proof.
  intros Hinv.
  pose proof Hinv as ([Hch Hce] & Hf & Hold & Hown & Hnew & Hnd & Hinj).
  apply Forall_cons in Hown as [(n & e & Hc & Hge & He & Hn) Hown].
  apply NoDup_cons in Hnd as [Hcb Hnd].
  destruct (map_Forall_lookup_1 _ _ _ _ Hch He) as [Hnde Hlte].
  destruct (nodes_split _ _ Hn) as (pre & c & post & Hl & Hpre).
  destruct (ScopedCallbackID_dtor_run _ _ _ _ _ _ _ He Hc Hl Hpre) as [nx Hrun].
  eexists. split; [exact Hrun|]. split; [|done].
  rewrite Hl in Hnde, Hlte.
  assert (Hpost : n ∉ nodes (pre ++ post)).
  { rewrite nodes_app, nodes_cons in Hnde.
    apply NoDup_app in Hnde as (_ & Hd & Hnde). apply NoDup_cons in Hnde as [Hnp _].
    rewrite nodes_app, elem_of_app. intros [Hin|Hin]; [|done].
    apply (Hd _ Hin). left. }
  assert (Hsub : nodes (pre ++ post) `sublist_of` nodes (pre ++ (n, c) :: post)).
  { apply nodes_sublist, sublist_app_erase. }
  assert (Hother : ∀ o', o' ∈ os →
            ScopedCallbackID._cb o' ≠ ScopedCallbackID._cb o ∧
            ∀ n', cells w !! ScopedCallbackID._cb o' = Some (At n') → n' ≠ n).
  { intros o' Ho'. split.
    - intros Heq. apply Hcb. rewrite <- Heq. by apply list_elem_of_fmap_2.
    - intros n' Hc' ->.
      assert (o' = o) as -> by (eapply Hinj; [by right|by left|done|done]).
      apply Hcb. by apply list_elem_of_fmap_2. }
  split_and!; simpl.
  - split; simpl.
    + apply map_Forall_insert_2; [|done]. simpl. split.
      * eapply sublist_NoDup; [exact Hnde|done].
      * eapply Forall_sublist; [exact Hsub|done].
    + by apply map_Forall_delete.
  - done.
  - intros ch. specialize (Hold ch). rewrite lookup_insert. case_decide as Hcd; [|done].
    subst ch. rewrite He in Hold. destruct (chans w0 !! ScopedCallbackID._event o); [|done].
    destruct Hold as [Hfil Hen]. split; [|done]. simpl. rewrite <- Hfil, Hl.
    rewrite !filter_app. rewrite filter_cons_False; [done|]. simpl. lia.
  - rewrite Forall_forall in Hown. apply Forall_forall. intros o' Ho'.
    destruct (Hown _ Ho') as (n' & e' & Hc' & Hge' & He' & Hn').
    destruct (Hother _ Ho') as [Hcbne Hnne].
    rewrite lookup_delete_ne by done.
    destruct (decide (ScopedCallbackID._event o' = ScopedCallbackID._event o)) as [Heq|Hne].
    + rewrite Heq in *. simplify_eq. eexists n', _. rewrite lookup_insert_eq.
      split_and!; try done. simpl.
      rewrite Hl, nodes_app, nodes_cons, elem_of_app, elem_of_cons in Hn'.
      rewrite nodes_app, elem_of_app.
      destruct Hn' as [?|[->|?]]; [by left| |by right].
      by destruct (Hnne _ Hc').
    + exists n', e'. rewrite lookup_insert_ne by done. done.
  - intros ch e' m. rewrite lookup_insert. case_decide as Hcd.
    + subst ch. intros [= <-]. simpl. intros Hm Hgem.
      assert (Hm' : m ∈ nodes (_callbacks e)).
      { rewrite Hl. by eapply elem_of_sublist. }
      destruct (Hnew _ _ _ He Hm' Hgem) as (o' & [->|Ho']%elem_of_cons & Hev & Hc').
      * simplify_eq. done.
      * exists o'. split; [done|]. split; [done|].
        destruct (Hother _ Ho') as [Hcbne _]. by rewrite lookup_delete_ne.
    + intros He' Hm Hgem.
      destruct (Hnew _ _ _ He' Hm Hgem) as (o' & [->|Ho']%elem_of_cons & Hev & Hc').
      * done.
      * exists o'. split; [done|]. split; [done|].
        destruct (Hother _ Ho') as [Hcbne _]. by rewrite lookup_delete_ne.
  - done.
  - intros o1 o2 m Ho1 Ho2.
    destruct (Hother _ Ho1) as [Hne1 _]. destruct (Hother _ Ho2) as [Hne2 _].
    rewrite !lookup_delete_ne by done. apply Hinj; by right.
Qed.

(** Destroying all owners. *)
Lemma registry_inv_destroy w0 os : ∀ w,
  registry_inv w0 os w →
  ∃ w',
    ScopedCallbacksHolder.destroy os w = Ok tt w' ∧
    registry_inv w0 [] w' ∧
    (∀ p, cells w !! p = None → cells w' !! p = None) ∧
    Forall (λ o, cells w' !! ScopedCallbackID._cb o = None) os ∧
    fresh w' = fresh w ∧ vals w' = vals w.
Proof.
  induction os as [|o os IH]; intros w Hinv.
  - exists w. by split_and!.
  - destruct (registry_inv_remove _ _ _ _ Hinv) as (w1 & Hrun1 & Hinv1 & Hc1 & Hf1 & Hv1).
    destruct (IH _ Hinv1) as (w' & Hrun & Hinv' & Hnone & Hall & Hf & Hv).
    exists w'. cbn [ScopedCallbacksHolder.destroy].
    rewrite (bind_run _ _ _ _ _ Hrun1). split_and!; try done.
    + intros p Hp. apply Hnone. rewrite Hc1. rewrite lookup_delete. by case_decide.
    + constructor; [|done]. apply Hnone. rewrite Hc1. apply lookup_delete_eq.
    + congruence.
    + congruence.
Qed.

Lemma registry_inv_register w0 ops : ∀ os w,
  registry_inv w0 os w →
  Forall (λ op : chan * Callback T * bool, is_Some (chans w0 !! op.1.1)) ops →
  ∃ os' w',
    register ops (ScopedCallbacksHolder.mk os) w
    = Ok (ScopedCallbacksHolder.mk (os ++ os')) w' ∧
    registry_inv w0 (os ++ os') w' ∧
    length os' = length ops.
Proof.
  induction ops as [|[[ch c] first] ops IH]; intros os w Hinv Hops.
  - exists [], w. rewrite app_nil_r. by split_and!.
  - apply Forall_cons in Hops as [[e0 He0] Hops]. simpl in He0.
    assert (∃ e, chans w !! ch = Some e) as [e He].
    { destruct Hinv as (_ & _ & Hold & _). specialize (Hold ch).
      rewrite He0 in Hold. destruct (chans w !! ch); [eauto|done]. }
    pose proof (registry_inv_add _ _ _ _ c first _ Hinv He) as Hinv1.
    destruct (IH _ _ Hinv1 Hops) as (os' & w' & Hrun & Hinv' & Hlen).
    exists (ScopedCallbackID.mk ch (S (fresh w)) :: os'), w'.
    cbn [register]. unfold ScopedCallbacksHolder.addCallback.
    rewrite bind_assoc.
    rewrite (bind_run _ _ _ _ _ (ScopedCallbackID_ctor_run _ c first _ _ He)).
    unfold ret at 1, bind at 1. cbn [snd ScopedCallbacksHolder._callbacks].
    rewrite Hrun. rewrite <- app_assoc. simpl.
    split; [done|]. split; [by rewrite <- app_assoc in Hinv'|]. by rewrite Hlen.
Qed.

(** With no owner left, every channel holds what it held at first. *)
Lemma registry_inv_empty w0 w ch e0 :
  registry_inv w0 [] w → chans w0 !! ch = Some e0 →
  ∃ e, chans w !! ch = Some e ∧
       _callbacks e = _callbacks e0 ∧ _enabled e = _enabled e0.
Proof.
  intros (_ & _ & Hold & _ & Hnew & _) He0. specialize (Hold ch).
  rewrite He0 in Hold. destruct (chans w !! ch) as [e|] eqn:He; [|done].
  destruct Hold as [Hfil Hen]. exists e. split; [done|]. split; [|done].
  rewrite <- Hfil. symmetry. apply filter_all, Forall_forall.
  intros [n c] Hin. simpl.
  destruct (decide (n < fresh w0)) as [|Hge]; [done|].
  destruct (Hnew ch e n He) as (o & Ho & _); [|lia|by apply elem_of_nil in Ho].
  by apply (list_elem_of_fmap_2 fst) in Hin.
Qed.

(** C8: after [N] subscriptions through a registry, [removeAllCallbacks]
    and the destructor both complete, destroy every owner and remove each
    of the [N] subscriptions from its channel, leaving every channel with
    the callbacks it had before; a second [removeAllCallbacks] changes
    nothing; and a later [notify] on any channel calls none of the [N]
    callbacks. *)
Theorem C8_registry_teardown (w0 : World T) (ops : list (chan * Callback T * bool)) :
  bounded w0 →
  Forall (λ op, is_Some (chans w0 !! op.1.1)) ops →
  ∃ h w1 w2,
    register ops ScopedCallbacksHolder.ctor w0 = Ok h w1 ∧
    length (ScopedCallbacksHolder._callbacks h) = length ops ∧
    ScopedCallbacksHolder.removeAllCallbacks h w1 = Ok ScopedCallbacksHolder.ctor w2 ∧
    ScopedCallbacksHolder.dtor h w1 = Ok tt w2 ∧
    ScopedCallbacksHolder.removeAllCallbacks ScopedCallbacksHolder.ctor w2
    = Ok ScopedCallbacksHolder.ctor w2 ∧
    Forall (λ o, ∃ n e1 e2,
              cells w1 !! ScopedCallbackID._cb o = Some (At n) ∧
              chans w1 !! ScopedCallbackID._event o = Some e1 ∧
              n ∈ nodes (_callbacks e1) ∧
              cells w2 !! ScopedCallbackID._cb o = None ∧
              chans w2 !! ScopedCallbackID._event o = Some e2 ∧
              (n ∉ nodes (_callbacks e2)) ∧
              ∀ ch fuel a w3, notify fuel ch a w2 = Ok tt w3 →
                ∃ t, history w3 = history w2 ++ t ∧ n ∉ invoked t)
           (ScopedCallbacksHolder._callbacks h) ∧
    (∀ ch e0, chans w0 !! ch = Some e0 →
       ∃ e2, chans w2 !! ch = Some e2 ∧
             _callbacks e2 = _callbacks e0 ∧ _enabled e2 = _enabled e0).
Proof.
  intros Hb Hops.
  destruct (registry_inv_register w0 ops [] w0 (registry_inv_init _ Hb) Hops)
    as (os & w1 & Hreg & Hinv1 & Hlen).
  destruct (registry_inv_destroy w0 os w1 Hinv1)
    as (w2 & Hdes & Hinv2 & _ & Hfreed & Hf2 & _).
  simpl in Hreg, Hinv1.
  exists (ScopedCallbacksHolder.mk os), w1, w2.
  split; [exact Hreg|]. split; [exact Hlen|].
  split; [unfold ScopedCallbacksHolder.removeAllCallbacks; simpl;
          by rewrite (bind_run _ _ _ _ _ Hdes)|].
  split; [exact Hdes|]. split; [done|].
  split; [|intros ch e0; by apply registry_inv_empty].
  pose proof Hinv1 as ([Hch1 _] & _ & Hold1 & Hown1 & _).
  rewrite Forall_forall in Hown1, Hfreed. apply Forall_forall. intros o Ho.
  destruct (Hown1 _ Ho) as (n & e1 & Hc1 & Hge & He1 & Hn1).
  assert (Hlt : n < fresh w1).
  { destruct (map_Forall_lookup_1 _ _ _ _ Hch1 He1) as [_ Hlt].
    rewrite Forall_forall in Hlt. by apply Hlt. }
  assert (Hgone : ∀ ch e2, chans w2 !! ch = Some e2 → n ∉ nodes (_callbacks e2)).
  { intros ch e2 He2 Hin. destruct Hinv2 as (_ & _ & _ & _ & Hnew2 & _).
    destruct (Hnew2 _ _ _ He2 Hin Hge) as (o' & Ho' & _). by apply elem_of_nil in Ho'. }
  assert (∃ e2, chans w2 !! ScopedCallbackID._event o = Some e2) as [e2 He2].
  { specialize (Hold1 (ScopedCallbackID._event o)). rewrite He1 in Hold1.
    destruct (chans w0 !! ScopedCallbackID._event o) as [e0|] eqn:He0; [|done].
    destruct (registry_inv_empty _ _ _ _ Hinv2 He0) as (e2 & He2 & _). eauto. }
  exists n, e1, e2. split_and!; try done.
  - by apply Hfreed.
  - by eapply Hgone.
  - intros ch fuel a w3 Hn.
    assert (∃ e, chans w2 !! ch = Some e) as [e He].
    { unfold notify in Hn. inv_ok. eauto. }
    destruct (notify_reach _ _ _ _ _ _ _ He Hn) as (t & Hh & Hreach).
    exists t. split; [done|]. intros Hin.
    rewrite Forall_forall in Hreach. destruct (Hreach _ Hin) as [Hlive|Hnew].
    + by eapply Hgone.
    + lia.
Qed.

End Registry.

Lemma C8_registry_teardown_witness :
  ∃ h w1 w2,
    register [(0, cbB, false); (1, cbA, true); (0, cbA, true)]
      ScopedCallbacksHolder.ctor two_channels = Ok h w1 ∧
    chans w1 !! 0 = Some (mkEvent [(7, cbA); (2, cbA); (3, cbB)] true (End 0)) ∧
    ScopedCallbacksHolder.removeAllCallbacks h w1 = Ok ScopedCallbacksHolder.ctor w2 ∧
    chans w2 = chans two_channels.
Proof.
  destruct (C8_registry_teardown two_channels
              [(0, cbB, false); (1, cbA, true); (0, cbA, true)])
    as (h & w1 & w2 & Hreg & _ & Hrm & _).
  - unfold bounded. refine (bool_decide_unpack _ _). vm_compute. exact I.
  - refine (bool_decide_unpack _ _). vm_compute. exact I.
  - exists h, w1, w2. vm_compute in Hreg. injection Hreg as <- <-.
    split; [reflexivity|]. split; [reflexivity|]. split; [exact Hrm|].
    vm_compute in Hrm. injection Hrm as <-. reflexivity.
Defined.

(** ** [ScopedCallbackID::replace] *)

Section OwnerReplace.
Context {T : Type}.
Implicit Types (w : World T) (e : Event T) (ch : chan).
Implicit Types (o : ScopedCallbackID.t).

Lemma observe_all_run (os : list (Obs T)) w :
  observe_all os w = Ok tt (with_history (λ h, h ++ os) w).
Proof.
  revert w. induction os as [|x os IH]; intros w; simpl.
  - unfold ret. f_equal. apply world_eq; simpl; try done. by rewrite app_nil_r.
  - unfold bind, observe. rewrite IH. f_equal. apply world_eq; simpl; try done.
    by rewrite <- app_assoc.
Qed.

Lemma copy_elements_run (cs : list (Callback T)) : ∀ w,
  ∃ l, copy_elements cs w = Ok l (with_fresh (fresh w + length cs) w) ∧ l.*2 = cs.
Proof.
  induction cs as [|c cs IH]; intros w.
  - exists []. split; [|done]. simpl. unfold ret. f_equal.
    apply world_eq; simpl; try done; lia.
  - destruct (IH (with_fresh (S (fresh w)) w)) as (l & Hrun & Hl).
    exists ((fresh w, c) :: l). split; [|by rewrite fmap_cons, Hl].
    simpl. unfold bind at 1, new_id. rewrite (bind_run _ _ _ _ _ Hrun).
    unfold ret. f_equal. apply world_eq; simpl; try done; lia.
Qed.

(** The copy assignment between two different channels. *)
Lemma assign_run this other w e eo :
  this ≠ other →
  chans w !! this = Some e → chans w !! other = Some eo →
  ∃ l,
    assign this other w
    = Ok tt (mkWorld
               (<[this := mkEvent l (_enabled eo) (_nextCallback eo)]> (chans w))
               (cells w) (vals w)
               (fresh w + length (_callbacks eo))
               (history w ++ (Erased <$> nodes (_callbacks e)))) ∧
    l.*2 = (_callbacks eo).*2.
Proof.
  intros Hne He Heo. unfold assign.
  rewrite (bind_run _ _ _ _ _ (this_event_run _ _ _ He)).
  rewrite (bind_run _ _ _ _ _ (this_event_run _ _ _ Heo)).
  rewrite decide_False by done.
  rewrite (bind_run _ _ _ _ _ (observe_all_run _ _)).
  destruct (copy_elements_run (_callbacks eo).*2
              (with_history (λ h, h ++ (Erased <$> nodes (_callbacks e))) w))
    as (l & Hrun & Hl).
  exists l. split; [|done]. rewrite (bind_run _ _ _ _ _ Hrun).
  unfold set_event. f_equal. apply world_eq; simpl; try done.
  by rewrite length_fmap.
Qed.

(** C1 (what the code does): when [replace] is given a channel other
    than the owner's, the owner's own channel receives a copy of the
    other channel's state (the callbacks it had are gone) and then the
    new callback; the other channel is left as it was and the owner stays
    bound to its own channel. *)
Theorem C1_replace_assigns_over_own_channel o event (c : Callback T) (first : bool)
    w eA eB n :
  ScopedCallbackID._event o ≠ event →
  chans w !! ScopedCallbackID._event o = Some eA →
  chans w !! event = Some eB →
  cells w !! ScopedCallbackID._cb o = Some (At n) →
  n ∈ nodes (_callbacks eA) →
  ∃ w' eA' m,
    ScopedCallbackID.replace o event c first w = Ok tt w' ∧
    chans w' !! event = Some eB ∧
    chans w' !! ScopedCallbackID._event o = Some eA' ∧
    (_callbacks eA').*2 = (if first then c :: (_callbacks eB).*2
                           else (_callbacks eB).*2 ++ [c]) ∧
    _enabled eA' = _enabled eB ∧
    _nextCallback eA' = _nextCallback eB ∧
    cells w' !! ScopedCallbackID._cb o = Some (At m) ∧
    m ∈ nodes (_callbacks eA').
Proof.
  intros Hne HeA HeB Hc Hn.
  destruct (nodes_split _ _ Hn) as (pre & c0 & post & Hl & Hpre).
  unfold ScopedCallbackID.replace.
  rewrite (bind_run _ _ _ _ _ (remove_run_node _ _ _ _ _ _ _ _ HeA Hc Hl Hpre)).
  set (w1 := mkWorld _ _ _ _ _).
  assert (HeA1 : chans w1 !! ScopedCallbackID._event o
                 = Some (mkEvent (pre ++ post) (_enabled eA)
                           (if decide (At n = _nextCallback eA)
                            then list_begin (ScopedCallbackID._event o) post
                            else _nextCallback eA))) by apply lookup_insert_eq.
  assert (HeB1 : chans w1 !! event = Some eB).
  { unfold w1. simpl. by rewrite lookup_insert_ne. }
  destruct (assign_run _ _ _ _ _ Hne HeA1 HeB1) as (l & Hrun & Hlc).
  rewrite (bind_run _ _ _ _ _ Hrun).
  set (w2 := mkWorld _ _ _ _ _).
  assert (HeA2 : chans w2 !! ScopedCallbackID._event o
                 = Some (mkEvent l (_enabled eB) (_nextCallback eB)))
    by apply lookup_insert_eq.
  rewrite (bind_run _ _ _ _ _ (add_run _ c first _ _ HeA2)).
  unfold store. simpl. rewrite lookup_insert_eq.
  eexists _, _, (fresh w2). split; [reflexivity|]. simpl.
  rewrite !lookup_insert_eq. rewrite !lookup_insert_ne by done.
  split; [done|]. split; [done|]. cbn [_callbacks _enabled _nextCallback].
  split; [destruct first; [by rewrite fmap_cons, Hlc|by rewrite fmap_app, Hlc]|].
  split; [done|]. split; [done|]. split; [done|].
  destruct first.
  - rewrite nodes_cons. left.
  - rewrite nodes_app. apply elem_of_app. right. left.
Qed.

End OwnerReplace.

Lemma C1_replace_assigns_over_own_channel_witness :
  ∃ w',
    ScopedCallbackID.replace (ScopedCallbackID.mk 0 5) 1 (Cb 3 []) false owner_store
    = Ok tt w' ∧
    chans w' !! 1 = Some (mkEvent [(4, Cb 4 [])] true (End 1)) ∧
    chans w' !! 0 = Some (mkEvent [(6, Cb 4 []); (7, Cb 3 [])] true (End 1)).
Proof.
  destruct (C1_replace_assigns_over_own_channel (ScopedCallbackID.mk 0 5) 1
              (Cb 3 []) false owner_store
              (mkEvent [(2, Cb 1 []); (3, Cb 2 [])] true (End 0))
              (mkEvent [(4, Cb 4 [])] true (End 1)) 2)
    as (w' & eA' & m & Hrun & _).
  - simpl. lia.
  - reflexivity.
  - reflexivity.
  - reflexivity.
  - refine (bool_decide_unpack _ _). vm_compute. exact I.
  - exists w'. split; [exact Hrun|].
    vm_compute in Hrun. injection Hrun as <-. split; reflexivity.
Defined.

(** C1 on a concrete run: the other subscriber of [a] is gone, the new
    callback is in [a], and [b] has no subscriber. *)
Lemma C1_replace_to_other_channel_run :
  ∃ w,
    replace_to_other_channel empty_world = Ok (ScopedCallbackID.mk 0 3, 0, 1) w ∧
    chans w !! 0 = Some (mkEvent [(6, Cb 3 [])] true (End 1)) ∧
    chans w !! 1 = Some (mkEvent [] true (End 1)).
Proof. eexists. split; [vm_compute; reflexivity|]. split; reflexivity. Qed.

(** * Further properties of the header *)

(** ** Removing outside a dispatch *)

Section RemoveAlone.
Context {T : Type}.
Implicit Types (w : World T) (e : Event T) (this : chan).
Implicit Types (l pre post : list (node * Callback T)).

Lemma store_run h (c cv : CallbackID) w :
  cells w !! h = Some cv → store h c w = Ok tt (with_cells (insert h c) w).
Proof. intros Hh. unfold store. by rewrite Hh. Qed.

Lemma filter_other_nodes pre n c post :
  NoDup (nodes (pre ++ (n, c) :: post)) →
  filter (λ nc, nc.1 ≠ n) (pre ++ (n, c) :: post) = pre ++ post.
Proof.
  rewrite nodes_app, nodes_cons. intros Hnd.
  apply NoDup_app in Hnd as (_ & Hd & Hnd). apply NoDup_cons in Hnd as [Hn _].
  rewrite filter_app, filter_cons_False by (simpl; intros H; by apply H).
  rewrite !filter_all; [done| |].
  - apply Forall_forall. intros [m c'] Hin. simpl. intros ->. apply Hn.
    by apply (list_elem_of_fmap_2 fst) in Hin.
  - apply Forall_forall. intros [m c'] Hin. simpl. intros ->.
    apply (Hd n); [|left]. by apply (list_elem_of_fmap_2 fst) in Hin.
Qed.

(** X1: [remove] with a handle of a registered callback erases exactly
    that node (the other callbacks keep their order), leaves the flag
    alone, never leaves the cursor on the erased node, calls nobody, and
    writes the empty sentinel into the caller's handle, so that a second
    [remove] with the same handle changes nothing. *)
Theorem remove_erases_and_resets_handle this (w : World T) e h n :
  chans w !! this = Some e →
  cells w !! h = Some (At n) →
  NoDup (nodes (_callbacks e)) →
  n ∈ nodes (_callbacks e) →
  ∃ w' nx,
    remove this h w = Ok tt w' ∧
    chans w' = <[this := mkEvent (filter (λ nc, nc.1 ≠ n) (_callbacks e))
                            (_enabled e) nx]> (chans w) ∧
    (At n ≠ _nextCallback e → nx = _nextCallback e) ∧
    nx ≠ At n ∧
    cells w' = <[h := End this]> (cells w) ∧
    vals w' = vals w ∧
    history w' = history w ++ [Erased n] ∧
    remove this h w' = Ok tt w'.
Proof.
  intros He Hh Hnd Hn.
  destruct (nodes_split _ _ Hn) as (pre & c & post & Hl & Hpre).
  rewrite (remove_run_node _ _ _ _ _ _ _ _ He Hh Hl Hpre).
  eexists _, _. split; [reflexivity|]. simpl.
  rewrite Hl in Hnd. rewrite Hl, (filter_other_nodes _ _ _ _ Hnd).
  split; [reflexivity|]. split; [intros Hne; by rewrite decide_False|].
  split.
  { destruct (decide (At n = _nextCallback e)) as [Heq|Hne]; [|done].
    intros (c' & post' & ->)%list_begin_node.
    rewrite nodes_app, !nodes_cons in Hnd.
    apply NoDup_app in Hnd as (_ & _ & Hnd). apply NoDup_cons in Hnd as [Hnd _].
    apply Hnd. left. }
  split; [done|]. split; [done|]. split; [done|].
  eapply remove_run_empty; simpl; apply lookup_insert_eq.
Qed.

(** X2: subscribing a callback and removing it again through the handle
    [add] returned leaves every channel exactly as it was, whether the
    callback was inserted at the front or at the back; the handle ends up
    empty. *)
Theorem add_then_remove_restores this (w : World T) e c (first : bool) h :
  chans w !! this = Some e →
  Forall (λ n, n < fresh w) (nodes (_callbacks e)) →
  cursor_in_list this e →
  is_Some (cells w !! h) →
  ∃ w',
    (id <- add this c first;; store h id;; remove this h) w = Ok tt w' ∧
    chans w' = chans w ∧
    cells w' = <[h := End this]> (cells w) ∧
    vals w' = vals w ∧
    history w' = history w ++ [Erased (fresh w)].
Proof.
  intros He Hlt Hcur [cv Hh].
  assert (Hfresh : fresh w ∉ nodes (_callbacks e)).
  { intros Hin. rewrite Forall_forall in Hlt. apply Hlt in Hin. lia. }
  assert (Hne : At (fresh w) ≠ _nextCallback e).
  { intros Heq. unfold cursor_in_list in Hcur. rewrite <- Heq in Hcur.
    apply elem_of_cons in Hcur as [?|Hin]; [done|].
    apply list_elem_of_fmap in Hin as (m & [= <-] & Hm). done. }
  rewrite (bind_run _ _ _ _ _ (add_run _ c first _ _ He)).
  set (l1 := if first then _ else _).
  set (w1 := with_chans _ _).
  assert (Hh1 : cells w1 !! h = Some cv) by done.
  rewrite (bind_run _ _ _ _ _ (store_run _ (At (fresh w)) _ _ Hh1)).
  set (w2 := with_cells _ w1).
  assert (He2 : chans w2 !! this = Some (mkEvent l1 (_enabled e) (_nextCallback e)))
    by apply lookup_insert_eq.
  assert (Hh2 : cells w2 !! h = Some (At (fresh w))) by apply lookup_insert_eq.
  assert (∃ pre post, l1 = pre ++ (fresh w, c) :: post ∧ (fresh w ∉ nodes pre) ∧
                      pre ++ post = _callbacks e) as (pre & post & Hl1 & Hpre & Hpp).
  { unfold l1. destruct first.
    - exists [], (_callbacks e). split; [done|]. split; [apply not_elem_of_nil|done].
    - exists (_callbacks e), []. split; [done|]. split; [done|]. by rewrite app_nil_r. }
  rewrite (remove_run_node _ _ _ _ _ _ _ _ He2 Hh2 Hl1 Hpre).
  eexists. split; [reflexivity|]. cbn [chans cells vals history _enabled _nextCallback].
  rewrite decide_False by done. rewrite Hpp, event_eta.
  split_and!; try done.
  - unfold w2, w1. simpl. rewrite insert_insert_eq. by apply insert_id.
  - unfold w2, w1. simpl. by rewrite insert_insert_eq.
Qed.

End RemoveAlone.

Lemma remove_erases_and_resets_handle_witness :
  ∃ w',
    remove 0 5 owner_store = Ok tt w' ∧
    chans w' !! 0 = Some (mkEvent [(3, Cb 2 [])] true (End 0)) ∧
    cells w' !! 5 = Some (End 0) ∧
    remove 0 5 w' = Ok tt w'.
Proof.
  destruct (remove_erases_and_resets_handle 0 owner_store
              (mkEvent [(2, Cb 1 []); (3, Cb 2 [])] true (End 0)) 5 2)
    as (w' & nx & Hrun & Hch & Hnx & _ & Hce & _ & _ & Hagain).
  - reflexivity.
  - reflexivity.
  - refine (bool_decide_unpack _ _). vm_compute. exact I.
  - refine (bool_decide_unpack _ _). vm_compute. exact I.
  - exists w'. split; [exact Hrun|].
    rewrite Hch, Hce, (Hnx ltac:(discriminate)).
    split; [reflexivity|]. split; [reflexivity|]. exact Hagain.
Defined.

Lemma add_then_remove_restores_witness :
  ∃ w',
    (id <- add 0 cbA false;; store 5 id;; remove 0 5) owner_store = Ok tt w' ∧
    chans w' = chans owner_store ∧
    history w' = [Erased 6].
Proof.
  destruct (add_then_remove_restores 0 owner_store
              (mkEvent [(2, Cb 1 []); (3, Cb 2 [])] true (End 0)) cbA false 5)
    as (w' & Hrun & Hch & _ & _ & Hh).
  - reflexivity.
  - refine (bool_decide_unpack _ _). vm_compute. exact I.
  - unfold cursor_in_list. simpl. left.
  - by exists (At 2).
  - exists w'. split; [exact Hrun|]. split; [exact Hch|]. exact Hh.
Defined.

(** ** Handles are stable *)

Section Stability.
Context {T : Type}.
Implicit Types (w : World T) (e : Event T) (this : chan).
Implicit Types (l : list (node * Callback T)).

Lemma list_deref_erase_other l n l' n2 :
  list_erase l n = Some l' → n ≠ n2 → list_deref l' n2 = list_deref l n2.
Proof.
  revert l'. induction l as [|[m c] l IH]; intros l'; simpl; [done|].
  destruct (decide (m = n)) as [->|Hne].
  - intros [= <-] Hn. by rewrite decide_False.
  - destruct (list_erase l n) as [l0|]; simpl; [|done].
    intros [= <-] Hn. simpl. destruct (decide (m = n2)); [done|]. by apply IH.
Qed.

Lemma list_deref_assign_other l n c l' n2 :
  list_assign l n c = Some l' → n ≠ n2 → list_deref l' n2 = list_deref l n2.
Proof.
  revert l'. induction l as [|[m c'] l IH]; intros l'; simpl; [done|].
  destruct (decide (m = n)) as [->|Hne].
  - intros [= <-] Hn. simpl. by rewrite !decide_False.
  - destruct (list_assign l n c) as [l0|]; simpl; [|done].
    intros [= <-] Hn. simpl. destruct (decide (m = n2)); [done|]. by apply IH.
Qed.

Lemma list_deref_snoc l n c n2 c2 :
  list_deref l n2 = Some c2 → list_deref (l ++ [(n, c)]) n2 = Some c2.
Proof.
  induction l as [|[m c'] l IH]; simpl; [done|].
  destruct (decide (m = n2)); [done|]. apply IH.
Qed.

(** X3: handles are stable: a handle of a registered callback still
    designates the same callback after an [add] (which never returns that
    handle again), after a [remove] of another handle and after a
    [replace] through another handle. *)
Theorem other_handles_stay_valid this (w : World T) e n2 c2 :
  chans w !! this = Some e →
  Forall (λ n, n < fresh w) (nodes (_callbacks e)) →
  list_deref (_callbacks e) n2 = Some c2 →
  (∀ c first id w',
      add this c first w = Ok id w' →
      id ≠ At n2 ∧
      ∃ e', chans w' !! this = Some e' ∧ list_deref (_callbacks e') n2 = Some c2) ∧
  (∀ h n w',
      cells w !! h = Some (At n) → n ≠ n2 →
      remove this h w = Ok tt w' →
      ∃ e', chans w' !! this = Some e' ∧ list_deref (_callbacks e') n2 = Some c2) ∧
  (∀ n c r w',
      n ≠ n2 →
      replace this (At n) c w = Ok r w' →
      ∃ e', chans w' !! this = Some e' ∧ list_deref (_callbacks e') n2 = Some c2).
Proof.
  intros He Hlt Hd.
  assert (Hn2 : n2 < fresh w).
  { rewrite Forall_forall in Hlt. apply Hlt. by eapply list_deref_elem. }
  split_and!.
  - intros c first id w' (e0 & He0 & -> & ->)%add_ok. simplify_eq.
    split; [intros [= Heq]; lia|].
    eexists. split; [apply chans_with_chans_insert|]. cbn [_callbacks].
    destruct first.
    + simpl. rewrite decide_False by lia. done.
    + by apply list_deref_snoc.
  - intros h n w' Hh Hne
      (e0 & cv & He0 & Hcv & [[-> _]|(m & l & nx & -> & Hl & _ & Hch & _)])%remove_ok;
      simplify_eq.
    eexists. split; [rewrite Hch; apply lookup_insert_eq|]. cbn [_callbacks].
    by rewrite (list_deref_erase_other _ _ _ _ Hl Hne).
  - intros n c r w' Hne (_ & e0 & m & l' & He0 & [= <-] & Hl & ->)%replace_ok.
    simplify_eq.
    eexists. split; [apply chans_with_chans_insert|]. cbn [_callbacks].
    by rewrite (list_deref_assign_other _ _ _ _ _ Hl Hne).
Qed.

End Stability.

Lemma other_handles_stay_valid_witness :
  ∃ w' e',
    remove 0 5 owner_store = Ok tt w' ∧
    chans w' !! 0 = Some e' ∧
    list_deref (_callbacks e') 3 = Some (Cb 2 []).
Proof.
  destruct (other_handles_stay_valid 0 owner_store
              (mkEvent [(2, Cb 1 []); (3, Cb 2 [])] true (End 0)) 3 (Cb 2 []))
    as (_ & Hrm & _).
  - reflexivity.
  - refine (bool_decide_unpack _ _). vm_compute. exact I.
  - reflexivity.
  - destruct (Hrm 5 2 (mkWorld
                (<[0 := mkEvent [(3, Cb 2 [])] true (End 0)]> (chans owner_store))
                (<[5 := End 0]> (cells owner_store)) ∅ 6 [Erased 2]))
      as (e' & He' & Hd').
    + reflexivity.
    + lia.
    + vm_compute. reflexivity.
    + eexists _, e'. split; [vm_compute; reflexivity|]. split; [exact He'|exact Hd'].
Defined.

(** ** Notifying under a guard *)

Section GuardScope.
Context {T : Type}.
Implicit Types (w : World T) (e : Event T) (this : chan).

(** X4: a [notify] issued while a [ScopedDisable] guard is alive is
    dropped: the guard, the [notify] and the end of the guard's scope
    together leave the whole store as it was, whatever the flag was
    before. *)
Theorem notify_under_guard_is_dropped this (w : World T) e fuel (a : Arg T) :
  chans w !! this = Some e →
  (g <- ScopedDisable.ctor this;;
   notify fuel this a;;
   ScopedDisable.dtor g) w = Ok tt w.
Proof.
  intros He.
  rewrite (bind_run _ _ _ _ _ (ScopedDisable_ctor_run _ _ _ He)).
  set (e1 := mkEvent (_callbacks e) false (_nextCallback e)).
  set (w1 := with_chans (insert this e1) w).
  assert (H1 : chans w1 !! this = Some e1) by apply chans_with_chans_insert.
  rewrite (bind_run _ _ _ _ _ (notify_disabled _ _ _ fuel a H1 eq_refl)).
  unfold ScopedDisable.dtor. simpl.
  rewrite (setEnabled_run _ _ _ _ H1). unfold w1, e1. simpl.
  rewrite with_chans_insert_twice, event_eta.
  by rewrite (with_chans_insert_id _ _ _ He).
Qed.

End GuardScope.

Lemma notify_under_guard_is_dropped_witness :
  (g <- ScopedDisable.ctor 0;;
   notify 5 0 (Val 7%Z);;
   ScopedDisable.dtor g) one_subscriber = Ok tt one_subscriber.
Proof.
  apply (notify_under_guard_is_dropped 0 one_subscriber
           (mkEvent [(1, cbA)] true (End 0)) 5 (Val 7%Z)).
  reflexivity.
Defined.

(** ** Dispatch over callbacks that act on their channel *)

Section Quiet.
Context {T : Type}.
Implicit Types (w : World T) (e : Event T) (this : chan).
Implicit Types (l pre mid post : list (node * Callback T)).

Lemma enabled_after_app (ss1 ss2 : list (Stmt T)) b :
  enabled_after (ss1 ++ ss2) b = enabled_after ss2 (enabled_after ss1 b).
Proof. revert b. induction ss1 as [|[] ss1 IH]; intros b'; simpl; auto. Qed.

Lemma modified_app (ss1 ss2 : list (Stmt T)) u :
  modified (ss1 ++ ss2) u = modified ss2 (modified ss1 u).
Proof. revert u. induction ss1 as [|[] ss1 IH]; intros u; simpl; auto. Qed.

Lemma bodies_app l1 l2 : bodies (l1 ++ l2) = bodies l1 ++ bodies l2.
Proof. induction l1 as [|[n c] l1 IH]; simpl; [done|]. by rewrite IH, app_assoc. Qed.

Lemma deliveries_app by_ref (u : T) l1 l2 :
  deliveries by_ref u (l1 ++ l2)
  = deliveries by_ref u l1
    ++ deliveries by_ref (if by_ref then modified (bodies l1) u else u) l2.
Proof.
  revert u. induction l1 as [|[n c] l1 IH]; intros u; simpl.
  - by destruct by_ref.
  - rewrite IH. destruct by_ref; [|done]. by rewrite modified_app.
Qed.

Lemma deliveries_by_value (v : T) l : deliveries false v l = calls v l.
Proof. induction l as [|[n c] l IH]; simpl; [done|]. by rewrite IH. Qed.

Lemma passive_toggler this (c : Callback T) : passive c → toggler this c.
Proof.
  unfold passive, toggler. intros H. eapply Forall_impl; [exact H|]. by intros [].
Qed.

Lemma written_id (a : Arg T) u w :
  arg_value a w = Ok u w → written a u (vals w) = vals w.
Proof.
  destruct a as [v|x]; simpl; [done|]. intros H. inv_ok. by apply insert_id.
Qed.

Lemma arg_value_frame (a : Arg T) u w w' :
  arg_value a w = Ok u w → vals w' = vals w → arg_value a w' = Ok u w'.
Proof. intros H Hv. apply arg_value_ok in H as [_ H]. by apply H. Qed.

(** What a toggler's body does. *)
Lemma run_body_toggler self this (a : Arg T) ss : ∀ w e u,
  Forall (λ s, is_toggle_of this s) ss →
  chans w !! this = Some e →
  arg_value a w = Ok u w →
  run_body self a ss w
  = Ok tt (mkWorld
             (<[this := mkEvent (_callbacks e) (enabled_after ss (_enabled e))
                          (_nextCallback e)]> (chans w))
             (cells w) (written a (modified ss u) (vals w)) (fresh w) (history w)).
Proof.
  induction ss as [|s ss IH]; intros w e u Hss He Hu.
  - simpl. unfold ret. f_equal. apply world_eq; simpl; try done.
    + by rewrite event_eta, insert_id.
    + by rewrite (written_id _ _ _ Hu).
  - apply Forall_cons in Hss as [Hs Hss].
    destruct s as [|e' h c first|e' b|f| |]; try done.
    + simpl in Hs. apply bool_decide_unpack in Hs as ->.
      cbn [run_body run_stmt].
      rewrite (bind_run _ _ _ _ _ (setEnabled_run _ _ _ b He)).
      erewrite IH; [|done|apply chans_with_chans_insert|].
      * f_equal. apply world_eq; simpl; try done. by rewrite insert_insert_eq.
      * by eapply arg_value_frame.
    + cbn [run_body run_stmt]. destruct a as [v|x].
      * unfold ret at 1, bind at 1. by rewrite (IH w e u Hss He Hu).
      * simpl in Hu. inv_ok. unfold load_val, store_val, bind at 2, bind at 1, lift, ret.
        match goal with H : vals _ !! _ = Some _ |- _ => rewrite H; rename H into Hx end.
        cbn. rewrite Hx.
        erewrite (IH _ e (f u)); [|done|done|].
        -- f_equal. apply world_eq; simpl; try done. by rewrite insert_insert_eq.
        -- simpl. unfold load_val. simpl. by rewrite lookup_insert_eq.
Qed.

(** One turn of the loop of [notify]. *)
Lemma notify_loop_step fuel this (a : Arg T) pre n c post w e :
  chans w !! this = Some e →
  _callbacks e = pre ++ (n, c) :: post →
  n ∉ nodes pre →
  notify_loop (S fuel) this a (At n) w
  = (call n c a;;
     e' <- this_event this;;
     notify_loop fuel this a (_nextCallback e'))
      (with_chans (insert this
         (mkEvent (_callbacks e) (_enabled e) (list_begin this post))) w).
Proof.
  intros He Hl Hn. cbn [notify_loop]. rewrite decide_False by done.
  rewrite (bind_run _ _ _ _ _ (this_event_run _ _ _ He)).
  rewrite Hl. cbn [it_next it_deref].
  rewrite (list_next_at _ _ _ _ _ Hn), (list_deref_at _ _ _ _ Hn).
  cbn [lift fmap option_fmap option_map]. unfold ret at 1. unfold bind at 1.
  rewrite <- Hl.
  rewrite (bind_run _ _ _ _ _ (set_nextCallback_run _ _ _ _ He)).
  unfold ret at 1. unfold bind at 1. done.
Qed.

(** The loop over a stretch of togglers: it calls each of them, in
    order, and goes on with what follows the stretch. *)
Lemma notify_loop_togglers this (a : Arg T) mid : ∀ pre post fuel w e u,
  chans w !! this = Some e →
  _callbacks e = pre ++ mid ++ post →
  NoDup (nodes (pre ++ mid ++ post)) →
  Forall (toggler this) mid.*2 →
  arg_value a w = Ok u w →
  notify_loop (length mid + fuel) this a (list_begin this (mid ++ post)) w
  = notify_loop fuel this a (list_begin this post)
      (mkWorld
         (<[this := mkEvent (_callbacks e) (enabled_after (bodies mid) (_enabled e))
                      (match mid with
                       | [] => _nextCallback e
                       | _ => list_begin this post
                       end)]> (chans w))
         (cells w) (written a (modified (bodies mid) u) (vals w)) (fresh w)
         (history w ++ deliveries (is_ref a) u mid)).
Proof.
  induction mid as [|[n c] mid IH]; intros pre post fuel w e u He Hl Hnd Hp Hu.
  - simpl. f_equal. apply world_eq; simpl; try done.
    + by rewrite event_eta, insert_id.
    + by rewrite (written_id _ _ _ Hu).
    + by rewrite app_nil_r.
  - assert (Hn : n ∉ nodes pre).
    { rewrite nodes_app in Hnd. simpl in Hnd.
      apply NoDup_app in Hnd as (_ & Hd & _). intros Hin. apply (Hd n Hin). left. }
    rewrite fmap_cons in Hp. apply Forall_cons in Hp as [Hc Hp]. cbn [snd] in Hc.
    cbn [length Nat.add app list_begin].
    rewrite (notify_loop_step _ _ _ _ _ _ _ _ _ He Hl Hn).
    set (e1 := mkEvent (_callbacks e) (_enabled e) (list_begin this (mid ++ post))).
    set (w1 := with_chans (insert this e1) w).
    assert (He1 : chans w1 !! this = Some e1) by apply lookup_insert_eq.
    assert (Hu1 : arg_value a w1 = Ok u w1) by by eapply arg_value_frame.
    unfold bind at 1. rewrite (call_run _ _ _ _ _ Hu1).
    set (w2 := with_history _ w1).
    assert (He2 : chans w2 !! this = Some e1) by done.
    assert (Hu2 : arg_value a w2 = Ok u w2) by by eapply arg_value_frame.
    rewrite (run_body_toggler c this a _ w2 e1 u Hc He2 Hu2).
    set (w3 := mkWorld _ _ _ _ _).
    set (e3 := mkEvent (_callbacks e) (enabled_after (cb_body c) (_enabled e))
                 (list_begin this (mid ++ post))).
    assert (He3 : chans w3 !! this = Some e3) by apply lookup_insert_eq.
    rewrite (bind_run _ _ _ _ _ (this_event_run _ _ _ He3)).
    cbn [_nextCallback e3].
    assert (Hu3 : arg_value a w3
                  = Ok (if is_ref a then modified (cb_body c) u else u) w3).
    { destruct a as [v|x]; simpl in *.
      - inv_ok. done.
      - unfold load_val. simpl. by rewrite lookup_insert_eq. }
    rewrite (IH (pre ++ [(n, c)]) post fuel w3 e3
               (if is_ref a then modified (cb_body c) u else u) He3); try done.
    + f_equal. apply world_eq; simpl; try done.
      * rewrite !insert_insert_eq. f_equal. f_equal.
        -- by rewrite enabled_after_app.
        -- by destruct mid.
      * rewrite modified_app. destruct a as [v|x]; simpl; [done|].
        by rewrite insert_insert_eq.
      * by rewrite <- app_assoc.
    + simpl. rewrite Hl. by rewrite <- app_assoc.
    + by rewrite <- app_assoc.
Qed.

(** A whole dispatch over togglers. *)
Lemma notify_togglers this (a : Arg T) w e u fuel :
  chans w !! this = Some e → _enabled e = true →
  NoDup (nodes (_callbacks e)) →
  Forall (toggler this) (_callbacks e).*2 →
  length (_callbacks e) < fuel →
  arg_value a w = Ok u w →
  notify fuel this a w
  = Ok tt (mkWorld
             (<[this := mkEvent (_callbacks e)
                          (enabled_after (bodies (_callbacks e)) true)
                          (End this)]> (chans w))
             (cells w) (written a (modified (bodies (_callbacks e)) u) (vals w))
             (fresh w) (history w ++ deliveries (is_ref a) u (_callbacks e))).
Proof.
  intros He Hen Hnd Hp Hf Hu. unfold notify.
  rewrite (bind_run _ _ _ _ _ (this_event_run _ _ _ He)). rewrite Hen.
  replace fuel with (length (_callbacks e) + S (fuel - S (length (_callbacks e))))
    by lia.
  pose proof (notify_loop_togglers this a (_callbacks e) [] [] 
                (S (fuel - S (length (_callbacks e)))) w e u He) as Hrun.
  rewrite !app_nil_r in Hrun. simpl in Hrun.
  unfold bind at 1. rewrite Hrun; try done.
  cbn [notify_loop]. rewrite decide_True by done. unfold ret at 1.
  erewrite set_nextCallback_run by (simpl; apply lookup_insert_eq).
  f_equal. apply world_eq; simpl; try done.
  by rewrite insert_insert_eq, Hen.
Qed.

End Quiet.

Section DuringDispatch.
Context {T : Type}.
Implicit Types (w : World T) (e : Event T) (this : chan).
Implicit Types (l pre mid post : list (node * Callback T)).

Lemma enabled_after_modify (ss : list (Stmt T)) b :
  Forall (λ s, is_modify s) ss → enabled_after ss b = b.
Proof. induction 1 as [|s ss Hs _ IH]; [done|]. by destruct s. Qed.

Lemma enabled_after_passive l b :
  Forall passive l.*2 → enabled_after (bodies l) b = b.
Proof.
  induction l as [|[n c] l IH]; intros Hp; [done|].
  rewrite fmap_cons in Hp. apply Forall_cons in Hp as [Hc Hp]. simpl.
  by rewrite enabled_after_app, (enabled_after_modify _ _ Hc), (IH Hp).
Qed.

Lemma passive_togglers this l : Forall passive l.*2 → Forall (toggler this) l.*2.
Proof. intros H. eapply Forall_impl; [exact H|]. apply passive_toggler. Qed.

(** X5: [notify] reads the flag once, before its loop: when a callback
    disables the channel during a dispatch, the callbacks after it are
    still called in that dispatch; the flag left behind is the one set
    last, and if that is [false] the next [notify] calls nothing. *)
Theorem disabling_during_dispatch this (w : World T) e (v : T) fuel :
  chans w !! this = Some e → _enabled e = true →
  NoDup (nodes (_callbacks e)) →
  Forall (toggler this) (_callbacks e).*2 →
  length (_callbacks e) < fuel →
  ∃ w',
    notify fuel this (Val v) w = Ok tt w' ∧
    history w' = history w ++ calls v (_callbacks e) ∧
    chans w' !! this
    = Some (mkEvent (_callbacks e) (enabled_after (bodies (_callbacks e)) true)
              (End this)) ∧
    (enabled_after (bodies (_callbacks e)) true = false →
     ∀ fuel' a', notify fuel' this a' w' = Ok tt w').
Proof.
  intros He Hen Hnd Hp Hf.
  eexists. split; [by apply (notify_togglers this (Val v) w e v fuel)|].
  simpl. rewrite deliveries_by_value. split; [done|].
  split; [apply lookup_insert_eq|].
  intros Hoff fuel' a'. eapply notify_disabled; [simpl; apply lookup_insert_eq|done].
Qed.

(** X7: on a channel with reference arguments (the header's
    [Event<int&>] example) every callback receives the caller's variable
    as the callbacks before it left it, and the caller sees the last
    update; with value arguments every callback receives the original
    value and no variable changes. *)
Theorem dispatch_by_reference_threads_updates this (w : World T) e x (u : T) fuel :
  chans w !! this = Some e → _enabled e = true →
  NoDup (nodes (_callbacks e)) →
  Forall passive (_callbacks e).*2 →
  length (_callbacks e) < fuel →
  vals w !! x = Some u →
  (∃ w',
      notify fuel this (Ref x) w = Ok tt w' ∧
      history w' = history w ++ deliveries true u (_callbacks e) ∧
      vals w' = <[x := modified (bodies (_callbacks e)) u]> (vals w)) ∧
  (∃ w',
      notify fuel this (Val u) w = Ok tt w' ∧
      history w' = history w ++ calls u (_callbacks e) ∧
      vals w' = vals w).
Proof.
  intros He Hen Hnd Hp Hf Hx. split.
  - eexists. split.
    + apply (notify_togglers this (Ref x) w e u fuel); try done.
      * by apply passive_togglers.
      * simpl. unfold load_val. by rewrite Hx.
    + done.
  - eexists. split; [by apply notify_passive|done].
Qed.

Lemma list_begin_app this (l1 l2 : list (node * Callback T)) :
  l1 ≠ [] → list_begin this (l1 ++ l2) = list_begin this l1.
Proof. by destruct l1. Qed.

Lemma call_adder this n nm h c (first : bool) (v : T) w e cv :
  chans w !! this = Some e → cells w !! h = Some cv →
  call n (Cb nm [SAdd this h c first]) (Val v) w
  = Ok tt (mkWorld
             (<[this := mkEvent (if first then (fresh w, c) :: _callbacks e
                                 else _callbacks e ++ [(fresh w, c)])
                          (_enabled e) (_nextCallback e)]> (chans w))
             (<[h := At (fresh w)]> (cells w)) (vals w) (S (fresh w))
             (history w ++ [Invoked n nm v])).
Proof.
  intros He Hh. erewrite call_run by done. cbn [cb_body cb_name run_body run_stmt].
  set (w1 := with_history _ w).
  assert (He1 : chans w1 !! this = Some e) by done.
  rewrite bind_assoc.
  rewrite (bind_run _ _ _ _ _ (add_run _ c first _ _ He1)).
  set (w2 := with_chans _ _).
  assert (Hh2 : cells w2 !! h = Some cv) by done.
  by rewrite (bind_run _ _ _ _ _ (store_run _ (At (fresh w1)) _ _ Hh2)).
Qed.

(** X6: a callback that subscribes another one to the channel being
    dispatched: inserted at the front, the new callback is not called in
    this dispatch; appended at the back, it is called at the end of this
    dispatch, unless the subscriber that appended it was the last of the
    list (the cursor was already past the end). *)
Theorem add_during_dispatch this (w : World T) e pre post n nm h c (first : bool)
    (v : T) fuel :
  chans w !! this = Some e → _enabled e = true →
  _callbacks e = pre ++ (n, Cb nm [SAdd this h c first]) :: post →
  NoDup (nodes (_callbacks e)) →
  Forall (λ m, m < fresh w) (nodes (_callbacks e)) →
  Forall passive pre.*2 → Forall passive post.*2 → passive c →
  is_Some (cells w !! h) →
  S (length (_callbacks e)) < fuel →
  ∃ w',
    notify fuel this (Val v) w = Ok tt w' ∧
    chans w' !! this
    = Some (mkEvent (if first then (fresh w, c) :: _callbacks e
                     else _callbacks e ++ [(fresh w, c)]) true (End this)) ∧
    cells w' = <[h := At (fresh w)]> (cells w) ∧
    history w'
    = history w ++ calls v (_callbacks e)
      ++ (if first then []
          else match post with
               | [] => []
               | _ :: _ => [Invoked (fresh w) (cb_name c) v]
               end).
Proof.
  intros He Hen Hl Hnd Hlt Hpre Hpost Hc [cv Hh] Hf.
  set (adder := Cb nm [SAdd this h c first]) in *.
  assert (Hfresh : fresh w ∉ nodes (_callbacks e)).
  { intros Hin. rewrite Forall_forall in Hlt. apply Hlt in Hin. lia. }
  assert (Hlen : length (_callbacks e) = length pre + S (length post)).
  { rewrite Hl, length_app. done. }
  unfold notify. rewrite (bind_run _ _ _ _ _ (this_event_run _ _ _ He)). rewrite Hen.
  (* the callbacks before the adder *)
  replace fuel with (length pre + S (fuel - S (length pre))) by lia.
  set (fuel2 := fuel - S (length pre)).
  assert (Hf2 : S (length post) < fuel2) by (unfold fuel2; lia).
  assert (Hb : list_begin this (_callbacks e)
               = list_begin this (pre ++ (n, adder) :: post)) by by rewrite Hl.
  unfold bind at 1. rewrite Hb.
  rewrite (notify_loop_togglers this (Val v) pre [] ((n, adder) :: post)
             (S fuel2) w e v He Hl); [|by rewrite <- Hl|by apply passive_togglers|done].
  rewrite (enabled_after_passive _ _ Hpre), deliveries_by_value. cbn [written is_ref].
  set (w1 := mkWorld _ _ _ _ _).
  set (e1 := mkEvent (_callbacks e) (_enabled e)
               (match pre with [] => _nextCallback e | _ => At n end)).
  assert (He1 : chans w1 !! this = Some e1).
  { unfold w1. simpl. rewrite lookup_insert_eq. unfold e1. by destruct pre. }
  assert (Hn : n ∉ nodes pre).
  { rewrite Hl, nodes_app, nodes_cons in Hnd.
    apply NoDup_app in Hnd as (_ & Hd & _). intros Hin. apply (Hd n Hin). left. }
  (* the adder *)
  cbn [list_begin].
  rewrite (notify_loop_step fuel2 this (Val v) pre n adder post w1 e1 He1 Hl Hn).
  set (e2 := mkEvent (_callbacks e1) (_enabled e1) (list_begin this post)).
  set (w2 := with_chans (insert this e2) w1).
  assert (He2 : chans w2 !! this = Some e2) by apply lookup_insert_eq.
  assert (Hh2 : cells w2 !! h = Some cv) by done.
  rewrite (bind_run _ _ _ _ _ (call_adder this n nm h c first v w2 e2 cv He2 Hh2)).
  set (l' := if first then (fresh w2, c) :: _callbacks e2
             else _callbacks e2 ++ [(fresh w2, c)]).
  set (e5 := mkEvent l' (_enabled e2) (_nextCallback e2)).
  set (w5 := mkWorld _ _ _ _ _).
  assert (He5 : chans w5 !! this = Some e5) by apply lookup_insert_eq.
  rewrite (bind_run _ _ _ _ _ (this_event_run _ _ _ He5)).
  cbn [_nextCallback e5 e2].
  assert (Hfw : fresh w2 = fresh w) by done.
  (* what is left of the list *)
  assert (∃ pre' post',
            l' = pre' ++ post' ∧ NoDup (nodes (pre' ++ post')) ∧
            Forall passive post'.*2 ∧ length post' < fuel2 ∧
            list_begin this post = list_begin this post' ∧
            calls v post'
            = calls v post
              ++ (if first then []
                  else match post with
                       | [] => []
                       | _ :: _ => [Invoked (fresh w) (cb_name c) v]
                       end))
    as (pre' & post' & Hl' & Hnd' & Hp' & Hf' & Hb' & Hcalls).
  { unfold l'. rewrite Hfw. cbn [_callbacks e2 e1]. destruct first.
    - exists ((fresh w, c) :: pre ++ [(n, adder)]), post.
      rewrite <- app_comm_cons, <- app_assoc. simpl. rewrite <- Hl.
      split; [done|]. split; [by constructor|].
      split; [done|]. split; [lia|]. split; [done|]. by rewrite app_nil_r.
    - destruct post as [|p post].
      + exists (pre ++ [(n, adder); (fresh w, c)]), [].
        rewrite app_nil_r. split; [by rewrite Hl, <- app_assoc|].
        split.
        { replace (pre ++ [(n, adder); (fresh w, c)])
            with ((pre ++ [(n, adder)]) ++ [(fresh w, c)]) by by rewrite <- app_assoc.
          rewrite <- Hl. rewrite nodes_app. apply NoDup_app. split; [done|].
          split; [|apply NoDup_singleton].
          intros m Hm ->%list_elem_of_singleton. done. }
        split; [constructor|]. split; [simpl; lia|]. split; [done|]. done.
      + exists (pre ++ [(n, adder)]), ((p :: post) ++ [(fresh w, c)]).
        split; [by rewrite Hl, <- !app_assoc|].
        split.
        { rewrite app_assoc, <- (app_assoc pre). simpl. rewrite <- Hl.
          rewrite nodes_app. apply NoDup_app. split; [done|].
          split; [|apply NoDup_singleton].
          intros m Hm ->%list_elem_of_singleton. done. }
        split.
        { rewrite fmap_app. apply Forall_app. split; [done|]. by repeat constructor. }
        split; [rewrite length_app; simpl in *; lia|]. split; [done|].
        unfold calls. by rewrite fmap_app. }
  rewrite Hb'.
  destruct (notify_loop_passive post' pre' fuel2 this v w5 e5 He5 Hl' Hnd' Hp' Hf')
    as [nx Hrun].
  rewrite Hrun.
  erewrite set_nextCallback_run by (simpl; apply lookup_insert_eq).
  eexists. split; [reflexivity|]. simpl.
  rewrite lookup_insert_eq. rewrite <- Hl', Hen.
  split; [done|]. split; [done|].
  rewrite Hcalls, Hl. unfold calls. rewrite fmap_app, fmap_cons. simpl.
  by rewrite <- !app_assoc.
Qed.

End DuringDispatch.

Lemma disabling_during_dispatch_witness :
  ∃ w',
    notify 3 0 (Val 7%Z) switching_off = Ok tt w' ∧
    history w' = [Invoked 1 1 7%Z; Invoked 2 2 7%Z] ∧
    isEnabled 0 w' = Ok false w' ∧
    notify 3 0 (Val 8%Z) w' = Ok tt w'.
Proof.
  destruct (disabling_during_dispatch 0 switching_off
              (mkEvent [(1, Cb 1 [SSetEnabled 0 false]); (2, cbB)] true (End 0))
              7%Z 3)
    as (w' & Hrun & Hh & Hch & Hoff).
  - reflexivity.
  - reflexivity.
  - refine (bool_decide_unpack _ _). vm_compute. exact I.
  - unfold toggler. refine (bool_decide_unpack _ _). vm_compute. exact I.
  - simpl. lia.
  - exists w'. split; [exact Hrun|]. split; [exact Hh|].
    split; [by rewrite (isEnabled_run _ _ _ Hch)|].
    by apply Hoff.
Defined.

Lemma add_during_dispatch_witness :
  ∃ w',
    notify 4 0 (Val 7%Z) appending = Ok tt w' ∧
    chans w' !! 0
    = Some (mkEvent [(1, Cb 1 [SAdd 0 3 cbB false]); (2, cbA); (4, cbB)] true (End 0)) ∧
    history w' = [Invoked 1 1 7%Z; Invoked 2 1 7%Z; Invoked 4 2 7%Z].
Proof.
  destruct (add_during_dispatch 0 appending
              (mkEvent [(1, Cb 1 [SAdd 0 3 cbB false]); (2, cbA)] true (End 0))
              [] [(2, cbA)] 1 1 3 cbB false 7%Z 4)
    as (w' & Hrun & Hch & _ & Hh).
  - reflexivity.
  - reflexivity.
  - reflexivity.
  - refine (bool_decide_unpack _ _). vm_compute. exact I.
  - refine (bool_decide_unpack _ _). vm_compute. exact I.
  - constructor.
  - repeat constructor.
  - constructor.
  - by exists (End 0).
  - simpl. lia.
  - exists w'. split; [exact Hrun|]. split; [exact Hch|]. exact Hh.
Defined.

Lemma dispatch_by_reference_threads_updates_witness :
  ∃ w',
    notify 3 0 (Ref 3) incrementing = Ok tt w' ∧
    history w' = [Invoked 1 1 5%Z; Invoked 2 2 6%Z] ∧
    vals w' !! 3 = Some 7%Z.
Proof.
  destruct (dispatch_by_reference_threads_updates 0 incrementing
              (mkEvent [(1, Cb 1 [SModify Z.succ]); (2, Cb 2 [SModify Z.succ])]
                 true (End 0)) 3 5%Z 3)
    as [(w' & Hrun & Hh & Hv) _].
  - reflexivity.
  - reflexivity.
  - refine (bool_decide_unpack _ _). vm_compute. exact I.
  - unfold passive. refine (bool_decide_unpack _ _). vm_compute. exact I.
  - simpl. lia.
  - reflexivity.
  - exists w'. split; [exact Hrun|]. split; [exact Hh|]. rewrite Hv. reflexivity.
Defined.

(** ** Owners *)

Section Owners.
Context {T : Type}.
Implicit Types (w : World T) (e : Event T) (ch : chan).
Implicit Types (o : ScopedCallbackID.t).

Lemma ScopedCallbackID_move_run o w e cv :
  chans w !! ScopedCallbackID._event o = Some e →
  cells w !! ScopedCallbackID._cb o = Some cv →
  ScopedCallbackID._cb o ≠ fresh w →
  ScopedCallbackID.move_ctor o w
  = Ok (ScopedCallbackID.mk (ScopedCallbackID._event o) (fresh w))
       (mkWorld (chans w)
          (<[ScopedCallbackID._cb o := End (ScopedCallbackID._event o)]>
             (<[fresh w := cv]> (cells w)))
          (vals w) (S (fresh w)) (history w)).
Proof.
  intros He Hc Hne. unfold ScopedCallbackID.move_ctor.
  unfold load, bind at 1. rewrite Hc. cbn [lift]. unfold ret at 1.
  unfold alloc_cell, new_id, bind at 1, bind at 1.
  unfold empty_callback, this_event, bind at 1, bind at 1. cbn [chans with_cells with_fresh].
  rewrite He. cbn [lift]. unfold ret at 1, ret at 1.
  unfold store, bind at 1. cbn [cells with_cells with_fresh].
  rewrite lookup_insert_ne by done. rewrite Hc. done.
Qed.

Lemma invoke_run o (a : Arg T) w e n c :
  chans w !! ScopedCallbackID._event o = Some e →
  cells w !! ScopedCallbackID._cb o = Some (At n) →
  list_deref (_callbacks e) n = Some c →
  ScopedCallbackID.invoke o a w = call n c a w.
Proof.
  intros He Hc Hd. unfold ScopedCallbackID.invoke, load, this_event.
  unfold bind at 1. rewrite Hc. cbn [lift]. unfold ret at 1.
  unfold bind at 1. rewrite He. cbn [lift it_deref]. unfold ret at 1.
  rewrite Hd. done.
Qed.

Lemma invoke_empty o (a : Arg T) w e l :
  chans w !! ScopedCallbackID._event o = Some e →
  cells w !! ScopedCallbackID._cb o = Some (End l) →
  ScopedCallbackID.invoke o a w = Undefined.
Proof.
  intros He Hc. unfold ScopedCallbackID.invoke, load, this_event.
  unfold bind at 1. rewrite Hc. cbn [lift]. unfold ret at 1.
  unfold bind at 1. rewrite He. done.
Qed.

Lemma free_cell_run p (cv : CallbackID) w :
  cells w !! p = Some cv → free_cell p w = Ok tt (with_cells (delete p) w).
Proof. intros H. unfold free_cell. by rewrite H. Qed.

(** X8: the move constructor hands the subscription over: the new owner
    holds the handle, the moved-from owner holds the empty sentinel, and
    the channel is untouched; destroying the moved-from owner afterwards
    leaves the subscription in place (while [invoke] through it
    dereferences the end iterator), and destroying the new owner removes
    the subscription. *)
Theorem move_transfers_ownership o (w : World T) e n :
  chans w !! ScopedCallbackID._event o = Some e →
  cells w !! ScopedCallbackID._cb o = Some (At n) →
  map_Forall (λ p _, p < fresh w) (cells w) →
  NoDup (nodes (_callbacks e)) →
  n ∈ nodes (_callbacks e) →
  ∃ o' w1 w2 w3 nx,
    ScopedCallbackID.move_ctor o w = Ok o' w1 ∧
    ScopedCallbackID._event o' = ScopedCallbackID._event o ∧
    chans w1 = chans w ∧ history w1 = history w ∧
    cells w1 !! ScopedCallbackID._cb o' = Some (At n) ∧
    cells w1 !! ScopedCallbackID._cb o = Some (End (ScopedCallbackID._event o)) ∧
    (∀ a, ScopedCallbackID.invoke o a w1 = Undefined) ∧
    ScopedCallbackID.dtor o w1 = Ok tt w2 ∧
    chans w2 = chans w ∧ history w2 = history w ∧
    cells w2 = <[ScopedCallbackID._cb o' := At n]>
                 (delete (ScopedCallbackID._cb o) (cells w)) ∧
    ScopedCallbackID.dtor o' w2 = Ok tt w3 ∧
    chans w3 = <[ScopedCallbackID._event o :=
                   mkEvent (filter (λ nc, nc.1 ≠ n) (_callbacks e)) (_enabled e) nx]>
                 (chans w) ∧
    cells w3 = delete (ScopedCallbackID._cb o) (cells w) ∧
    history w3 = history w ++ [Erased n].
Proof.
  intros He Hc Hb Hnd Hn.
  assert (Hlt : ScopedCallbackID._cb o < fresh w)
    by apply (map_Forall_lookup_1 _ _ _ _ Hb Hc).
  assert (Hne : ScopedCallbackID._cb o ≠ fresh w) by lia.
  assert (Hnone : cells w !! fresh w = None).
  { destruct (cells w !! fresh w) eqn:Hf; [|done].
    apply (map_Forall_lookup_1 _ _ _ _ Hb) in Hf. lia. }
  rewrite (ScopedCallbackID_move_run _ _ _ _ He Hc Hne).
  set (o' := ScopedCallbackID.mk (ScopedCallbackID._event o) (fresh w)).
  set (w1 := mkWorld _ _ _ _ _).
  assert (He1 : chans w1 !! ScopedCallbackID._event o = Some e) by done.
  assert (Hc1 : cells w1 !! ScopedCallbackID._cb o
                = Some (End (ScopedCallbackID._event o))) by apply lookup_insert_eq.
  assert (Hc1' : cells w1 !! fresh w = Some (At n)).
  { unfold w1. simpl. rewrite lookup_insert_ne by done. apply lookup_insert_eq. }
  (* the moved-from owner dies *)
  set (w2 := with_cells (delete (ScopedCallbackID._cb o)) w1).
  assert (Hd1 : ScopedCallbackID.dtor o w1 = Ok tt w2).
  { unfold ScopedCallbackID.dtor.
    rewrite (bind_run _ _ _ _ _ (remove_run_empty _ _ _ _ He1 Hc1)).
    by apply (free_cell_run _ _ _ Hc1). }
  assert (Hcells2 : cells w2 = <[fresh w := At n]> (delete (ScopedCallbackID._cb o) (cells w))).
  { unfold w2, w1. simpl. rewrite delete_insert_eq.
    by rewrite delete_insert_ne by done. }
  (* the new owner dies *)
  destruct (nodes_split _ _ Hn) as (pre & c & post & Hl & Hpre).
  assert (He2 : chans w2 !! ScopedCallbackID._event o' = Some e) by done.
  assert (Hc2 : cells w2 !! ScopedCallbackID._cb o' = Some (At n)).
  { rewrite Hcells2. apply lookup_insert_eq. }
  destruct (ScopedCallbackID_dtor_run o' w2 e n c pre post He2 Hc2 Hl Hpre) as [nx Hd2].
  eexists o', w1, w2, _, nx.
  split; [done|]. split; [done|]. split; [done|]. split; [done|].
  split; [done|]. split; [done|].
  split; [intros a; by eapply invoke_empty|].
  split; [done|]. split; [done|]. split; [done|]. split; [done|].
  split; [exact Hd2|]. cbn [chans cells history].
  rewrite Hl in Hnd. rewrite Hl, (filter_other_nodes _ _ _ _ Hnd).
  split; [done|]. split; [|done].
  rewrite Hcells2. cbn [ScopedCallbackID._cb o']. rewrite delete_insert_eq.
  apply delete_id. by rewrite lookup_delete_ne.
Qed.

(** X9: [invoke] calls the owned callback once with the given arguments
    and touches neither the flag nor the cursor: the call goes through
    even when the channel is disabled and [notify] calls nobody. *)
Theorem invoke_calls_owned_callback o (w : World T) e n c (a : Arg T) u :
  chans w !! ScopedCallbackID._event o = Some e →
  cells w !! ScopedCallbackID._cb o = Some (At n) →
  list_deref (_callbacks e) n = Some c →
  passive c →
  arg_value a w = Ok u w →
  ∃ w',
    ScopedCallbackID.invoke o a w = Ok tt w' ∧
    history w' = history w ++ [Invoked n (cb_name c) u] ∧
    chans w' = chans w ∧ cells w' = cells w ∧
    vals w' = written a (modified (cb_body c) u) (vals w) ∧
    (_enabled e = false →
     ∀ fuel, notify fuel (ScopedCallbackID._event o) a w = Ok tt w).
Proof.
  intros He Hc Hd Hp Hu.
  rewrite (invoke_run _ _ _ _ _ _ He Hc Hd), (call_run _ _ _ _ _ Hu).
  set (w1 := with_history _ w).
  assert (He1 : chans w1 !! ScopedCallbackID._event o = Some e) by done.
  assert (Hu1 : arg_value a w1 = Ok u w1) by by eapply arg_value_frame.
  rewrite (run_body_toggler c (ScopedCallbackID._event o) a _ w1 e u
             (passive_toggler _ _ Hp) He1 Hu1).
  eexists. split; [reflexivity|]. simpl. split; [done|].
  split; [by rewrite (enabled_after_modify _ _ Hp), event_eta, insert_id|].
  split; [done|]. split; [done|].
  intros Hoff fuel. by eapply notify_disabled.
Qed.

Lemma assign_self ch w e :
  chans w !! ch = Some e → assign ch ch w = Ok tt w.
Proof.
  intros He. unfold assign.
  rewrite (bind_run _ _ _ _ _ (this_event_run _ _ _ He)).
  rewrite (bind_run _ _ _ _ _ (this_event_run _ _ _ He)).
  by rewrite decide_True.
Qed.

(** X10: [ScopedCallbackID::replace] given the owner's own channel
    erases the old subscription, subscribes the new callback at the
    requested end and leaves the owner's handle on it; the other
    subscribers, the flag and the other channels are as before. *)
Theorem replace_on_own_channel o (w : World T) e n c (first : bool) :
  chans w !! ScopedCallbackID._event o = Some e →
  cells w !! ScopedCallbackID._cb o = Some (At n) →
  NoDup (nodes (_callbacks e)) →
  n ∈ nodes (_callbacks e) →
  ∃ w' nx,
    ScopedCallbackID.replace o (ScopedCallbackID._event o) c first w = Ok tt w' ∧
    chans w'
    = <[ScopedCallbackID._event o :=
          mkEvent (if first
                   then (fresh w, c) :: filter (λ nc, nc.1 ≠ n) (_callbacks e)
                   else filter (λ nc, nc.1 ≠ n) (_callbacks e) ++ [(fresh w, c)])
            (_enabled e) nx]> (chans w) ∧
    (At n ≠ _nextCallback e → nx = _nextCallback e) ∧
    cells w' = <[ScopedCallbackID._cb o := At (fresh w)]> (cells w) ∧
    vals w' = vals w ∧
    history w' = history w ++ [Erased n].
Proof.
  intros He Hc Hnd Hn.
  destruct (nodes_split _ _ Hn) as (pre & c0 & post & Hl & Hpre).
  unfold ScopedCallbackID.replace.
  rewrite (bind_run _ _ _ _ _ (remove_run_node _ _ _ _ _ _ _ _ He Hc Hl Hpre)).
  set (nx := if decide (At n = _nextCallback e) then _ else _).
  set (w1 := mkWorld _ _ _ _ _).
  assert (He1 : chans w1 !! ScopedCallbackID._event o
                = Some (mkEvent (pre ++ post) (_enabled e) nx)) by apply lookup_insert_eq.
  rewrite (bind_run _ _ _ _ _ (assign_self _ _ _ He1)).
  rewrite (bind_run _ _ _ _ _ (add_run _ c first _ _ He1)).
  set (w2 := with_chans _ _).
  assert (Hc2 : cells w2 !! ScopedCallbackID._cb o
                = Some (End (ScopedCallbackID._event o))) by apply lookup_insert_eq.
  rewrite (store_run _ (At (fresh w1)) _ _ Hc2).
  eexists _, nx. split; [reflexivity|]. simpl.
  rewrite Hl in Hnd. rewrite Hl, (filter_other_nodes _ _ _ _ Hnd).
  rewrite !insert_insert_eq.
  split; [done|]. split; [|done].
  intros Hne. unfold nx. by rewrite decide_False.
Qed.

End Owners.

Lemma move_transfers_ownership_witness :
  ∃ o' w1 w2 w3,
    ScopedCallbackID.move_ctor (ScopedCallbackID.mk 0 5) owner_store = Ok o' w1 ∧
    ScopedCallbackID.dtor (ScopedCallbackID.mk 0 5) w1 = Ok tt w2 ∧
    chans w2 = chans owner_store ∧
    ScopedCallbackID.dtor o' w2 = Ok tt w3 ∧
    chans w3 !! 0 = Some (mkEvent [(3, Cb 2 [])] true (End 0)).
Proof.
  destruct (move_transfers_ownership (ScopedCallbackID.mk 0 5) owner_store
              (mkEvent [(2, Cb 1 []); (3, Cb 2 [])] true (End 0)) 2)
    as (o' & w1 & w2 & w3 & nx & Hmv & _ & _ & _ & _ & _ & _ & Hd1 & Hch2 & _ & _
        & Hd2 & Hch3 & _).
  - reflexivity.
  - reflexivity.
  - refine (bool_decide_unpack _ _). vm_compute. exact I.
  - refine (bool_decide_unpack _ _). vm_compute. exact I.
  - refine (bool_decide_unpack _ _). vm_compute. exact I.
  - exists o', w1, w2, w3. split; [exact Hmv|]. split; [exact Hd1|].
    split; [exact Hch2|]. split; [exact Hd2|].
    vm_compute in Hmv. injection Hmv as <- <-.
    vm_compute in Hd1. injection Hd1 as <-.
    vm_compute in Hd2. injection Hd2 as <-. reflexivity.
Defined.

Lemma invoke_calls_owned_callback_witness :
  ∃ w',
    ScopedCallbackID.invoke (ScopedCallbackID.mk 0 2) (Val 7%Z) disabled_owner
    = Ok tt w' ∧
    history w' = [Invoked 1 1 7%Z] ∧
    notify 5 0 (Val 7%Z) disabled_owner = Ok tt disabled_owner.
Proof.
  destruct (invoke_calls_owned_callback (ScopedCallbackID.mk 0 2) disabled_owner
              (mkEvent [(1, cbA)] false (End 0)) 1 cbA (Val 7%Z) 7%Z)
    as (w' & Hrun & Hh & _ & _ & _ & Hoff).
  - reflexivity.
  - reflexivity.
  - reflexivity.
  - constructor.
  - reflexivity.
  - exists w'. split; [exact Hrun|]. split; [exact Hh|]. by apply Hoff.
Defined.

Lemma replace_on_own_channel_witness :
  ∃ w',
    ScopedCallbackID.replace (ScopedCallbackID.mk 0 5) 0 cbA false owner_store
    = Ok tt w' ∧
    chans w' !! 0 = Some (mkEvent [(3, Cb 2 []); (6, cbA)] true (End 0)) ∧
    chans w' !! 1 = chans owner_store !! 1 ∧
    cells w' !! 5 = Some (At 6).
Proof.
  destruct (replace_on_own_channel (ScopedCallbackID.mk 0 5) owner_store
              (mkEvent [(2, Cb 1 []); (3, Cb 2 [])] true (End 0)) 2 cbA false)
    as (w' & nx & Hrun & Hch & Hnx & Hce & _).
  - reflexivity.
  - reflexivity.
  - refine (bool_decide_unpack _ _). vm_compute. exact I.
  - refine (bool_decide_unpack _ _). vm_compute. exact I.
  - exists w'. split; [exact Hrun|].
    rewrite Hch, Hce, (Hnx ltac:(discriminate)).
    split; [reflexivity|]. split; reflexivity.
Defined.

(** ** Removing one owner from a registry *)

Section RegistryOne.
Context {T : Type}.
Implicit Types (w : World T) (e : Event T) (ch : chan).
Implicit Types (o r : ScopedCallbackID.t) (os : list ScopedCallbackID.t).

(** The state of a registry does not depend on the order of the vector. *)
Lemma registry_inv_perm w0 os os' w :
  os ≡ₚ os' → registry_inv w0 os w → registry_inv w0 os' w.
Proof.
  intros Hp (Hb & Hf & Hold & Hown & Hnew & Hnd & Hinj).
  split_and!; try done.
  - by rewrite <- Hp.
  - intros ch e n He Hn Hge. destruct (Hnew _ _ _ He Hn Hge) as (o & Ho & Hrest).
    exists o. split; [by rewrite <- Hp|done].
  - by rewrite <- Hp.
  - intros o1 o2 n Ho1 Ho2. apply Hinj; by rewrite Hp.
Qed.

Lemma remove_first_skip os1 r os2 w :
  Forall (λ o, ScopedCallbackID._cb o ≠ ScopedCallbackID._cb r) os1 →
  ScopedCallbacksHolder.remove_first (os1 ++ r :: os2) r w
  = (ScopedCallbackID.dtor r;; ret (os1 ++ os2)) w.
Proof.
  induction 1 as [|o os1 Ho _ IH]; simpl.
  - by rewrite decide_True.
  - rewrite decide_False by done. unfold bind at 1. rewrite IH.
    unfold bind. by destruct (ScopedCallbackID.dtor r w).
Qed.

Lemma remove_first_absent os r w :
  Forall (λ o, ScopedCallbackID._cb o ≠ ScopedCallbackID._cb r) os →
  ScopedCallbacksHolder.remove_first os r w = Ok os w.
Proof.
  induction 1 as [|o os Ho _ IH]; simpl; [done|].
  rewrite decide_False by done. unfold bind. by rewrite IH.
Qed.

Lemma removeCallback_absent (h : ScopedCallbacksHolder.t) r w :
  Forall (λ o, ScopedCallbackID._cb o ≠ ScopedCallbackID._cb r)
    (ScopedCallbacksHolder._callbacks h) →
  ScopedCallbacksHolder.removeCallback h r w = Ok h w.
Proof.
  intros Hr. unfold ScopedCallbacksHolder.removeCallback.
  rewrite (bind_run _ _ _ _ _ (remove_first_absent _ r w Hr)). by destruct h.
Qed.

(** X11: [removeCallback] with a pointer the registry does not hold
    changes neither the registry nor the store. *)
Theorem removeCallback_unknown_owner (h : ScopedCallbacksHolder.t) r (w : World T) :
  ScopedCallbackID._cb r ∉ ScopedCallbackID._cb <$> ScopedCallbacksHolder._callbacks h →
  ScopedCallbacksHolder.removeCallback h r w = Ok h w.
Proof.
  intros Hr. apply removeCallback_absent.
  apply Forall_forall. intros o Ho Heq. apply Hr. rewrite <- Heq.
  by apply list_elem_of_fmap_2.
Qed.

(** X12: [removeCallback] for an owner held by the registry destroys
    that owner only: its subscription is gone from every channel and its
    handle is freed, while the other owners keep their order in the
    vector and their subscriptions; calling it again with the same
    pointer changes nothing, and a later [removeAllCallbacks] still
    returns every channel to the callbacks it had before the registry was
    used. *)
Theorem removeCallback_removes_one (w0 : World T) (ops : list (chan * Callback T * bool)) :
  bounded w0 →
  Forall (λ op, is_Some (chans w0 !! op.1.1)) ops →
  ∃ h w1,
    register ops ScopedCallbacksHolder.ctor w0 = Ok h w1 ∧
    ∀ r, r ∈ ScopedCallbacksHolder._callbacks h →
      ∃ os1 os2 w2 n,
        ScopedCallbacksHolder._callbacks h = os1 ++ r :: os2 ∧
        ScopedCallbacksHolder.removeCallback h r w1
        = Ok (ScopedCallbacksHolder.mk (os1 ++ os2)) w2 ∧
        cells w1 !! ScopedCallbackID._cb r = Some (At n) ∧
        cells w2 = delete (ScopedCallbackID._cb r) (cells w1) ∧
        (∀ ch e2, chans w2 !! ch = Some e2 → n ∉ nodes (_callbacks e2)) ∧
        Forall (λ o, ∃ m e2,
                  cells w2 !! ScopedCallbackID._cb o = Some (At m) ∧
                  chans w2 !! ScopedCallbackID._event o = Some e2 ∧
                  m ∈ nodes (_callbacks e2)) (os1 ++ os2) ∧
        ScopedCallbacksHolder.removeCallback (ScopedCallbacksHolder.mk (os1 ++ os2)) r w2
        = Ok (ScopedCallbacksHolder.mk (os1 ++ os2)) w2 ∧
        ∃ w3,
          ScopedCallbacksHolder.removeAllCallbacks (ScopedCallbacksHolder.mk (os1 ++ os2)) w2
          = Ok ScopedCallbacksHolder.ctor w3 ∧
          ∀ ch e0, chans w0 !! ch = Some e0 →
            ∃ e3, chans w3 !! ch = Some e3 ∧
                  _callbacks e3 = _callbacks e0 ∧ _enabled e3 = _enabled e0.
Proof.
  intros Hb Hops.
  destruct (registry_inv_register w0 ops [] w0 (registry_inv_init _ Hb) Hops)
    as (os & w1 & Hreg & Hinv1 & Hlen).
  simpl in Hreg, Hinv1.
  exists (ScopedCallbacksHolder.mk os), w1. split; [exact Hreg|].
  intros r Hr. cbn [ScopedCallbacksHolder._callbacks] in *.
  apply list_elem_of_split in Hr as (os1 & os2 & ->).
  pose proof Hinv1 as (_ & _ & _ & Hown1 & _ & Hnd1 & Hinj1).
  assert (Hperm : os1 ++ r :: os2 ≡ₚ r :: os1 ++ os2)
    by by rewrite Permutation_middle.
  pose proof (registry_inv_perm _ _ _ _ Hperm Hinv1) as Hinv1'.
  destruct (registry_inv_remove _ _ _ _ Hinv1') as (w2 & Hd & Hinv2 & Hc2 & Hf2 & Hv2).
  assert (Hcb : Forall (λ o, ScopedCallbackID._cb o ≠ ScopedCallbackID._cb r)
                  (os1 ++ os2)).
  { rewrite Hperm, fmap_cons in Hnd1. apply NoDup_cons in Hnd1 as [Hnot _].
    apply Forall_forall. intros o Ho Heq. apply Hnot. rewrite <- Heq.
    by apply list_elem_of_fmap_2. }
  assert (Hcb1 : Forall (λ o, ScopedCallbackID._cb o ≠ ScopedCallbackID._cb r) os1).
  { by apply Forall_app in Hcb as [? _]. }
  rewrite Forall_forall in Hown1.
  destruct (Hown1 r) as (n & e1 & Hc1 & Hge & He1 & Hn1).
  { apply elem_of_app. right. left. }
  exists os1, os2, w2, n. split; [done|].
  split.
  { unfold ScopedCallbacksHolder.removeCallback. cbn [ScopedCallbacksHolder._callbacks].
    unfold bind at 1. rewrite (remove_first_skip _ _ _ _ Hcb1).
    by rewrite (bind_run _ _ _ _ _ Hd). }
  split; [done|]. split; [done|].
  pose proof Hinv2 as (_ & _ & _ & Hown2 & Hnew2 & _ & _).
  split.
  { intros ch e2 He2 Hin.
    destruct (Hnew2 _ _ _ He2 Hin Hge) as (o & Ho & _ & Hco).
    rewrite Hc2 in Hco. rewrite Forall_forall in Hcb.
    rewrite lookup_delete_ne in Hco by (intros Heq; by apply (Hcb _ Ho)).
    assert (o = r) as ->.
    { eapply Hinj1; [|apply elem_of_app; right; left|exact Hco|exact Hc1].
      apply elem_of_app in Ho as [?|?]; apply elem_of_app; [by left|right; by right]. }
    by apply (Hcb _ Ho). }
  split.
  { eapply Forall_impl; [exact Hown2|]. intros o (m & e2 & ? & _ & ? & ?). eauto. }
  split.
  { by apply removeCallback_absent. }
  destruct (registry_inv_destroy w0 _ w2 Hinv2) as (w3 & Hdes & Hinv3 & _).
  exists w3. split.
  { unfold ScopedCallbacksHolder.removeAllCallbacks. simpl.
    by rewrite (bind_run _ _ _ _ _ Hdes). }
  intros ch e0. by apply registry_inv_empty.
Qed.

End RegistryOne.

Lemma removeCallback_unknown_owner_witness :
  ScopedCallbacksHolder.removeCallback
    (ScopedCallbacksHolder.mk [ScopedCallbackID.mk 0 5]) (ScopedCallbackID.mk 0 9)
    owner_store
  = Ok (ScopedCallbacksHolder.mk [ScopedCallbackID.mk 0 5]) owner_store.
Proof.
  apply (removeCallback_unknown_owner
           (ScopedCallbacksHolder.mk [ScopedCallbackID.mk 0 5])
           (ScopedCallbackID.mk 0 9) owner_store).
  refine (bool_decide_unpack _ _). vm_compute. exact I.
Defined.

Lemma removeCallback_removes_one_witness :
  ∃ h w1 os1 os2 w2,
    register [(0, cbB, false); (1, cbA, true); (0, cbA, true)]
      ScopedCallbacksHolder.ctor two_channels = Ok h w1 ∧
    ScopedCallbacksHolder._callbacks h = os1 ++ ScopedCallbackID.mk 1 6 :: os2 ∧
    ScopedCallbacksHolder.removeCallback h (ScopedCallbackID.mk 1 6) w1
    = Ok (ScopedCallbacksHolder.mk (os1 ++ os2)) w2 ∧
    chans w2 !! 1 = Some (mkEvent [] true (End 1)) ∧
    chans w2 !! 0 = chans w1 !! 0.
Proof.
  destruct (removeCallback_removes_one two_channels
              [(0, cbB, false); (1, cbA, true); (0, cbA, true)])
    as (h & w1 & Hreg & Hone).
  - unfold bounded. refine (bool_decide_unpack _ _). vm_compute. exact I.
  - refine (bool_decide_unpack _ _). vm_compute. exact I.
  - assert (Hh : h = ScopedCallbacksHolder.mk
                       [ScopedCallbackID.mk 0 4; ScopedCallbackID.mk 1 6;
                        ScopedCallbackID.mk 0 8]).
    { vm_compute in Hreg. by injection Hreg as <- _. }
    destruct (Hone (ScopedCallbackID.mk 1 6))
      as (os1 & os2 & w2 & n & Hsplit & Hrm & _).
    { rewrite Hh. right. left. }
    exists h, w1, os1, os2, w2. split; [exact Hreg|]. split; [exact Hsplit|].
    split; [exact Hrm|].
    vm_compute in Hreg. injection Hreg as <- <-.
    vm_compute in Hrm. injection Hrm as _ <-.
    split; reflexivity.
Defined.

(** ** The life of an observable value *)

Section ValueLife.
Context {T : Type}.
Implicit Types (w : World T) (e : Event T) (ch : chan) (val : Value.t).
Implicit Types (o : ScopedCallbackID.t) (os : list ScopedCallbackID.t).

Lemma add_listeners_register cs : ∀ val w,
  add_listeners cs val w
  = (h <- register (listener_ops (Value._e val) cs) (Value.holder val);;
     ret (Value.mk h (Value._t val) (Value._e val))) w.
Proof.
  induction cs as [|[c first] cs IH]; intros val w.
  - unfold listener_ops. simpl. unfold bind, ret. destruct val. reflexivity.
  - cbn [add_listeners listener_ops fmap list_fmap register fst snd].
    unfold Value.addListener, bind.
    destruct (ScopedCallbacksHolder.addCallback _ _ _ _ w) as [[r h'] w1|w1| | |]; [|done..].
    unfold ret at 1. cbn [fst snd]. rewrite IH. done.
Qed.

(** Subscribing through a registry to one channel: what it leaves in the
    store. *)
Lemma register_same_channel ch cs : ∀ h w e,
  chans w !! ch = Some e →
  ∃ news w' l,
    register (listener_ops ch cs) h w
    = Ok (ScopedCallbacksHolder.mk (ScopedCallbacksHolder._callbacks h ++ news)) w' ∧
    chans w' = <[ch := mkEvent l (_enabled e) (_nextCallback e)]> (chans w) ∧
    l.*2 = reverse (fronts cs) ++ (_callbacks e).*2 ++ backs cs ∧
    vals w' = vals w ∧ history w' = history w ∧
    Forall (λ o, fresh w ≤ ScopedCallbackID._cb o ∧ ScopedCallbackID._event o = ch) news ∧
    length news = length cs ∧
    (∀ p, p ∉ ScopedCallbackID._cb <$> news → cells w' !! p = cells w !! p).
Proof.
  induction cs as [|[c first] cs IH]; intros h w e He.
  - exists [], w, (_callbacks e). simpl. rewrite app_nil_r. split_and!; try done.
    + by destruct h.
    + by rewrite event_eta, insert_id.
    + unfold fronts, backs. simpl. by rewrite app_nil_r.
  - cbn [listener_ops fmap list_fmap register fst snd].
    unfold ScopedCallbacksHolder.addCallback. rewrite bind_assoc.
    rewrite (bind_run _ _ _ _ _ (ScopedCallbackID_ctor_run _ c first _ _ He)).
    unfold ret at 1, bind at 1. cbn [snd ScopedCallbacksHolder._callbacks].
    set (o := ScopedCallbackID.mk ch (S (fresh w))).
    set (e1 := mkEvent _ (_enabled e) (_nextCallback e)).
    set (w1 := mkWorld _ _ _ _ _).
    assert (He1 : chans w1 !! ch = Some e1) by apply lookup_insert_eq.
    destruct (IH (ScopedCallbacksHolder.mk (ScopedCallbacksHolder._callbacks h ++ [o]))
                w1 e1 He1)
      as (news & w' & l & Hrun & Hch & Hl & Hv & Hh & Hnews & Hlen & Hcells).
    exists (o :: news), w', l. fold (listener_ops ch cs). rewrite Hrun.
    cbn [ScopedCallbacksHolder._callbacks]. rewrite <- app_assoc. simpl.
    split; [done|]. split; [|split; [|split; [|split; [|split; [|split]]]]].
    + rewrite Hch. unfold w1. simpl. by rewrite insert_insert_eq.
    + rewrite Hl. unfold fronts, backs. cbn [e1 _callbacks].
      destruct first; simpl.
      * by rewrite reverse_cons, <- app_assoc.
      * by rewrite fmap_app, <- !app_assoc.
    + done.
    + done.
    + constructor; [simpl; split; [lia|done]|].
      eapply Forall_impl; [exact Hnews|]. intros o' [? ?]. simpl in *. split; [lia|done].
    + by rewrite Hlen.
    + intros p Hp. rewrite not_elem_of_cons in Hp. destruct Hp as [Hpo Hp].
      rewrite (Hcells _ Hp). unfold w1. simpl. by rewrite lookup_insert_ne.
Qed.

(** Destroying owners touches their channels and their handles only. *)
Lemma destroy_frame os : ∀ w w',
  ScopedCallbacksHolder.destroy os w = Ok tt w' →
  vals w' = vals w ∧
  (∀ ch, ch ∉ ScopedCallbackID._event <$> os → chans w' !! ch = chans w !! ch) ∧
  (∀ p, p ∉ ScopedCallbackID._cb <$> os → cells w' !! p = cells w !! p).
Proof.
  induction os as [|o os IH]; intros w w' H; simpl in H.
  - by inv_ok.
  - apply bind_ok in H as ([] & w1 & Hd & H).
    apply IH in H as (Hv & Hch & Hce).
    unfold ScopedCallbackID.dtor in Hd.
    apply bind_ok in Hd as ([] & w0 & Hr & Hf).
    assert (cells w1 = delete (ScopedCallbackID._cb o) (cells w0) ∧
            chans w1 = chans w0 ∧ vals w1 = vals w0) as (Hc1 & Hch1 & Hv1).
    { unfold free_cell in Hf. destruct (cells w0 !! _); [|done]. by injection Hf as <-. }
    apply remove_ok in Hr
      as (e & cv & He & Hcv & [[_ ->]|(n & l & nx & _ & _ & _ & Hch0 & Hc0 & Hv0 & _)]).
    + split; [congruence|]. split.
      * intros ch Hin. rewrite fmap_cons, not_elem_of_cons in Hin.
        destruct Hin as [_ Hin]. rewrite (Hch _ Hin). by rewrite Hch1.
      * intros p Hin. rewrite fmap_cons, not_elem_of_cons in Hin.
        destruct Hin as [Hne Hin]. rewrite (Hce _ Hin), Hc1. by rewrite lookup_delete_ne.
    + split; [congruence|]. split.
      * intros ch Hin. rewrite fmap_cons, not_elem_of_cons in Hin.
        destruct Hin as [Hne Hin]. rewrite (Hch _ Hin), Hch1, Hch0.
        by rewrite lookup_insert_ne.
      * intros p Hin. rewrite fmap_cons, not_elem_of_cons in Hin.
        destruct Hin as [Hne Hin]. rewrite (Hce _ Hin), Hc1, Hc0.
        rewrite lookup_delete_ne by done. by rewrite lookup_insert_ne.
Qed.

Lemma Value_ctor_run (v : T) w :
  Value.ctor v w
  = Ok (Value.mk ScopedCallbacksHolder.ctor (fresh w) (S (fresh w)))
       (mkWorld (<[S (fresh w) := mkEvent [] true (End (S (fresh w)))]> (chans w))
          (cells w) (<[fresh w := v]> (vals w)) (S (S (fresh w))) (history w)).
Proof. done. Qed.

Lemma Event_dtor_run ch w e :
  chans w !! ch = Some e →
  Event_dtor ch w
  = Ok tt (mkWorld (delete ch (chans w)) (cells w) (vals w) (fresh w)
             (history w ++ (Erased <$> nodes (_callbacks e)))).
Proof.
  intros He. unfold Event_dtor.
  rewrite (bind_run _ _ _ _ _ (this_event_run _ _ _ He)).
  by rewrite (bind_run _ _ _ _ _ (observe_all_run _ _)).
Qed.

(** X13: the life of an observable value: the constructor stores the
    initial value without notifying anybody; [addListener] subscribes to
    the value's own channel, in the order [add] gives; the destructor
    completes and leaves channels, handles and variables exactly as they
    were before the value was constructed. *)
Theorem Value_lifecycle (w0 : World T) (v : T) (cs : list (Callback T * bool)) :
  addresses_bounded w0 →
  ∃ val w1 val' w2 e2 w3,
    Value.ctor v w0 = Ok val w1 ∧
    Value.get val w1 = Ok v w1 ∧
    history w1 = history w0 ∧
    add_listeners cs val w1 = Ok val' w2 ∧
    Value._e val' = Value._e val ∧ Value._t val' = Value._t val ∧
    length (ScopedCallbacksHolder._callbacks (Value.holder val')) = length cs ∧
    chans w2 !! Value._e val = Some e2 ∧
    (_callbacks e2).*2 = reverse (fronts cs) ++ backs cs ∧
    _enabled e2 = true ∧
    Value.get val' w2 = Ok v w2 ∧
    history w2 = history w0 ∧
    Value.dtor val' w2 = Ok tt w3 ∧
    chans w3 = chans w0 ∧ cells w3 = cells w0 ∧ vals w3 = vals w0.
Proof.
  intros ([Hbc Hbh] & Hbch & Hbv).
  rewrite Value_ctor_run.
  set (f := fresh w0).
  set (val := Value.mk ScopedCallbacksHolder.ctor f (S f)).
  set (e1 := mkEvent (T:=T) [] true (End (S f))).
  set (w1 := mkWorld _ _ _ _ _).
  assert (He1 : chans w1 !! S f = Some e1) by apply lookup_insert_eq.
  assert (Hv1 : vals w1 !! f = Some v) by apply lookup_insert_eq.
  assert (Hb1 : bounded w1).
  { split; simpl.
    - apply map_Forall_insert_2; [split; constructor|].
      eapply map_Forall_impl; [exact Hbc|]. intros ch e [Hnd Hlt]. split; [done|].
      eapply Forall_impl; [exact Hlt|]. intros; simpl in *; unfold f; lia.
    - eapply map_Forall_impl; [exact Hbh|]. intros; simpl in *; unfold f; lia. }
  assert (Hch0 : chans w0 !! S f = None).
  { destruct (chans w0 !! S f) eqn:H; [|done].
    apply (map_Forall_lookup_1 _ _ _ _ Hbch) in H. unfold f in H. lia. }
  assert (Hv0 : vals w0 !! f = None).
  { destruct (vals w0 !! f) eqn:H; [|done].
    apply (map_Forall_lookup_1 _ _ _ _ Hbv) in H. unfold f in H. lia. }
  (* the listeners *)
  destruct (register_same_channel (S f) cs ScopedCallbacksHolder.ctor w1 e1 He1)
    as (os & w2 & l & Hreg & Hch2 & Hl & Hv2 & Hh2 & Hos & Hlen & Hce2).
  unfold ScopedCallbacksHolder.ctor in Hreg.
  cbn [ScopedCallbacksHolder._callbacks app] in Hreg.
  destruct (registry_inv_register w1 (listener_ops (S f) cs) [] w1
              (registry_inv_init _ Hb1)) as (os' & w2' & Hreg' & Hinv2 & _).
  { apply Forall_forall. intros op (cf & -> & _)%list_elem_of_fmap. simpl. eauto. }
  cbn [app] in Hreg', Hinv2. rewrite Hreg in Hreg'. injection Hreg' as <- <-.
  set (val' := Value.mk (ScopedCallbacksHolder.mk os) f (S f)).
  assert (Hadd : add_listeners cs val w1 = Ok val' w2).
  { rewrite add_listeners_register. simpl. by rewrite (bind_run _ _ _ _ _ Hreg). }
  assert (He2 : chans w2 !! S f = Some (mkEvent l true (End (S f)))).
  { rewrite Hch2. apply lookup_insert_eq. }
  (* the destructor *)
  destruct (registry_inv_destroy w1 os w2 Hinv2)
    as (w3 & Hdes & Hinv3 & _ & Hfreed & Hf3 & Hv3).
  destruct (destroy_frame _ _ _ Hdes) as (_ & Hch3 & Hce3).
  destruct (registry_inv_empty _ _ _ _ Hinv3 He1) as (e3 & He3 & Hl3 & _).
  assert (Hval3 : vals w3 !! (f : loc) = Some v) by by rewrite Hv3, Hv2.
  set (w4 := mkWorld (delete (S f) (chans w3)) (cells w3) (delete f (vals w3))
               (fresh w3) (history w3 ++ (Erased <$> nodes (_callbacks e3)))).
  assert (Hdtor : Value.dtor val' w2 = Ok tt w4).
  { unfold Value.dtor, ScopedCallbacksHolder.removeAllCallbacks.
    cbn [Value.holder Value._e Value._t val' ScopedCallbacksHolder._callbacks].
    rewrite bind_assoc. rewrite (bind_run _ _ _ _ _ Hdes).
    unfold ret at 1, bind at 1.
    rewrite (bind_run _ _ _ _ _ (Event_dtor_run _ _ _ He3)).
    unfold free_val, bind at 1. cbn [vals]. rewrite Hval3. done. }
  exists val, w1, val', w2, (mkEvent l true (End (S f))), w4.
  split; [done|]. split; [by apply Value_get_run|]. split; [done|].
  split; [exact Hadd|]. split; [done|]. split; [done|]. split; [exact Hlen|].
  split; [exact He2|].
  split; [cbn [_callbacks]; by rewrite Hl|].
  split; [done|].
  split; [apply Value_get_run; by rewrite Hv2|]. split; [done|].
  split; [exact Hdtor|].
  assert (Hev : ∀ o, o ∈ os → ScopedCallbackID._event o = S f ∧
                              fresh w1 ≤ ScopedCallbackID._cb o).
  { intros o Ho. rewrite Forall_forall in Hos. destruct (Hos _ Ho). done. }
  split; [|split].
  - apply map_eq. intros ch. unfold w4. cbn [chans].
    destruct (decide (ch = S f)) as [->|Hne].
    + by rewrite lookup_delete_eq.
    + rewrite lookup_delete_ne by done. rewrite Hch3.
      * rewrite Hch2, lookup_insert_ne by done. unfold w1. simpl.
        by rewrite lookup_insert_ne.
      * intros (o & -> & Ho)%list_elem_of_fmap. by destruct (Hev _ Ho).
  - apply map_eq. intros p. unfold w4. cbn [cells].
    destruct (decide (p ∈ ScopedCallbackID._cb <$> os)) as [Hin|Hnin].
    + apply list_elem_of_fmap in Hin as (o & -> & Ho).
      rewrite Forall_forall in Hfreed. rewrite (Hfreed _ Ho).
      destruct (cells w0 !! ScopedCallbackID._cb o) eqn:Hc; [|done].
      apply (map_Forall_lookup_1 _ _ _ _ Hbh) in Hc.
      destruct (Hev _ Ho) as [_ Hge]. unfold w1, f in Hge. simpl in Hge. lia.
    + by rewrite (Hce3 _ Hnin), (Hce2 _ Hnin).
  - unfold w4. cbn [vals]. rewrite Hv3, Hv2. unfold w1. simpl.
    rewrite delete_insert_eq. by apply delete_id.
Qed.

End ValueLife.

Lemma Value_lifecycle_witness :
  ∃ val w1 val' w2 w3,
    Value.ctor 0%Z owner_store = Ok val w1 ∧
    add_listeners [(cbA, false); (cbB, true)] val w1 = Ok val' w2 ∧
    chans w2 !! Value._e val = Some (mkEvent [(10, cbB); (8, cbA)] true (End 7)) ∧
    Value.dtor val' w2 = Ok tt w3 ∧
    chans w3 = chans owner_store ∧ cells w3 = cells owner_store ∧
    vals w3 = vals owner_store.
Proof.
  destruct (Value_lifecycle owner_store 0%Z [(cbA, false); (cbB, true)])
    as (val & w1 & val' & w2 & e2 & w3 & Hc & _ & _ & Ha & _ & _ & _ & He2 & _ & _ & _ & _
        & Hd & Hch & Hce & Hv).
  - unfold addresses_bounded, bounded.
    refine (bool_decide_unpack _ _). vm_compute. exact I.
  - exists val, w1, val', w2, w3. split; [exact Hc|]. split; [exact Ha|].
    split; [|by split_and!].
    vm_compute in Hc. injection Hc as <- <-.
    vm_compute in Ha. injection Ha as <- <-. reflexivity.
Defined.

(** ** Lifetimes *)

Section Lifetimes.
Context {T : Type}.
Implicit Types (w : World T) (e : Event T) (ch : chan).
Implicit Types (o : ScopedCallbackID.t).

Lemma dead_channel_remove ch h w :
  chans w !! ch = None → remove (T:=T) ch h w = Undefined.
Proof. intros H. unfold remove, this_event, bind. by rewrite H. Qed.

Lemma dead_channel_invoke o (a : Arg T) w :
  chans w !! ScopedCallbackID._event o = None →
  ScopedCallbackID.invoke o a w = Undefined.
Proof.
  intros H. unfold ScopedCallbackID.invoke, load, bind at 1.
  destruct (cells w !! ScopedCallbackID._cb o); [|done]. cbn [lift]. unfold ret at 1.
  unfold this_event, bind at 1. by rewrite H.
Qed.

(** X14: an owner bound to a channel that has been destroyed is
    unusable: its destructor and [invoke] act on a dead object, and so
    does the destructor of a registry holding such an owner.  This is why
    [~Value] removes its listeners before its channel member dies. *)
Theorem owner_must_not_outlive_channel o (w : World T) e :
  chans w !! ScopedCallbackID._event o = Some e →
  ∃ w',
    Event_dtor (ScopedCallbackID._event o) w = Ok tt w' ∧
    cells w' = cells w ∧
    ScopedCallbackID.dtor o w' = Undefined ∧
    (∀ a, ScopedCallbackID.invoke o a w' = Undefined) ∧
    (∀ o', ScopedCallbackID._event o' = ScopedCallbackID._event o →
           ScopedCallbacksHolder.dtor (ScopedCallbacksHolder.mk [o']) w' = Undefined).
Proof.
  intros He. rewrite (Event_dtor_run _ _ _ He).
  set (w' := mkWorld _ _ _ _ _).
  assert (Hdead : chans w' !! ScopedCallbackID._event o = None) by apply lookup_delete_eq.
  exists w'. split; [done|]. split; [done|]. split; [|split].
  - unfold ScopedCallbackID.dtor, bind. by rewrite (dead_channel_remove _ _ _ Hdead).
  - intros a. by apply dead_channel_invoke.
  - intros o' Heq. unfold ScopedCallbacksHolder.dtor. simpl.
    unfold ScopedCallbackID.dtor, bind. rewrite Heq.
    by rewrite (dead_channel_remove _ _ _ Hdead).
Qed.

Lemma ScopedNotifier_ctor_run n w (v : T) :
  vals w !! Notifier._t n = Some v →
  ScopedNotifier.ctor n w
  = Ok (ScopedNotifier.mk (Notifier.mk (fresh w) (Notifier._e n)))
       (with_vals (insert (fresh w) v) (with_fresh (S (fresh w)) w)).
Proof.
  intros Hv. unfold ScopedNotifier.ctor, Notifier.copy_ctor, load_val.
  unfold bind at 1, bind at 1. by rewrite Hv.
Qed.

(** X15: a [ScopedNotifier] copies the notifier when it is constructed,
    without notifying, and triggers the copy once when it goes out of
    scope: every callback is called once if the channel is enabled then,
    nobody if it is disabled; either way the notifier it was made from
    and all other variables are as before. *)
Theorem ScopedNotifier_triggers_at_scope_exit n (w : World T) e (v : T)
    (by_ref : bool) fuel :
  vals w !! Notifier._t n = Some v →
  map_Forall (λ x _, x < fresh w) (vals w) →
  chans w !! Notifier._e n = Some e →
  NoDup (nodes (_callbacks e)) →
  Forall passive (_callbacks e).*2 →
  length (_callbacks e) < fuel →
  ∃ s w1 w2,
    ScopedNotifier.ctor n w = Ok s w1 ∧
    history w1 = history w ∧ chans w1 = chans w ∧
    ScopedNotifier.dtor by_ref fuel s w1 = Ok tt w2 ∧
    history w2
    = history w ++ (if _enabled e then deliveries by_ref v (_callbacks e) else []) ∧
    vals w2 = vals w ∧ cells w2 = cells w.
Proof.
  intros Hv Hb He Hnd Hp Hf.
  rewrite (ScopedNotifier_ctor_run _ _ _ Hv).
  set (p := fresh w).
  set (w1 := with_vals _ _).
  assert (Hnone : vals w !! p = None).
  { destruct (vals w !! p) eqn:H; [|done].
    apply (map_Forall_lookup_1 _ _ _ _ Hb) in H. unfold p in H. lia. }
  assert (Hp1 : vals w1 !! (p : loc) = Some v) by apply lookup_insert_eq.
  assert (He1 : chans w1 !! Notifier._e n = Some e) by done.
  set (a := if by_ref then Ref p else Val v).
  assert (Hpass : pass by_ref p w1 = Ok a w1).
  { unfold pass, a. destruct by_ref; [done|].
    unfold load_val, bind. by rewrite Hp1. }
  assert (Ha : arg_value a w1 = Ok v w1).
  { unfold a. destruct by_ref; simpl; [|done]. unfold load_val. by rewrite Hp1. }
  assert (Href : is_ref a = by_ref) by (unfold a; by destruct by_ref).
  destruct (_enabled e) eqn:Hen;
    (eexists _, w1, _; split; [done|]; split; [done|]; split; [done|];
     unfold ScopedNotifier.dtor; cbn [ScopedNotifier._n]).
  - assert (Htrig : Notifier.trigger by_ref fuel (Notifier.mk p (Notifier._e n)) w1
                    = notify fuel (Notifier._e n) a w1).
    { unfold Notifier.trigger. cbn [Notifier._t Notifier._e].
      by rewrite (bind_run _ _ _ _ _ Hpass). }
    rewrite (notify_togglers _ a w1 e v fuel He1 Hen Hnd (passive_togglers _ _ Hp) Hf Ha)
      in Htrig.
    rewrite (bind_run _ _ _ _ _ (noexcept_run _ _ _ _ Htrig)).
    unfold free_val. cbn [vals Notifier._t].
    assert (Hw : written a (modified (bodies (_callbacks e)) v) (vals w1)
                 !! (p : loc) ≠ None).
    { unfold a. destruct by_ref; simpl.
      - by rewrite lookup_insert_eq.
      - by rewrite lookup_insert_eq. }
    destruct (written a _ (vals w1) !! (p : loc)); [|done].
    split; [reflexivity|]. simpl. rewrite Href. split; [done|]. split; [|done].
    unfold a. destruct by_ref; simpl.
    + rewrite insert_insert_eq, delete_insert_eq. by apply delete_id.
    + rewrite delete_insert_eq. by apply delete_id.
  - assert (Htrig : Notifier.trigger by_ref fuel (Notifier.mk p (Notifier._e n)) w1
                    = notify fuel (Notifier._e n) a w1).
    { unfold Notifier.trigger. cbn [Notifier._t Notifier._e].
      by rewrite (bind_run _ _ _ _ _ Hpass). }
    rewrite (notify_disabled _ _ _ fuel a He1 Hen) in Htrig.
    rewrite (bind_run _ _ _ _ _ (noexcept_run _ _ _ _ Htrig)).
    unfold free_val. cbn [Notifier._t]. rewrite Hp1.
    split; [reflexivity|]. simpl. rewrite app_nil_r. split; [done|]. split; [|done].
    rewrite delete_insert_eq. by apply delete_id.
Qed.

End Lifetimes.

Lemma owner_must_not_outlive_channel_witness :
  ∃ w',
    Event_dtor 0 owner_store = Ok tt w' ∧
    ScopedCallbackID.dtor (ScopedCallbackID.mk 0 5) w' = Undefined.
Proof.
  destruct (owner_must_not_outlive_channel (ScopedCallbackID.mk 0 5) owner_store
              (mkEvent [(2, Cb 1 []); (3, Cb 2 [])] true (End 0)))
    as (w' & Hrun & _ & Hd & _).
  - reflexivity.
  - exists w'. split; [exact Hrun|exact Hd].
Defined.

Lemma ScopedNotifier_triggers_at_scope_exit_witness :
  ∃ s w1 w2,
    ScopedNotifier.ctor (Notifier.mk 2 0) stored_five = Ok s w1 ∧
    ScopedNotifier.dtor true 2 s w1 = Ok tt w2 ∧
    history w2 = [Invoked 1 1 5%Z] ∧
    vals w2 = vals stored_five.
Proof.
  destruct (ScopedNotifier_triggers_at_scope_exit (Notifier.mk 2 0) stored_five
              (mkEvent [(1, Cb 1 [SModify Z.succ])] true (End 0)) 5%Z true 2)
    as (s & w1 & w2 & Hc & _ & _ & Hd & Hh & Hv & _).
  - reflexivity.
  - refine (bool_decide_unpack _ _). vm_compute. exact I.
  - reflexivity.
  - refine (bool_decide_unpack _ _). vm_compute. exact I.
  - unfold passive. refine (bool_decide_unpack _ _). vm_compute. exact I.
  - simpl. lia.
  - exists s, w1, w2. split; [exact Hc|]. split; [exact Hd|].
    split; [exact Hh|exact Hv].
Defined.

(** ** Notifying an observable value *)

Section ValueNotify.
Context {T : Type}.
Implicit Types (w : World T) (e : Event T) (val : Value.t).

Lemma Value_notify_run by_ref fuel val (u : T) w :
  vals w !! Value._t val = Some u →
  Value.notify by_ref fuel val w
  = notify fuel (Value._e val) (if by_ref then Ref (Value._t val) else Val u) w.
Proof.
  intros Hu. unfold Value.notify, pass. destruct by_ref; [done|].
  unfold load_val, bind at 1, bind at 1. by rewrite Hu.
Qed.

(** X16: [Value::notify] delivers the stored value again; with a
    value-typed channel [get] returns the same value afterwards, with a
    reference-typed channel ([Value<int, int&>]) the listeners update the
    stored value in turn, after [notify] as well as after [set]. *)
Theorem Value_by_reference_listeners_update_value val (w : World T) e (u v : T) fuel :
  vals w !! Value._t val = Some u →
  chans w !! Value._e val = Some e → _enabled e = true →
  NoDup (nodes (_callbacks e)) →
  Forall passive (_callbacks e).*2 →
  length (_callbacks e) < fuel →
  (∃ w',
      Value.notify false fuel val w = Ok tt w' ∧
      history w' = history w ++ calls u (_callbacks e) ∧
      Value.get val w' = Ok u w') ∧
  (∃ w',
      Value.notify true fuel val w = Ok tt w' ∧
      history w' = history w ++ deliveries true u (_callbacks e) ∧
      Value.get val w' = Ok (modified (bodies (_callbacks e)) u) w') ∧
  (∃ w',
      Value.set true fuel val v w = Ok tt w' ∧
      history w' = history w ++ deliveries true v (_callbacks e) ∧
      Value.get val w' = Ok (modified (bodies (_callbacks e)) v) w').
Proof.
  intros Hu He Hen Hnd Hp Hf. split_and!.
  - rewrite (Value_notify_run false _ _ _ _ Hu).
    rewrite (notify_passive _ u _ _ _ He Hen Hnd Hp Hf).
    eexists. split; [reflexivity|]. split; [done|]. by apply Value_get_run.
  - rewrite (Value_notify_run true _ _ _ _ Hu).
    rewrite (notify_togglers _ (Ref (Value._t val)) w e u fuel He Hen Hnd
               (passive_togglers _ _ Hp) Hf).
    + eexists. split; [reflexivity|]. split; [done|].
      apply Value_get_run. simpl. apply lookup_insert_eq.
    + simpl. unfold load_val. by rewrite Hu.
  - rewrite (Value_set_run true _ _ _ _ _ Hu).
    set (w1 := with_vals _ w).
    assert (He1 : chans w1 !! Value._e val = Some e) by done.
    rewrite (notify_togglers _ (Ref (Value._t val)) w1 e v fuel He1 Hen Hnd
               (passive_togglers _ _ Hp) Hf).
    + eexists. split; [reflexivity|]. split; [done|].
      apply Value_get_run. simpl. apply lookup_insert_eq.
    + simpl. unfold load_val. simpl. by rewrite lookup_insert_eq.
Qed.

End ValueNotify.

Lemma Value_by_reference_listeners_update_value_witness :
  ∃ w',
    Value.set true 2 observable 7%Z stored_five = Ok tt w' ∧
    history w' = [Invoked 1 1 7%Z] ∧
    Value.get observable w' = Ok 8%Z w'.
Proof.
  destruct (Value_by_reference_listeners_update_value observable stored_five
              (mkEvent [(1, Cb 1 [SModify Z.succ])] true (End 0)) 5%Z 7%Z 2)
    as (_ & _ & w' & Hrun & Hh & Hg).
  - reflexivity.
  - reflexivity.
  - reflexivity.
  - refine (bool_decide_unpack _ _). vm_compute. exact I.
  - unfold passive. refine (bool_decide_unpack _ _). vm_compute. exact I.
  - simpl. lia.
  - exists w'. split; [exact Hrun|]. split; [exact Hh|exact Hg].
Defined.

(** ** Dispatch over callbacks that add, remove and toggle *)

Section Safe.
Context {T : Type}.
Implicit Types (w : World T) (e : Event T) (this : chan) (D : gset loc).
Implicit Types (l pre post : list (node * Callback T)) (t : list (Obs T)).
Implicit Types (c : Callback T).

Lemma total_weight_app l1 l2 :
  total_weight (l1 ++ l2) = total_weight l1 + total_weight l2.
Proof.
  unfold total_weight. induction l1 as [|[n c] l1 IH]; [done|].
  rewrite <- app_comm_cons, !fmap_cons. simpl. rewrite IH. lia.
Qed.

Lemma total_weight_cons n c l :
  total_weight ((n, c) :: l) = weight c + total_weight l.
Proof. done. Qed.

Lemma total_weight_snoc l n c :
  total_weight (l ++ [(n, c)]) = total_weight l + weight c.
Proof.
  rewrite total_weight_app, total_weight_cons.
  change (total_weight (T:=T) []) with 0. lia.
Qed.

Lemma local_stmt_add this D (ch : chan) h (c : Callback T) (first : bool) :
  local_stmt this D (SAdd ch h c first) → ch = this ∧ h ∈ D ∧ local this D c.
Proof.
  destruct c as [nm body]. simpl. intros [H1 H2]%andb_True.
  apply bool_decide_unpack in H1 as [-> Hh]. done.
Qed.

Lemma stmt_weight_add (ch : chan) h (c : Callback T) (first : bool) :
  stmt_weight (SAdd ch h c first) = weight c.
Proof. by destruct c. Qed.

Lemma local_body this D (c : Callback T) :
  local this D c → Forall (λ s, local_stmt this D s) (cb_body c).
Proof. unfold local. by rewrite forallb_True. Qed.

(** Erasing the node a handle variable holds. *)
Lemma channel_ok_erase this D l1 n c l2 w w' h en nx :
  channel_ok this D (l1 ++ (n, c) :: l2) w →
  cells w !! h = Some (At n) →
  chans w' = <[this := mkEvent (l1 ++ l2) en nx]> (chans w) →
  cells w' = <[h := End this]> (cells w) →
  fresh w' = fresh w →
  channel_ok this D (l1 ++ l2) w'.
Proof.
  intros ((e & He & Hl) & Hnd & Hlt & Hdom & Hv & Hna & Hloc) Hh Hch Hce Hf.
  destruct (handles_after_erase _ _ _ _ _ _ _ Hnd Hv Hna Hh) as [Hv' Hna'].
  split_and!.
  - eexists. split; [rewrite Hch; apply lookup_insert_eq|done].
  - eapply sublist_NoDup; [exact Hnd|apply nodes_sublist, sublist_app_erase].
  - rewrite Hf. eapply Forall_sublist; [|exact Hlt]. apply nodes_sublist, sublist_app_erase.
  - rewrite Hce, dom_insert_L, Hdom.
    assert (Hin : h ∈ D) by (rewrite <- Hdom; apply elem_of_dom; eauto).
    apply set_eq. intros x. rewrite elem_of_union, elem_of_singleton.
    split; [intros [->|?]; done|auto].
  - by rewrite Hce.
  - by rewrite Hce.
  - eapply Forall_sublist; [|exact Hloc]. apply fmap_sublist, sublist_app_erase.
Qed.

(** Subscribing a callback of the same kind and storing its handle. *)
Lemma channel_ok_add this D l l' c w w' h en nx :
  channel_ok this D l w →
  h ∈ D → local this D c →
  nodes l' ≡ₚ fresh w :: nodes l →
  l'.*2 ≡ₚ c :: l.*2 →
  chans w' = <[this := mkEvent l' en nx]> (chans w) →
  cells w' = <[h := At (fresh w)]> (cells w) →
  fresh w' = S (fresh w) →
  channel_ok this D l' w'.
Proof.
  intros ((e & He & Hl) & Hnd & Hlt & Hdom & Hv & Hna & Hloc) Hh Hc Hn' Hc' Hch Hce Hf.
  assert (Hfresh : fresh w ∉ nodes l).
  { intros Hin. rewrite Forall_forall in Hlt. apply Hlt in Hin. lia. }
  rewrite handles_valid_spec in Hv. rewrite no_alias_spec in Hna.
  split_and!.
  - eexists. split; [rewrite Hch; apply lookup_insert_eq|done].
  - rewrite Hn'. by constructor.
  - rewrite Hn', Hf. constructor; [lia|].
    eapply Forall_impl; [exact Hlt|]. intros; simpl in *; lia.
  - rewrite Hce, dom_insert_L, Hdom.
    apply set_eq. intros x. rewrite elem_of_union, elem_of_singleton.
    split; [intros [->|?]; done|auto].
  - rewrite Hce. apply handles_valid_spec. intros h' cv.
    rewrite lookup_insert. case_decide as Hhh.
    + intros [= <-]. right. exists (fresh w). split; [done|]. rewrite Hn'. left.
    + intros Hh'. destruct (Hv _ _ Hh') as [->|(m & -> & Hm)]; [by left|].
      right. exists m. split; [done|]. rewrite Hn'. by right.
  - rewrite Hce. apply no_alias_spec. intros h1 h2 m.
    rewrite !lookup_insert. repeat case_decide; subst; try done.
    + intros [= <-] H2. destruct (Hv _ _ H2) as [?|(m & [= <-] & Hm)]; done.
    + intros H1 [= <-]. destruct (Hv _ _ H1) as [?|(m & [= <-] & Hm)]; done.
    + by apply Hna.
  - rewrite Hc'. by constructor.
Qed.

(** A change of the flag, of the cursor or of a [T] lvalue. *)
Lemma channel_ok_frame this D l w w' :
  channel_ok this D l w →
  (∃ e, chans w' !! this = Some e ∧ _callbacks e = l) →
  cells w' = cells w → fresh w' = fresh w →
  channel_ok this D l w'.
Proof.
  intros (_ & Hnd & Hlt & Hdom & Hv & Hna & Hloc) He Hce Hf.
  split; [done|]. rewrite Hce, Hf. done.
Qed.

Lemma readable_frame (a : Arg T) w w' :
  readable a w → (∀ y, is_Some (vals w !! y) → is_Some (vals w' !! y)) → readable a w'.
Proof. destruct a as [v|x]; simpl; [done|]. intros H Hy. by apply Hy. Qed.

Lemma total_weight_erase l1 n c l2 :
  total_weight (l1 ++ l2) ≤ total_weight (l1 ++ (n, c) :: l2).
Proof. rewrite !total_weight_app, total_weight_cons. lia. Qed.

Lemma dispatching_frame this D (a : Arg T) h0 S0 pre post t w w' :
  dispatching this D a h0 S0 pre post t w →
  (∃ e, chans w' !! this = Some e ∧ _callbacks e = pre ++ post) →
  cells w' = cells w → fresh w' = fresh w → history w' = history w →
  readable a w' →
  dispatching this D a h0 S0 pre post t w'.
Proof.
  intros (Hok & Hrd & Hh & Hsafe & Hndi & Her & Hinv & Hall) He Hce Hf Hhi Hrd'.
  split_and!; try done.
  - by eapply channel_ok_frame.
  - by rewrite Hhi.
  - intros n Hn. rewrite Hf. by apply Her.
  - intros n Hn. rewrite Hf. by apply Hinv.
Qed.

(** One statement of a callback while the dispatch is in progress. *)
Lemma stmt_during self this D (a : Arg T) h0 S0 s pre post t w :
  local_stmt this D s →
  dispatching this D a h0 S0 pre post t w → cursor_at this post w →
  ∃ w' pre' post' t',
    run_stmt self a s w = Ok tt w' ∧
    dispatching this D a h0 S0 pre' post' (t ++ t') w' ∧ cursor_at this post' w' ∧
    invoked t' = [] ∧
    total_weight post' ≤ total_weight post + stmt_weight s.
Proof.
  intros Hs Hdis (e & He & Hcur).
  pose proof Hdis as (Hok & Hrd & Hh & Hsafe & Hndi & Her & Hinv & Hall).
  pose proof Hok as ((e' & He' & Hl) & Hnd & Hlt & Hdom & Hv & Hna & Hloc).
  simplify_eq.
  destruct s as [ch h|ch h c first|ch b|f| |]; [| | | |done..].
  - (* remove *)
    simpl in Hs. apply bool_decide_unpack in Hs as [-> Hh'].
    assert (is_Some (cells w !! h)) as [cv Hcv] by by apply elem_of_dom.
    rewrite handles_valid_spec in Hv.
    destruct (Hv _ _ Hcv) as [->|(n & -> & Hn)].
    { exists w, pre, post, []. cbn [run_stmt].
      rewrite (remove_run_empty _ _ _ _ He Hcv), app_nil_r.
      split; [done|]. split; [done|]. split; [by exists e|]. split; [done|].
      simpl. lia. }
    assert (Hnlt : n < fresh w).
    { rewrite Forall_forall in Hlt. by apply Hlt. }
    assert (Hsafe' : never_called_after_erased (t ++ [Erased n])).
    { apply safe_snoc; [done|]. by intros. }
    assert (Hndi' : NoDup (invoked (t ++ [Erased n]))).
    { rewrite invoked_app. simpl. by rewrite app_nil_r. }
    destruct (decide (n ∈ nodes pre)) as [Hpre|Hpre].
    + destruct (nodes_split _ _ Hpre) as (p1 & c & p2 & -> & Hp1).
      rewrite <- app_assoc in Hl, Hok, Hnd. simpl in Hl, Hok, Hnd.
      assert (Hne : At n ≠ _nextCallback e).
      { rewrite Hcur. intros Heq. symmetry in Heq.
        apply list_begin_node in Heq as (c' & post' & ->).
        repeat first [rewrite nodes_app in Hnd | rewrite nodes_cons in Hnd].
        apply NoDup_app in Hnd as (_ & _ & Hnd). apply NoDup_cons in Hnd as [Hnd _].
        apply Hnd. rewrite elem_of_app. right. left. }
      assert (Hgone : n ∉ nodes ((p1 ++ p2) ++ post)).
      { rewrite <- app_assoc. intros Hin.
        rewrite nodes_app, nodes_cons in Hnd. apply NoDup_app in Hnd as (_ & Hd & Hnd).
        apply NoDup_cons in Hnd as [Hnd _].
        rewrite nodes_app, elem_of_app in Hin. destruct Hin as [Hin|Hin]; [|done].
        apply (Hd _ Hin). left. }
      eexists _, (p1 ++ p2), post, [Erased n]. cbn [run_stmt].
      rewrite (remove_run_node _ _ _ _ _ _ _ _ He Hcv Hl Hp1).
      rewrite decide_False by done.
      split; [done|]. split; [|split; [|split; [done|simpl; lia]]].
      * split_and!; simpl; try done.
        -- rewrite <- app_assoc.
           eapply (channel_ok_erase _ _ _ _ _ _ _ _ h (_enabled e) (_nextCallback e) Hok);
             done.
        -- by rewrite Hh, app_assoc.
        -- intros m [Hm|Hm%list_elem_of_singleton]%elem_of_app.
           ++ destruct (Her _ Hm) as [Hnot Hmlt]. split; [|done].
              intros Hin. apply Hnot.
              eapply elem_of_sublist; [exact Hin|].
              apply nodes_sublist. apply sublist_app; [apply sublist_app_erase|done].
           ++ injection Hm as ->. done.
        -- intros m Hm. rewrite invoked_app in Hm. simpl in Hm. rewrite app_nil_r in Hm.
           by apply Hinv.
        -- intros m Hm. rewrite invoked_app. simpl. rewrite app_nil_r, elem_of_app.
           destruct (Hall _ Hm) as [?|[?|?]]; auto.
      * eexists. split; [simpl; apply lookup_insert_eq|done].
    + rewrite nodes_app, elem_of_app in Hn. destruct Hn as [Hn|Hn]; [done|].
      destruct (nodes_split _ _ Hn) as (q1 & c & q2 & -> & Hq1).
      assert (Hpq : n ∉ nodes (pre ++ q1)).
      { rewrite nodes_app, elem_of_app. by intros [?|?]. }
      rewrite (app_assoc pre q1) in Hl, Hok, Hnd.
      assert (Hgone : n ∉ nodes (pre ++ q1 ++ q2)).
      { rewrite app_assoc. intros Hin.
        rewrite nodes_app, nodes_cons in Hnd. apply NoDup_app in Hnd as (_ & Hd & Hnd).
        apply NoDup_cons in Hnd as [Hnd _].
        rewrite nodes_app, elem_of_app in Hin. destruct Hin as [Hin|Hin]; [|done].
        apply (Hd _ Hin). left. }
      eexists _, pre, (q1 ++ q2), [Erased n]. cbn [run_stmt].
      rewrite (remove_run_node _ _ _ _ _ _ _ _ He Hcv Hl Hpq).
      split; [done|]. split; [|split; [|split; [done|]]].
      * split_and!; simpl; try done.
        -- rewrite app_assoc.
           eapply (channel_ok_erase _ _ _ _ _ _ _ _ h (_enabled e) _ Hok); done.
        -- by rewrite Hh, app_assoc.
        -- intros m [Hm|Hm%list_elem_of_singleton]%elem_of_app.
           ++ destruct (Her _ Hm) as [Hnot Hmlt]. split; [|done].
              intros Hin. apply Hnot.
              eapply elem_of_sublist; [exact Hin|].
              apply nodes_sublist. apply sublist_app; [done|]. apply sublist_app_erase.
           ++ injection Hm as ->. done.
        -- intros m Hm. rewrite invoked_app in Hm. simpl in Hm. rewrite app_nil_r in Hm.
           destruct (Hinv _ Hm) as [Hnot Hmlt]. split; [|done].
           intros Hin. apply Hnot.
           eapply elem_of_sublist; [exact Hin|]. apply nodes_sublist, sublist_app_erase.
        -- intros m Hm. rewrite invoked_app. simpl. rewrite app_nil_r, elem_of_app.
           destruct (Hall _ Hm) as [?|[?|Hin]]; auto.
           rewrite nodes_app, nodes_cons, elem_of_app, elem_of_cons in Hin.
           rewrite list_elem_of_singleton, nodes_app, elem_of_app.
           destruct Hin as [?|[->|?]]; auto.
      * eexists. split; [simpl; apply lookup_insert_eq|]. simpl.
        rewrite Hcur. destruct q1 as [|[m c'] q1]; simpl.
        -- by rewrite decide_True.
        -- rewrite decide_False; [done|]. intros [= ->]. apply Hq1. left.
      * simpl. pose proof (total_weight_erase q1 n c q2). lia.
  - (* add *)
    apply local_stmt_add in Hs as (-> & Hh' & Hc).
    assert (is_Some (cells w !! h)) as [cv Hcv] by by apply elem_of_dom.
    cbn [run_stmt]. rewrite (bind_run _ _ _ _ _ (add_run _ c first _ _ He)).
    set (w1 := with_chans _ _).
    assert (Hcv1 : cells w1 !! h = Some cv) by done.
    rewrite (store_run _ (At (fresh w)) _ _ Hcv1).
    set (w2 := with_cells _ w1).
    set (m := fresh w) in *.
    set (l' := if first then (m, c) :: _callbacks e else _callbacks e ++ [(m, c)]) in *.
    assert (∃ pre' post',
              l' = pre' ++ post' ∧
              list_begin this post = list_begin this post' ∧
              nodes post' ⊆ m :: nodes post ∧
              nodes post ⊆ nodes post' ∧
              total_weight post' ≤ total_weight post + weight c)
      as (pre' & post' & Hl' & Hb' & Hsub' & Hkeep & Hw').
    { unfold l'. rewrite Hl. destruct first.
      - exists ((m, c) :: pre), post. split; [done|]. split; [done|].
        split; [|split; [done|lia]]. intros x Hx. by right.
      - destruct post as [|p post].
        + exists (pre ++ [(m, c)]), []. rewrite !app_nil_r.
          split; [done|]. split; [done|].
          split; [|split; [done|unfold total_weight; simpl; lia]].
          by intros x ?%elem_of_nil.
        + exists pre, ((p :: post) ++ [(m, c)]). split; [by rewrite app_assoc|].
          split; [done|]. split.
          * intros x. rewrite nodes_app, elem_of_app. simpl.
            rewrite list_elem_of_singleton. intros [Hx| ->]; [by right|left].
          * split; [|rewrite total_weight_snoc; lia].
            intros x Hx. rewrite nodes_app, elem_of_app. by left. }
    assert (Hn' : nodes l' ≡ₚ m :: nodes (pre ++ post)).
    { unfold l'. rewrite Hl. destruct first; [done|].
      rewrite nodes_app. simpl. by rewrite Permutation_app_comm. }
    assert (Hc' : l'.*2 ≡ₚ c :: (pre ++ post).*2).
    { unfold l'. rewrite Hl. destruct first; [done|].
      rewrite fmap_app. simpl. by rewrite Permutation_app_comm. }
    exists w2, pre', post', []. rewrite app_nil_r.
    split; [done|]. split; [|split; [|split; [done|by rewrite stmt_weight_add]]].
    + split_and!; simpl; try done.
      * rewrite <- Hl'.
        eapply (channel_ok_add _ _ _ l' c w w2 h (_enabled e) (_nextCallback e) Hok);
          done.
      * intros n Hn. destruct (Her _ Hn) as [Hnot Hnlt]. split; [|lia].
        rewrite <- Hl', Hn'. intros [->|Hin]%elem_of_cons; [unfold m in *; lia|done].
      * intros n Hn. destruct (Hinv _ Hn) as [Hnot Hnlt]. split; [|lia].
        intros [->|Hin]%Hsub'%elem_of_cons; [unfold m in *; lia|done].
      * intros n Hn. destruct (Hall _ Hn) as [?|[?|Hin]]; [by left|by right; left|].
        right. right. by apply Hkeep.
    + eexists. split; [simpl; apply lookup_insert_eq|]. simpl. by rewrite Hcur.
  - (* setEnabled *)
    simpl in Hs. apply bool_decide_unpack in Hs as ->.
    exists (with_chans (insert this (mkEvent (_callbacks e) b (_nextCallback e))) w),
      pre, post, []. rewrite app_nil_r. cbn [run_stmt].
    split; [by apply setEnabled_run|]. split; [|split; [|split; [done|simpl; lia]]].
    + eapply dispatching_frame; [exact Hdis| |done|done|done|by destruct a].
      eexists. split; [simpl; apply lookup_insert_eq|done].
    + eexists. split; [simpl; apply lookup_insert_eq|done].
  - (* an update of the argument *)
    destruct a as [v|x].
    + exists w, pre, post, []. rewrite app_nil_r.
      split; [done|]. split; [done|]. split; [by exists e|]. split; [done|simpl; lia].
    + destruct Hrd as [u Hu].
      exists (with_vals (insert x (f u)) w), pre, post, []. rewrite app_nil_r.
      split.
      { cbn [run_stmt]. unfold load_val, store_val, bind, lift, ret.
        rewrite Hu. simpl. by rewrite Hu. }
      split; [|split; [by exists e|split; [done|simpl; lia]]].
      eapply dispatching_frame; [exact Hdis| |done|done|done|].
      * by exists e.
      * simpl. rewrite lookup_insert_eq. eauto.
Qed.

(** The body of a callback while the dispatch is in progress. *)
Lemma body_safe self this D (a : Arg T) h0 S0 ss : ∀ pre post t w,
  Forall (λ s, local_stmt this D s) ss →
  dispatching this D a h0 S0 pre post t w → cursor_at this post w →
  ∃ w' pre' post' t',
    run_body self a ss w = Ok tt w' ∧
    dispatching this D a h0 S0 pre' post' (t ++ t') w' ∧ cursor_at this post' w' ∧
    invoked t' = [] ∧
    total_weight post' ≤ total_weight post + body_weight ss.
Proof.
  induction ss as [|s ss IH]; intros pre post t w Hss Hdis Hcur.
  - exists w, pre, post, []. rewrite app_nil_r.
    split; [done|]. split; [done|]. split; [done|]. split; [done|].
    unfold body_weight. simpl. lia.
  - apply Forall_cons in Hss as [Hs Hss].
    destruct (stmt_during self _ _ _ _ _ _ _ _ _ _ Hs Hdis Hcur)
      as (w1 & pre1 & post1 & t1 & Hrun1 & Hdis1 & Hcur1 & Hi1 & Hw1).
    destruct (IH _ _ _ _ Hss Hdis1 Hcur1)
      as (w2 & pre2 & post2 & t2 & Hrun2 & Hdis2 & Hcur2 & Hi2 & Hw2).
    exists w2, pre2, post2, (t1 ++ t2). cbn [run_body].
    rewrite (bind_run _ _ _ _ _ Hrun1).
    split; [done|]. split; [by rewrite app_assoc|]. split; [done|].
    split; [by rewrite invoked_app, Hi1, Hi2|].
    unfold body_weight in *. simpl. lia.
Qed.

(** The loop of [notify] over callbacks that act on their channel: it
    completes, after at most as many calls as the weight of what is left
    to visit. *)
Lemma notify_loop_safe this D (a : Arg T) h0 S0 fuel : ∀ pre post t w,
  total_weight post < fuel →
  dispatching this D a h0 S0 pre post t w →
  ∃ w' l' t',
    notify_loop fuel this a (list_begin this post) w = Ok tt w' ∧
    dispatching this D a h0 S0 l' [] (t ++ t') w' ∧
    length (invoked t') ≤ total_weight post.
Proof.
  induction fuel as [|fuel IH]; intros pre post t w Hf Hdis; [lia|].
  destruct post as [|[n c] post].
  { exists w, pre, []. simpl. rewrite decide_True by done. rewrite app_nil_r.
    split; [done|]. split; [done|]. lia. }
  pose proof Hdis as (Hok & Hrd & Hh & Hsafe & Hndi & Her & Hinv & Hall).
  pose proof Hok as ((e & He & Hl) & Hnd & Hlt & Hdom & Hv & Hna & Hloc).
  assert (Hn : n ∉ nodes pre).
  { rewrite nodes_app, nodes_cons in Hnd.
    apply NoDup_app in Hnd as (_ & Hd & _). intros Hin. apply (Hd n Hin). left. }
  assert (Hnpost : n ∉ nodes post).
  { rewrite nodes_app, nodes_cons in Hnd.
    apply NoDup_app in Hnd as (_ & _ & Hnd). by apply NoDup_cons in Hnd as [? _]. }
  assert (Hnin : n ∈ nodes (pre ++ (n, c) :: post)).
  { rewrite nodes_app, nodes_cons, elem_of_app. right. left. }
  assert (Hnlt : n < fresh w).
  { rewrite Forall_forall in Hlt. by apply Hlt. }
  cbn [list_begin].
  rewrite (notify_loop_step fuel this a pre n c post w e He Hl Hn).
  set (e1 := mkEvent (_callbacks e) (_enabled e) (list_begin this post)).
  set (w1 := with_chans (insert this e1) w).
  assert (He1 : chans w1 !! this = Some e1) by apply lookup_insert_eq.
  destruct (arg_value_readable a w1 Hrd) as [v Hv1].
  unfold bind at 1. rewrite (call_run _ _ _ _ _ Hv1).
  set (w2 := with_history _ w1).
  assert (Hdis2 : dispatching this D a h0 S0 (pre ++ [(n, c)]) post
                    (t ++ [Invoked n (cb_name c) v]) w2).
  { split_and!.
    - rewrite <- app_assoc. eapply channel_ok_frame; [exact Hok| |done|done].
      exists e1. split; [done|]. exact Hl.
    - by destruct a.
    - simpl. by rewrite Hh, app_assoc.
    - apply safe_snoc; [done|]. intros ? ? ? [= <- _ _] Hin.
      by destruct (Her _ Hin).
    - rewrite invoked_app. simpl. apply NoDup_app. split; [done|].
      split; [|apply NoDup_singleton].
      intros m Hm ->%list_elem_of_singleton. destruct (Hinv _ Hm) as [Hnot _].
      apply Hnot. rewrite nodes_cons. left.
    - intros m Hm%elem_of_app. destruct Hm as [Hm|Hm%list_elem_of_singleton]; [|done].
      rewrite <- app_assoc. by apply Her.
    - intros m Hm. rewrite invoked_app in Hm. simpl in Hm.
      apply elem_of_app in Hm as [Hm|Hm]; [|by apply list_elem_of_singleton in Hm as ->].
      destruct (Hinv _ Hm) as [Hnot Hmlt]. split; [|done].
      intros Hin. apply Hnot. rewrite nodes_cons. by right.
    - intros m Hm. rewrite invoked_app. simpl. rewrite !elem_of_app.
      rewrite !list_elem_of_singleton.
      destruct (Hall _ Hm) as [?|[?|Hin]]; auto.
      rewrite nodes_cons, elem_of_cons in Hin. destruct Hin as [->|?]; auto. }
  assert (Hcur2 : cursor_at this post w2) by (by exists e1).
  assert (Hc : Forall (λ s, local_stmt this D s) (cb_body c)).
  { apply local_body. rewrite fmap_app, fmap_cons in Hloc.
    apply Forall_app in Hloc as [_ Hloc]. by apply Forall_cons in Hloc as [? _]. }
  destruct (body_safe c this D a h0 S0 _ _ _ _ _ Hc Hdis2 Hcur2)
    as (w3 & pre3 & post3 & t3 & Hrun3 & Hdis3 & (e3 & He3 & Hcur3) & Hi3 & Hw3).
  rewrite Hrun3.
  rewrite (bind_run _ _ _ _ _ (this_event_run _ _ _ He3)). rewrite Hcur3.
  destruct (IH pre3 post3 ((t ++ [Invoked n (cb_name c) v]) ++ t3) w3)
    as (w' & l' & t' & Hrun & Hdis' & Hcnt); [|exact Hdis3|].
  { rewrite total_weight_cons in Hf. unfold weight in Hf. lia. }
  exists w', l', ([Invoked n (cb_name c) v] ++ t3 ++ t').
  split; [done|]. split; [by rewrite !app_assoc in *|].
  rewrite !invoked_app, Hi3, total_weight_cons. unfold weight. simpl. lia.
Qed.

(** X17: a dispatch, started while the channel is idle, over callbacks
    that remove subscriptions of their channel, subscribe further
    callbacks to it, switch it on or off and update their argument.  The
    callbacks a callback subscribes are written out in its body and are
    of the same kind: no callback subscribes a copy of itself and none
    throws.  Such a dispatch completes, after at most [total_weight l]
    calls (the callbacks of the list and those they can subscribe); no
    callback is called after its node was erased, none is called twice,
    every callback that was subscribed when the dispatch started is
    called or was erased (if the channel was enabled then; otherwise
    nobody is called), and the channel is idle afterwards with all
    handles valid, so that the next dispatch is safe as well. *)
Theorem dispatch_is_safe this D l (w : World T) (a : Arg T) fuel :
  channel_ok this D l w → idle this w → readable a w → total_weight l < fuel →
  ∃ w' l' t,
    notify fuel this a w = Ok tt w' ∧
    history w' = history w ++ t ∧
    length (invoked t) ≤ total_weight l ∧
    never_called_after_erased t ∧
    NoDup (invoked t) ∧
    (∀ n, Erased n ∈ t → n ∉ nodes l') ∧
    (∀ e, chans w !! this = Some e → _enabled e = true →
          ∀ n, n ∈ nodes l → n ∈ invoked t ∨ Erased n ∈ t) ∧
    channel_ok this D l' w' ∧ idle this w' ∧ readable a w'.
Proof.
  intros Hok Hidle Hrd Hf.
  pose proof Hok as ((e & He & Hl) & Hnd & Hlt & Hdom & Hv & Hna & Hloc).
  destruct (_enabled e) eqn:Hen.
  - assert (Hdis : dispatching this D a (history w) (nodes l) [] l [] w).
    { split_and!; try done.
      - by rewrite app_nil_r.
      - apply safe_nil.
      - constructor.
      - by intros n ?%elem_of_nil.
      - by intros n ?%elem_of_nil.
      - intros n Hn. by right; right. }
    destruct (notify_loop_safe this D a (history w) (nodes l) fuel [] l [] w Hf Hdis)
      as (w1 & l' & t & Hrun & Hdis' & Hcnt).
    pose proof Hdis' as (Hok' & Hrd' & Hh' & Hsafe' & Hndi' & Her' & Hinv' & Hall').
    pose proof Hok' as ((e1 & He1 & Hl1) & _).
    rewrite app_nil_r in Hl1, Hok', Her'. simpl in Hsafe', Hndi', Hh', Hall'.
    exists (with_chans (insert this (mkEvent (_callbacks e1) (_enabled e1) (End this))) w1),
      l', t.
    split_and!; try done.
    + unfold notify. rewrite (bind_run _ _ _ _ _ (this_event_run _ _ _ He)), Hen, Hl.
      rewrite (bind_run _ _ _ _ _ Hrun). by apply set_nextCallback_run.
    + intros n Hn. by destruct (Her' _ Hn).
    + intros e0 He0 _ n Hn. destruct (Hall' _ Hn) as [?|[?|Hin]]; [by left|by right|].
      by apply elem_of_nil in Hin.
    + eapply channel_ok_frame; [exact Hok'| |done|done].
      eexists. split; [simpl; apply lookup_insert_eq|done].
    + eexists. split; [simpl; apply lookup_insert_eq|done].
  - exists w, l, []. rewrite app_nil_r.
    split_and!; try done.
    + by apply (notify_disabled _ _ e).
    + simpl. lia.
    + apply safe_nil.
    + constructor.
    + by intros n ?%elem_of_nil.
    + intros e0 He0 Hen0. simplify_eq. congruence.
Qed.

End Safe.

Lemma dispatch_is_safe_witness :
  ∃ w',
    notify 5 0 (Ref 7) busy_subscribers = Ok tt w' ∧
    history w' = [Invoked 4 1 0%Z; Erased 5; Invoked 6 3 0%Z; Erased 6; Invoked 8 9 1%Z] ∧
    idle 0 w'.
Proof.
  destruct (dispatch_is_safe 0 {[1; 2; 3]}
              [(4, Cb 1 [SRemove 0 2;
                         SAdd 0 2 (Cb 9 [SSetEnabled 0 true]) false;
                         SSetEnabled 0 false]);
               (5, Cb 2 [SModify Z.succ]);
               (6, Cb 3 [SRemove 0 3; SModify Z.succ])]
              busy_subscribers (Ref 7) 5)
    as (w' & l' & t & Hrun & _ & _ & _ & _ & _ & _ & _ & Hidle & _).
  - split_and!.
    + eexists. split; reflexivity.
    + refine (bool_decide_unpack _ _). vm_compute. exact I.
    + refine (bool_decide_unpack _ _). vm_compute. exact I.
    + refine (bool_decide_unpack _ _). vm_compute. exact I.
    + unfold handles_valid. refine (bool_decide_unpack _ _). vm_compute. exact I.
    + unfold no_alias. refine (bool_decide_unpack _ _). vm_compute. exact I.
    + unfold local. refine (bool_decide_unpack _ _). vm_compute. exact I.
  - eexists. split; reflexivity.
  - simpl. eexists. reflexivity.
  - vm_compute. lia.
  - exists w'. split; [exact Hrun|]. split; [|exact Hidle].
    vm_compute in Hrun. injection Hrun as <-. reflexivity.
Defined.

(** ** A dispatch that does not end *)

Section Diverge.
Context {T : Type}.
Implicit Types (w : World T) (e : Event T) (this : chan).
Implicit Types (l pre post : list (node * Callback T)) (c : Callback T).

(** A call of a passive callback leaves channels and handles alone. *)
Lemma call_quiet n c (a : Arg T) w :
  passive c → readable a w →
  ∃ w', call n c a w = Ok tt w' ∧
        chans w' = chans w ∧ cells w' = cells w ∧ fresh w' = fresh w ∧
        readable a w'.
Proof.
  intros Hc Hrd. destruct a as [v|x].
  - eexists. split; [by apply call_passive|]. done.
  - destruct Hrd as [u0 Hx].
    destruct (call_passive_ref n c x w u0 Hc Hx) as [u Hu].
    eexists. split; [exact Hu|]. simpl. split_and!; try done.
    rewrite lookup_insert_eq. eauto.
Qed.

(** A call of a callback that appends two copies of itself. *)
Lemma call_doubler this h n c (a : Arg T) w e :
  doubles this h c → chans w !! this = Some e → is_Some (cells w !! h) →
  readable a w →
  ∃ w', call n c a w = Ok tt w' ∧
        chans w' = <[this := mkEvent (_callbacks e ++ [(fresh w, c); (S (fresh w), c)])
                                (_enabled e) (_nextCallback e)]> (chans w) ∧
        cells w' = <[h := At (S (fresh w))]> (cells w) ∧
        fresh w' = S (S (fresh w)) ∧ readable a w'.
Proof.
  intros Hc He [cv Hh] Hrd.
  destruct (arg_value_readable a w Hrd) as [v Hv].
  rewrite (call_run _ _ _ _ _ Hv), Hc. cbn [run_body run_stmt].
  set (w1 := with_history _ w).
  assert (He1 : chans w1 !! this = Some e) by done.
  rewrite bind_assoc.
  rewrite (bind_run _ _ _ _ _ (add_run _ c false _ _ He1)).
  set (w2 := with_chans _ _).
  assert (Hh2 : cells w2 !! h = Some cv) by done.
  rewrite (bind_run _ _ _ _ _ (store_run _ (At (fresh w1)) _ _ Hh2)).
  set (w3 := with_cells _ w2).
  assert (He3 : chans w3 !! this
                = Some (mkEvent (_callbacks e ++ [(fresh w, c)]) (_enabled e)
                          (_nextCallback e))) by apply lookup_insert_eq.
  rewrite bind_assoc.
  rewrite (bind_run _ _ _ _ _ (add_run _ c false _ _ He3)).
  set (w4 := with_chans _ _).
  assert (Hh4 : cells w4 !! h = Some (At (fresh w))) by apply lookup_insert_eq.
  rewrite (bind_run _ _ _ _ _ (store_run _ (At (fresh w3)) _ _ Hh4)).
  eexists. split; [reflexivity|]. simpl. split_and!.
  - rewrite insert_insert_eq. by rewrite <- app_assoc.
  - by rewrite insert_insert_eq.
  - done.
  - by destruct a.
Qed.

(** The loop when a callback that appends two copies of itself is still
    to be visited and is not the last: the stretch still to be visited
    never becomes empty. *)
Lemma notify_loop_never_ends this h (a : Arg T) fuel : ∀ pre ys n c zs w e,
  chans w !! this = Some e →
  _callbacks e = pre ++ ys ++ (n, c) :: zs →
  doubles this h c → zs ≠ [] →
  Forall (λ d, passive d ∨ doubles this h d) (_callbacks e).*2 →
  NoDup (nodes (_callbacks e)) →
  Forall (λ k, k < fresh w) (nodes (_callbacks e)) →
  is_Some (cells w !! h) → readable a w →
  notify_loop fuel this a (list_begin this (ys ++ (n, c) :: zs)) w = OutOfFuel.
Proof.
  induction fuel as [|fuel IH]; intros pre ys n c zs w e He Hl Hc Hzs Hall Hnd Hlt Hh Hrd;
    [done|].
  assert (Hstep : ∀ k d rest,
            ys ++ (n, c) :: zs = (k, d) :: rest →
            ∃ e1 w1, chans w1 !! this = Some e1 ∧
              e1 = mkEvent (_callbacks e) (_enabled e) (list_begin this rest) ∧
              w1 = with_chans (insert this e1) w ∧
              notify_loop (S fuel) this a (At k) w
              = (call k d a;; e' <- this_event this;;
                 notify_loop fuel this a (_nextCallback e')) w1 ∧
              (passive d ∨ doubles this h d) ∧ readable a w1).
  { intros k d rest Hseg. rewrite Hseg in Hl.
    assert (Hk : k ∉ nodes pre).
    { rewrite Hl, nodes_app, nodes_cons in Hnd.
      apply NoDup_app in Hnd as (_ & Hd & _). intros Hin. apply (Hd k Hin). left. }
    exists (mkEvent (_callbacks e) (_enabled e) (list_begin this rest)),
      (with_chans (insert this
         (mkEvent (_callbacks e) (_enabled e) (list_begin this rest))) w).
    split; [apply lookup_insert_eq|]. split; [done|]. split; [done|].
    split; [by apply (notify_loop_step fuel this a pre k d rest w e He Hl Hk)|].
    split; [|by destruct a].
    rewrite Hl, fmap_app, fmap_cons in Hall.
    apply Forall_app in Hall as [_ Hall]. by apply Forall_cons in Hall as [? _]. }
  destruct ys as [|[k' d'] ys].
  - (* the callback that doubles itself is called *)
    destruct (Hstep n c zs eq_refl) as (e1 & w1 & He1 & -> & -> & Hrun & _ & Hrd1).
    cbn [app list_begin]. rewrite Hrun.
    set (e1 := mkEvent (_callbacks e) (_enabled e) (list_begin this zs)) in *.
    set (w1 := with_chans (insert this e1) w) in *.
    destruct (call_doubler this h n c a w1 e1 Hc He1 Hh Hrd1)
      as (w2 & Hcall & Hch & Hce & Hfr & Hrd2).
    unfold bind at 1. rewrite Hcall.
    set (e2 := mkEvent (_callbacks e1 ++ [(fresh w1, c); (S (fresh w1), c)])
                 (_enabled e1) (_nextCallback e1)) in Hch.
    assert (He2 : chans w2 !! this = Some e2) by (rewrite Hch; apply lookup_insert_eq).
    rewrite (bind_run _ _ _ _ _ (this_event_run _ _ _ He2)).
    cbn [e2 _nextCallback e1].
    destruct zs as [|z zs]; [done|].
    assert (Hb : list_begin this (z :: zs)
                 = list_begin this ((z :: zs) ++ (fresh w, c) :: [(S (fresh w), c)])).
    { by destruct z. }
    rewrite Hb.
    apply (IH (pre ++ [(n, c)]) (z :: zs) (fresh w) c [(S (fresh w), c)] w2 e2);
      try done.
    + cbn [e2 e1 _callbacks]. rewrite Hl. by rewrite <- !app_assoc.
    + cbn [e2 e1 _callbacks]. rewrite fmap_app. apply Forall_app. split; [done|].
      simpl. apply Forall_cons. split; [by right|]. apply Forall_singleton. by right.
    + cbn [e2 e1 _callbacks]. rewrite nodes_app. apply NoDup_app. split; [done|].
      split.
      * intros m Hm Hin. rewrite Forall_forall in Hlt. apply Hlt in Hm.
        simpl in Hin. rewrite !elem_of_cons in Hin.
        destruct Hin as [->|[->|Hin]]; [simpl in *; lia..|by apply elem_of_nil in Hin].
      * simpl. apply NoDup_cons. split; [|apply NoDup_singleton].
        rewrite list_elem_of_singleton. lia.
    + cbn [e2 e1 _callbacks]. rewrite nodes_app, Hfr. apply Forall_app. split.
      * eapply Forall_impl; [exact Hlt|]. intros; simpl in *; lia.
      * simpl. repeat constructor; lia.
    + rewrite Hce. rewrite lookup_insert_eq. eauto.
  - (* another callback is called *)
    destruct (Hstep k' d' (ys ++ (n, c) :: zs) eq_refl)
      as (e1 & w1 & He1 & -> & -> & Hrun & Hd & Hrd1).
    cbn [app list_begin]. rewrite Hrun.
    set (e1 := mkEvent (_callbacks e) (_enabled e)
                 (list_begin this (ys ++ (n, c) :: zs))) in *.
    set (w1 := with_chans (insert this e1) w) in *.
    destruct Hd as [Hd|Hd].
    + destruct (call_quiet k' d' a w1 Hd Hrd1) as (w2 & Hcall & Hch & Hce & Hfr & Hrd2).
      unfold bind at 1. rewrite Hcall.
      assert (He2 : chans w2 !! this = Some e1) by by rewrite Hch.
      rewrite (bind_run _ _ _ _ _ (this_event_run _ _ _ He2)).
      cbn [e1 _nextCallback].
      apply (IH (pre ++ [(k', d')]) ys n c zs w2 e1); try done.
      * cbn [e1 _callbacks]. rewrite Hl. by rewrite <- app_assoc.
      * by rewrite Hfr.
      * by rewrite Hce.
    + destruct (call_doubler this h k' d' a w1 e1 Hd He1 Hh Hrd1)
        as (w2 & Hcall & Hch & Hce & Hfr & Hrd2).
      unfold bind at 1. rewrite Hcall.
      set (e2 := mkEvent (_callbacks e1 ++ [(fresh w1, d'); (S (fresh w1), d')])
                   (_enabled e1) (_nextCallback e1)) in Hch.
      assert (He2 : chans w2 !! this = Some e2) by (rewrite Hch; apply lookup_insert_eq).
      rewrite (bind_run _ _ _ _ _ (this_event_run _ _ _ He2)).
      cbn [e2 _nextCallback e1].
      assert (Hb : list_begin this (ys ++ (n, c) :: zs)
                   = list_begin this
                       (ys ++ (n, c) :: zs ++ [(fresh w, d'); (S (fresh w), d')])).
      { by destruct ys as [|[? ?] ?]. }
      rewrite Hb.
      apply (IH (pre ++ [(k', d')]) ys n c (zs ++ [(fresh w, d'); (S (fresh w), d')]) w2 e2);
        try done.
      * cbn [e2 e1 _callbacks]. rewrite Hl. rewrite <- !app_assoc. simpl.
        by rewrite <- ?app_assoc.
      * by destruct zs.
      * cbn [e2 e1 _callbacks]. rewrite fmap_app. apply Forall_app. split; [done|].
        simpl. apply Forall_cons. split; [by right|]. apply Forall_singleton. by right.
      * cbn [e2 e1 _callbacks]. rewrite nodes_app. apply NoDup_app. split; [done|].
        split.
        -- intros m Hm Hin. rewrite Forall_forall in Hlt. apply Hlt in Hm.
           simpl in Hin. rewrite !elem_of_cons in Hin.
           destruct Hin as [->|[->|Hin]]; [simpl in *; lia..|by apply elem_of_nil in Hin].
        -- simpl. apply NoDup_cons. split; [|apply NoDup_singleton].
           rewrite list_elem_of_singleton. lia.
      * cbn [e2 e1 _callbacks]. rewrite nodes_app, Hfr. apply Forall_app. split.
        -- eapply Forall_impl; [exact Hlt|]. intros; simpl in *; lia.
        -- simpl. repeat constructor; lia.
      * rewrite Hce. rewrite lookup_insert_eq. eauto.
Qed.

(** X18: when a callback that appends two copies of itself is in the
    list of an enabled channel and is not the last (the other callbacks
    being passive or of the same kind), the loop of [notify] does not
    end: every call leaves more callbacks to visit than it consumed. *)
Theorem self_subscription_never_ends this h (w : World T) e pre n c post (a : Arg T) :
  chans w !! this = Some e → _enabled e = true →
  _callbacks e = pre ++ (n, c) :: post →
  doubles this h c → post ≠ [] →
  Forall (λ d, passive d ∨ doubles this h d) (_callbacks e).*2 →
  NoDup (nodes (_callbacks e)) →
  Forall (λ k, k < fresh w) (nodes (_callbacks e)) →
  is_Some (cells w !! h) → readable a w →
  ∀ fuel, notify fuel this a w = OutOfFuel.
Proof.
  intros He Hen Hl Hc Hpost Hall Hnd Hlt Hh Hrd fuel.
  unfold notify. rewrite (bind_run _ _ _ _ _ (this_event_run _ _ _ He)), Hen.
  unfold bind. rewrite Hl.
  by rewrite (notify_loop_never_ends this h a fuel [] pre n c post w e).
Qed.

End Diverge.

Lemma self_subscription_never_ends_witness :
  notify 40 0 (Val 7%Z) self_subscribing = OutOfFuel.
Proof.
  apply (self_subscription_never_ends 0 3 self_subscribing
           (mkEvent [(1, Cb 1 [SAddSelf 0 3 false; SAddSelf 0 3 false]); (2, cbA)]
              true (End 0))
           [] 1 (Cb 1 [SAddSelf 0 3 false; SAddSelf 0 3 false]) [(2, cbA)]).
  - reflexivity.
  - reflexivity.
  - reflexivity.
  - reflexivity.
  - done.
  - simpl. apply Forall_cons. split; [by right|]. apply Forall_singleton.
    left. constructor.
  - refine (bool_decide_unpack _ _). vm_compute. exact I.
  - refine (bool_decide_unpack _ _). vm_compute. exact I.
  - simpl. eexists. reflexivity.
  - exact I.
Defined.

(** ** A callback that throws *)

Section Throwing.
Context {T : Type}.
Implicit Types (w : World T) (e : Event T) (this : chan).
Implicit Types (l pre post : list (node * Callback T)) (c : Callback T).

Lemma run_body_throw self (v : T) ps ss w :
  Forall (λ s, is_modify s) ps →
  run_body self (Val v) (ps ++ SThrow :: ss) w = Thrown w.
Proof.
  induction 1 as [|s ps Hs _ IH]; [done|].
  destruct s as [| | |f| |]; done.
Qed.

(** X19: when a callback throws, [notify] is left at once by the
    exception: the callbacks before it have been called, in order, and
    those after it are not called; the list and the flag are as before,
    and the cursor stays on the successor of the callback that threw
    instead of being put back to the end. *)
Theorem exception_leaves_dispatch this (w : World T) e pre n nm ps ss post (v : T) fuel :
  chans w !! this = Some e → _enabled e = true →
  _callbacks e = pre ++ (n, Cb nm (ps ++ SThrow :: ss)) :: post →
  NoDup (nodes (_callbacks e)) →
  Forall passive pre.*2 → Forall (λ s, is_modify s) ps →
  length pre < fuel →
  notify fuel this (Val v) w
  = Thrown (mkWorld
              (<[this := mkEvent (_callbacks e) true (list_begin this post)]> (chans w))
              (cells w) (vals w) (fresh w)
              (history w ++ calls v pre ++ [Invoked n nm v])).
Proof.
  intros He Hen Hl Hnd Hpre Hps Hf.
  unfold notify. rewrite (bind_run _ _ _ _ _ (this_event_run _ _ _ He)), Hen.
  assert (∃ k, fuel = length pre + S k) as [k ->] by (exists (fuel - S (length pre)); lia).
  unfold bind at 1. rewrite Hl.
  rewrite (notify_loop_togglers this (Val v) pre [] _ (S k) w e v He); try done.
  - set (e1 := mkEvent _ _ _). set (w1 := mkWorld _ _ _ _ _).
    assert (He1 : chans w1 !! this = Some e1) by apply lookup_insert_eq.
    assert (Hl1 : _callbacks e1 = pre ++ (n, Cb nm (ps ++ SThrow :: ss)) :: post) by done.
    assert (Hn : n ∉ nodes pre).
    { rewrite Hl, nodes_app, nodes_cons in Hnd.
      apply NoDup_app in Hnd as (_ & Hd & _). intros Hin. apply (Hd n Hin). left. }
    cbn [list_begin].
    rewrite (notify_loop_step k this (Val v) pre n _ post w1 e1 He1 Hl1 Hn).
    unfold bind at 1. rewrite (call_run n _ (Val v) _ v eq_refl).
    cbn [cb_body cb_name]. rewrite (run_body_throw _ _ _ _ _ Hps).
    f_equal. apply world_eq; simpl; try done.
    + rewrite insert_insert_eq. by rewrite (enabled_after_passive _ _ Hpre), Hen, Hl.
    + by rewrite <- app_assoc, deliveries_by_value.
  - by rewrite <- Hl.
  - by apply passive_togglers.
Qed.

End Throwing.

Lemma exception_leaves_dispatch_witness :
  notify 4 0 (Val 7%Z) throwing_subscriber
  = Thrown (mkWorld {[ 0 := mkEvent [(1, Cb 1 [SThrow]); (2, cbB); (3, cbA)] true (At 2) ]}
              {[ 4 := At 2 ]} ∅ 5 [Invoked 1 1 7%Z]).
Proof.
  rewrite (exception_leaves_dispatch 0 throwing_subscriber
             (mkEvent [(1, Cb 1 [SThrow]); (2, cbB); (3, cbA)] true (End 0))
             [] 1 1 [] [] [(2, cbB); (3, cbA)] 7%Z 4).
  - reflexivity.
  - reflexivity.
  - reflexivity.
  - reflexivity.
  - refine (bool_decide_unpack _ _). vm_compute. exact I.
  - constructor.
  - constructor.
  - simpl. lia.
Defined.
